(** * Image load pipeline of [image/tarexport] and the aufs squashfs mount

    A shallow embedding of [image/tarexport] (the [Load] entry point, the
    manifest, legacy and squashfs loaders, the parent-link validator) and of
    [daemon/graphdriver/aufs/squashfs.go].  The layer store, the image store,
    the reference store, the file system and the command runner are external
    collaborators: they are fields of a record of operations over an abstract
    world.  The loaders keep a trace of their calls to the stores, of what
    they write to the output stream and of what they unpack, rename and
    remove; reads of the unpacked archive change the world only. *)

From Stdlib Require Import Strings.Byte.
From stdpp Require Import base option list strings gmap.

Set Warnings "-clear-no-such-hyp".
Open Scope string_scope.
Open Scope list_scope.
Open Scope nat_scope.

(** ** Identifiers and plain data *)

Definition DiffID := string.
Definition ChainID := string.
Definition ImageID := string.

(** Errors reported by a collaborator; [os.IsNotExist] distinguishes the
    first constructor. *)
Inductive exterr :=
| ENotExist (path : string)
| EOther (msg : string).

Definition IsNotExist (e : exterr) : bool :=
  match e with ENotExist _ => true | EOther _ => false end.

(** The answer of a collaborator: a value or an error. *)
Inductive ext (A : Type) :=
| Got (a : A)
| Failed (e : exterr).
Arguments Got {A} a.
Arguments Failed {A} e.

(** ** [bufio.Reader] and [bufferedReadCloser] *)

Module Bufio.

Inductive ioerr := EOF | ErrBufferFull.

(** The wrapped [io.Reader]: the bytes not yet delivered, and the largest
    number of bytes (minus one) that a single [Read] hands out, so that
    short reads are covered. *)
Record Source := { remaining : list byte; chunk : nat }.

Definition srcRead (n : nat) (s : Source) : list byte * option ioerr * Source :=
  match remaining s with
  | [] => ([], Some EOF, s)
  | _ =>
      let k := n `min` S (chunk s) in
      (take k (remaining s), None,
       {| remaining := drop k (remaining s); chunk := chunk s |})
  end.

(** [buf] is the unread window [b.buf[b.r:b.w]], [size] is [len(b.buf)],
    [rerr] the pending error [b.err], [rd] the wrapped reader. *)
Record Reader := { buf : list byte; size : nat; rerr : option ioerr; rd : Source }.

Definition defaultBufSize : nat := 4096.

Definition NewReader (src : Source) : Reader :=
  {| buf := []; size := defaultBufSize; rerr := None; rd := src |}.

(** [readErr]: hand out the pending error and clear it. *)
Definition readErr (b : Reader) : option ioerr * Reader :=
  (rerr b, {| buf := buf b; size := size b; rerr := None; rd := rd b |}).

(** [fill]: one read of the wrapped reader into the free part of the
    buffer.  The source delivers at least one byte or an error, so the
    retry loop of the library runs once. *)
Definition fill (b : Reader) : Reader :=
  let '(bs, e, rd') := srcRead (size b - length (buf b)) (rd b) in
  {| buf := buf b ++ bs; size := size b; rerr := e; rd := rd' |}.

Definition peekCond (n : nat) (b : Reader) : bool :=
  (length (buf b) <? n) && (length (buf b) <? size b) && bool_decide (rerr b = None).

Fixpoint peekLoop (fuel n : nat) (b : Reader) : Reader :=
  match fuel with
  | 0 => b
  | S fuel' => if peekCond n b then peekLoop fuel' n (fill b) else b
  end.

Definition Peek (n : nat) (b : Reader) : list byte * option ioerr * Reader :=
  let b1 := peekLoop n n b in
  if size b1 <? n then (buf b1, Some ErrBufferFull, b1)
  else if length (buf b1) <? n then
    let '(e, b2) := readErr b1 in
    (buf b1, Some (default ErrBufferFull e), b2)
  else (take n (buf b1), None, b1).

Definition Read (n : nat) (b : Reader) : list byte * option ioerr * Reader :=
  if n =? 0 then
    match buf b with
    | [] => let '(e, b') := readErr b in ([], e, b')
    | _ => ([], None, b)
    end
  else
    match buf b with
    | [] =>
        match rerr b with
        | Some e => ([], Some e, snd (readErr b))
        | None =>
            if size b <=? n then
              let '(bs, e, rd') := srcRead n (rd b) in
              (bs, e, {| buf := []; size := size b; rerr := None; rd := rd' |})
            else
              let '(bs, e, rd') := srcRead (size b) (rd b) in
              match bs with
              | [] => ([], e, {| buf := []; size := size b; rerr := None; rd := rd' |})
              | _ => (take n bs, None,
                      {| buf := drop n bs; size := size b; rerr := e; rd := rd' |})
              end
        end
    | _ => (take n (buf b), None,
            {| buf := drop n (buf b); size := size b; rerr := rerr b; rd := rd b |})
    end.

(** The bytes a reader has still to deliver. *)
Definition bytesOf (b : Reader) : list byte := buf b ++ remaining (rd b).

(** A pending error is always an end of input found on an empty source. *)
Definition wf (b : Reader) : Prop :=
  rerr b = None ∨ (rerr b = Some EOF ∧ remaining (rd b) = []).

End Bufio.

(** [bufferedReadCloser]: the embedded [io.ReadCloser] is the reader that
    [r] wraps, so the record keeps [r] alone; [Peek] and [Read] delegate. *)
Record bufferedReadCloser := { r : Bufio.Reader }.

Definition bufferedReadCloser_Peek (b : bufferedReadCloser) (n : nat)
  : list byte * option Bufio.ioerr * bufferedReadCloser :=
  let '(bs, e, r') := Bufio.Peek n (r b) in (bs, e, {| r := r' |}).

Definition bufferedReadCloser_Read (b : bufferedReadCloser) (n : nat)
  : list byte * option Bufio.ioerr * bufferedReadCloser :=
  let '(bs, e, r') := Bufio.Read n (r b) in (bs, e, {| r := r' |}).

(** Reading a [bufferedReadCloser] to its end with a buffer of [k] bytes, as
    [io.Copy] and the tar unpacker do: every [Read] delivers a byte or an
    error, so one round per pending byte and one more are enough. *)
Fixpoint readLoop (fuel k : nat) (b : bufferedReadCloser) (acc : list byte)
  : list byte * bufferedReadCloser :=
  match fuel with
  | 0 => (acc, b)
  | S fuel' =>
      let '(bs, e, b') := bufferedReadCloser_Read b k in
      match e with
      | Some _ => (acc ++ bs, b')
      | None => readLoop fuel' k b' (acc ++ bs)
      end
  end.

Definition pending (b : bufferedReadCloser) : list byte :=
  Bufio.buf (r b) ++ Bufio.remaining (Bufio.rd (r b)).

Definition readAll (k : nat) (b : bufferedReadCloser) : list byte * bufferedReadCloser :=
  readLoop (S (length (pending b))) k b [].

Definition copyBufSize : nat := 32 * 1024.

(** The squashfs magic, [hsqs]. *)
Definition squashfsMagic : list byte := [x68; x73; x71; x73].

(** [bytes.Compare(a, b) == 0]. *)
Fixpoint bytes_eqb (a b : list byte) : bool :=
  match a, b with
  | [], [] => true
  | x :: a', y :: b' => Byte.eqb x y && bytes_eqb a' b'
  | _, _ => false
  end.

(** ** Images, layers and archive records *)

(** [image.RootFS]. *)
Record RootFS := { Type_ : string; DiffIDs : list DiffID }.

(** Modelled from the spec: [RootFS.Append] lives in [image/rootfs.go]; the
    spec gives it as the only mutation, pushing a DiffID at the end. *)
Definition RootFS_Append (rfs : RootFS) (d : DiffID) : RootFS :=
  {| Type_ := Type_ rfs; DiffIDs := DiffIDs rfs ++ [d] |}.

(** Modelled from the spec: [image.NewRootFS] of [image/rootfs.go], the
    root file system of a root image: no DiffID yet. *)
Definition NewRootFS : RootFS := {| Type_ := "layers"; DiffIDs := [] |}.

(** Modelled from the spec: [image.History], per-layer metadata (creation
    time, author, command, comment, empty-layer flag). *)
Record History := {
  Created : string; Author : string; CreatedBy : string;
  Comment : string; EmptyLayer : bool }.

#[global] Instance History_eq_dec : EqDecision History.
Proof. solve_decision. Defined.

(** [reflect.DeepEqual] on two history entries. *)
Definition DeepEqual (h1 h2 : History) : bool := bool_decide (h1 = h2).

(** [image.Image], as far as the loaders read it: the id the store computed,
    the root file system and the history. *)
Record Image := { imgID : ImageID; imgRootFS : RootFS; imgHistory : list History }.

(** [layer.Layer], as far as the loaders read it. *)
Record Layer := { layerChainID : ChainID; layerDiffID : DiffID }.

#[global] Instance Layer_eq_dec : EqDecision Layer.
Proof. solve_decision. Defined.

(** [distribution.Descriptor]. *)
Record Descriptor := {
  MediaType : string; Size : Z; Digest : string; URLs : list string }.

Definition emptyDescriptor : Descriptor :=
  {| MediaType := ""; Size := 0; Digest := ""; URLs := [] |}.

(** [manifestItem]. *)
Record manifestItem := {
  Config : string;
  RepoTags : list string;
  Layers : list string;
  Parent : ImageID;
  LayerSources : gmap DiffID Descriptor }.

(** [reference.Named]; it is a [reference.NamedTagged] when it has a tag. *)
Record Named := { Name : string; Tag : option string }.

(** [os.FileInfo], as far as [legacyLoad] reads it. *)
Record FileInfo := { fiName : string; IsDir : bool }.

(** [tar.Header], the fields [loadSquashFS] sets. *)
Record tarHeader := { hdrName : string; hdrMode : Z; hdrSize : Z }.

(** An open file or stream is known by a handle. *)
Definition File := string.

Definition nl : string := String (Ascii.ascii_of_nat 10) EmptyString.

(** ** The parent-link validator *)

Record parentLink := { id : ImageID; parentID : ImageID }.

(** The inner loop of [validatedParentLinks]: [true] when some [p2] of the
    batch makes the outer loop continue. *)
Fixpoint hasParentIn (p : parentLink) (pl : list parentLink) : bool :=
  match pl with
  | [] => false
  | p2 :: rest =>
      if String.eqb (id p2) (parentID p) && negb (String.eqb (id p2) (id p))
      then true
      else hasParentIn p rest
  end.

Definition clearParent (p : parentLink) : parentLink :=
  {| id := id p; parentID := "" |}.

(** The outer loop, at index [i] with [todo] left to visit.  [ret[i]] is in
    range, since every round appends one entry before it writes. *)
Fixpoint validatedParentLinks_loop (pl : list parentLink) (i : nat)
    (todo ret : list parentLink) : list parentLink :=
  match todo with
  | [] => ret
  | p :: todo' =>
      let ret := ret ++ [p] in
      if hasParentIn p pl
      then validatedParentLinks_loop pl (S i) todo' ret
      else validatedParentLinks_loop pl (S i) todo' (alter clearParent i ret)
  end.

Definition validatedParentLinks (pl : list parentLink) : list parentLink :=
  validatedParentLinks_loop pl 0 pl [].

(** What [validatedParentLinks] makes of one link of the batch [pl]. *)
Definition validated (pl : list parentLink) (p : parentLink) : parentLink :=
  if hasParentIn p pl then p else clearParent p.

(** The last loop of [checkValidParent]: an index outside the child's
    history would stop the program; the length test before the loop rules
    it out, and the model answers [false] there. *)
Fixpoint checkValidParent_loop (i : nat) (parentHist imgHist : list History) : bool :=
  match parentHist with
  | [] => true
  | h :: rest =>
      match imgHist !! i with
      | Some h' =>
          if negb (DeepEqual h h') then false
          else checkValidParent_loop (S i) rest imgHist
      | None => false
      end
  end.

Definition checkValidParent (img parent : Image) : bool :=
  if (length (imgHistory img) =? 0) && (length (imgHistory parent) =? 0) then true
  else if negb (Z.of_nat (length (imgHistory img)) - Z.of_nat (length (imgHistory parent)) =? 1)%Z
  then false
  else checkValidParent_loop 0 (imgHistory parent) (imgHistory img).

(** The structural validity of a parent, in the words of the spec: both
    histories empty, or the child's history one longer than the parent's
    and the parent's entries equal to the child's at the same places. *)
Definition validParent (img parent : Image) : Prop :=
  (imgHistory img = [] ∧ imgHistory parent = []) ∨
  (length (imgHistory img) = S (length (imgHistory parent)) ∧
   ∀ i h, imgHistory parent !! i = Some h → imgHistory img !! i = Some h).

(** ** Collaborators, events and the loader monad *)

(** The calls to the stores and to the outside that a load makes, in the
    order it makes them. *)
Inductive event :=
| EvRemoveAll (dir : string)
| EvUntar (content : list byte) (dir : string)
| EvFileWrite (f : File) (content : list byte)
| EvRename (oldpath newpath : string)
| EvWrite (s : string)
| EvLsGet (c : ChainID) (res : ext Layer)
| EvLsRegister (stream : File) (parent : ChainID) (res : ext Layer)
| EvLsRelease (l : Layer)
| EvLsGetCacheID (c : ChainID)
| EvIsCreate (config : string) (res : ext ImageID)
| EvIsGet (i : ImageID)
| EvIsSetParent (i parent : ImageID)
| EvRsAddTag (ref : Named) (dgst : string)
| EvLogImageEvent (i : string).

(** The operations of the collaborators over a world [W].  Decoders and
    formatters are pure; everything else may change the world. *)
Set Implicit Arguments.
Record Collab (W : Type) := {
  (* names fixed by the package *)
  manifestFileName : string;
  legacyLayerFileName : string;
  legacyConfigFileName : string;
  legacyRepositoriesFileName : string;
  (* path, hash, uuid, formats *)
  pathJoin : list string → string;
  sha256hex : list byte → string;
  uuidNew : W → string * W;
  CreateChainID : list DiffID → ChainID;
  FamiliarString : Named → string;
  showLayer : Layer → string;
  (* os, ioutil, archives *)
  TempDir : string → string → W → ext string * W;
  RemoveAll : string → W → W;
  Untar : list byte → string → W → ext unit * W;
  FollowSymlinkInScope : string → string → W → ext string * W;
  osOpen : string → W → ext File * W;
  OpenSequential : string → W → ext File * W;
  osCreate : string → W → ext File * W;
  fileClose : File → W → W;
  fileStat : File → W → ext Z * W;
  fileWrite : File → list byte → W → ext unit * W;
  fileReadAll : File → W → ext (list byte) * W;
  ReadFile : string → W → ext string * W;
  ReadDir : string → W → ext (list FileInfo) * W;
  osRename : string → string → W → W;
  tarWriteHeader : File → tarHeader → W → ext unit * W;
  tarWrite : File → string → W → ext unit * W;
  tarClose : File → W → ext unit * W;
  DecompressStream : File → W → ext File * W;
  (* decoders *)
  decodeManifest : File → W → ext (list manifestItem) * W;
  decodeRepositories : File → W → ext (list (string * list (string * string))) * W;
  NewFromJSON : string → ext Image;
  unmarshalParent : string → ext string;
  HistoryFromConfig : string → bool → ext History;
  MakeConfigFromV1Config : string → RootFS → list History → ext string;
  jsonMarshal : Image → ext string;
  ParseNormalizedNamed : string → ext Named;
  WithTag : Named → string → ext Named;
  (* layer store *)
  isDescribableStore : bool;
  ls_Get : ChainID → W → ext Layer * W;
  ls_Register : File → ChainID → W → ext Layer * W;
  ls_RegisterWithDescriptor : File → ChainID → Descriptor → W → ext Layer * W;
  ls_Release : Layer → W → ext unit * W;
  ls_GetCacheID : ChainID → W → ext string * W;
  ls_DriverStatus : W → list (string * string) * W;
  (* image store *)
  is_Create : string → W → ext ImageID * W;
  is_Get : ImageID → W → ext Image * W;
  is_SetParent : ImageID → ImageID → W → ext unit * W;
  (* reference store *)
  rs_Get : Named → W → ext string * W;
  rs_AddTag : Named → string → bool → W → ext unit * W }.
Unset Implicit Arguments.

Inductive error :=
| ErrExt (e : exterr)
| ErrPeek (e : Bufio.ioerr)
| ErrLayersLengthMismatch (expected actual : nat)
| ErrInvalidDiffID (i : option nat) (expected actual : DiffID)
| ErrInvalidTag (repoTag : string)
| ErrNotValidParent (parent img : ImageID)
| ErrNoRootDir
| ErrInvalidTargetID (oldID : string)
| ErrIndexOutOfRange.

(** How a call ends: it returns nil or a value, it returns an error, or the
    recursion allowance of the model ran out before it returned. *)
Inductive res (A : Type) :=
| Ok (a : A)
| Err (e : error)
| OutOfFuel.
Arguments Ok {A} a.
Arguments Err {A} e.
Arguments OutOfFuel {A}.

(** What a [defer] statement registers. *)
Inductive deferred :=
| DRemoveAll (dir : string)
| DClose (f : File)
| DReleaseAndLog (l : Layer).

Record state (W : Type) := {
  world : W;
  trace : list event;
  defers : list deferred }.
Arguments world {W} s.
Arguments trace {W} s.
Arguments defers {W} s.

Definition M (W A : Type) : Type := state W → res A * state W.

Definition ret {W A} (a : A) : M W A := λ s, (Ok a, s).

Definition fail {W A} (e : error) : M W A := λ s, (Err e, s).

Definition diverge {W A} : M W A := λ s, (OutOfFuel, s).

Definition bind {W A B} (m : M W A) (k : A → M W B) : M W B :=
  λ s, match m s with
       | (Ok a, s') => k a s'
       | (Err e, s') => (Err e, s')
       | (OutOfFuel, s') => (OutOfFuel, s')
       end.

Notation "x <- m ;; k" := (bind m (λ x, k))
  (at level 100, m at next level, right associativity).
Notation "m ;;; k" := (bind m (λ _, k))
  (at level 100, right associativity).

(** [for _, x := range xs], the loop state passed along; an error in the
    body leaves the loop and the function. *)
Fixpoint forM {W X A} (xs : list X) (body : X → A → M W A) (a : A) : M W A :=
  match xs with
  | [] => ret a
  | x :: xs' => a' <- body x a ;; forM xs' body a'
  end.

(** [for i, x := range xs]. *)
Fixpoint forRange {W X A} (i : nat) (xs : list X) (body : nat → X → A → M W A)
    (a : A) : M W A :=
  match xs with
  | [] => ret a
  | x :: xs' => a' <- body i x a ;; forRange (S i) xs' body a'
  end.

(** A call whose returned error the caller drops. *)
Definition ignoreErr {W A} (m : M W A) : M W unit :=
  λ s, match m s with
       | (OutOfFuel, s') => (OutOfFuel, s')
       | (_, s') => (Ok tt, s')
       end.

Definition must {W A} (x : ext A) : M W A :=
  match x with
  | Got a => ret a
  | Failed e => fail (ErrExt e)
  end.

(** A call to a collaborator, with the events it leaves in the trace. *)
Definition perform {W A} (op : W → A * W) (ev : A → list event) : M W A :=
  λ s, let '(a, w) := op (world s) in
       (Ok a, {| world := w; trace := trace s ++ ev a; defers := defers s |}).

Definition exec {W} (op : W → W) (ev : list event) : M W unit :=
  perform (λ w, (tt, op w)) (λ _, ev).

Definition call {W A} (op : W → ext A * W) : M W A :=
  x <- perform op (λ _, []) ;; must x.

Definition defer {W} (d : deferred) : M W unit :=
  λ s, (Ok tt, {| world := world s; trace := trace s; defers := d :: defers s |}).

(** ** The loaders of [image/tarexport] *)

Section Loader.
Context {W : Type} (E : Collab W).

Local Abbreviation M := (M W).

(** Running what was deferred, last registered first. *)
Definition runDeferred (d : deferred) (s : state W) : state W :=
  match d with
  | DRemoveAll dir =>
      {| world := RemoveAll E dir (world s);
         trace := trace s ++ [EvRemoveAll dir]; defers := defers s |}
  | DClose f =>
      {| world := fileClose E f (world s); trace := trace s; defers := defers s |}
  | DReleaseAndLog l =>
      (* layer.ReleaseAndLog: the error of Release is logged, not returned *)
      {| world := snd (ls_Release E l (world s));
         trace := trace s ++ [EvLsRelease l]; defers := defers s |}
  end.

Definition runDefers (ds : list deferred) (s : state W) : state W :=
  foldl (λ s d, runDeferred d s) s ds.

(** The body of a function with [defer] statements: its deferred calls run
    when it returns, with a value or with an error. *)
Definition scope {A} (body : M A) : M A :=
  λ s, match body {| world := world s; trace := trace s; defers := [] |} with
       | (OutOfFuel, s1) => (OutOfFuel, s1)
       | (x, s1) =>
           (x, runDefers (defers s1)
                 {| world := world s1; trace := trace s1; defers := defers s |})
       end.

Definition write (str : string) : M unit := exec (λ w, w) [EvWrite str].

Definition ChainID_of (rfs : RootFS) : ChainID := CreateChainID E (DiffIDs rfs).

Definition lsGet (c : ChainID) : M (ext Layer) :=
  perform (ls_Get E c) (λ x, [EvLsGet c x]).

Definition isCreate (config : string) : M ImageID :=
  x <- perform (is_Create E config) (λ x, [EvIsCreate config x]) ;; must x.

Definition isGet (i : ImageID) : M Image :=
  x <- perform (is_Get E i) (λ _, [EvIsGet i]) ;; must x.

Definition isSetParent (i parent : ImageID) : M unit :=
  x <- perform (is_SetParent E i parent) (λ _, [EvIsSetParent i parent]) ;; must x.

Definition safePath (base path : string) : M string :=
  call (FollowSymlinkInScope E (pathJoin E [base; path]) base).

Definition hashOfFile (path : string) : M string :=
  handle <- call (osOpen E path) ;;
  content <- call (fileReadAll E handle) ;;
  ret (sha256hex E content).

Definition setParentID (i parent_id : ImageID) : M unit :=
  img <- isGet i ;;
  parent <- isGet parent_id ;;
  if negb (checkValidParent img parent)
  then fail (ErrNotValidParent (imgID parent) (imgID img))
  else isSetParent i parent_id.

Definition loadLayer (filename : string) (rootFS : RootFS) (ident : string)
    (foreignSrc : Descriptor) (progressOutput : bool) : M Layer :=
  scope (
    rawTar <- call (OpenSequential E filename) ;;
    defer (DClose rawTar) ;;;
    (if progressOutput then (_ <- call (fileStat E rawTar) ;; ret tt) else ret tt) ;;;
    inflatedLayerData <- call (DecompressStream E rawTar) ;;
    defer (DClose inflatedLayerData) ;;;
    x <- (if isDescribableStore E
          then perform (ls_RegisterWithDescriptor E inflatedLayerData
                          (ChainID_of rootFS) foreignSrc)
                       (λ x, [EvLsRegister inflatedLayerData (ChainID_of rootFS) x])
          else perform (ls_Register E inflatedLayerData (ChainID_of rootFS))
                       (λ x, [EvLsRegister inflatedLayerData (ChainID_of rootFS) x])) ;;
    must x).

Definition setLoadedTag (ref : Named) (imgid : string) : M unit :=
  prev <- perform (rs_Get E ref) (λ _, []) ;;
  (match prev with
   | Got prevID =>
       if negb (String.eqb prevID imgid)
       then write ("The image " +:+ FamiliarString E ref
                   +:+ " already exists, renaming the old one with ID "
                   +:+ prevID +:+ " to empty string" +:+ nl)
       else ret tt
   | Failed _ => ret tt
   end) ;;;
  x <- perform (rs_AddTag E ref imgid true) (λ _, [EvRsAddTag ref imgid]) ;;
  must x.

(** *** The single-blob loader *)

Definition loadSquashFS (inTar : bufferedReadCloser) (tmpDir : string)
    (progressOutput : bool) : M unit :=
  scope (
    status <- perform (ls_DriverStatus E) (λ _, []) ;;
    let root := foldl (λ root val,
                  if String.eqb (fst val) "Root Dir" then snd val else root)
                  "" status in
    if String.eqb root "" then fail ErrNoRootDir else
    u <- perform (uuidNew E) (λ _, []) ;;
    let tmpDestination := pathJoin E [root; "squashfs"; "import-" +:+ u] in
    handle <- call (osCreate E tmpDestination) ;;
    defer (DClose handle) ;;;
    let content := fst (readAll copyBufSize inTar) in
    x <- perform (fileWrite E handle content) (λ _, [EvFileWrite handle content]) ;;
    must x ;;;
    let hash := sha256hex E content in
    let layerPath := pathJoin E [tmpDir; "content.tar"] in
    f <- call (osCreate E layerPath) ;;
    defer (DClose f) ;;;
    forM [("SQUASHFS", hash)] (λ file (_ : unit),
      call (tarWriteHeader E f
              {| hdrName := fst file; hdrMode := 384;
                 hdrSize := Z.of_nat (String.length (snd file)) |}) ;;;
      call (tarWrite E f (snd file))) tt ;;;
    call (tarClose E f) ;;;
    let rootFS := {| Type_ := "layers"; DiffIDs := replicate 1 "" |} in
    hash <- hashOfFile layerPath ;;
    let diffID := "sha256:" +:+ hash in
    write ("diffID:" +:+ diffID +:+ nl) ;;;
    let rfs := RootFS_Append rootFS diffID in
    got <- lsGet (ChainID_of rfs) ;;
    write ("chainID:" +:+ ChainID_of rfs +:+ nl) ;;;
    newLayer <- match got with
                | Got l => ret l
                | Failed _ =>
                    loadLayer layerPath rootFS diffID emptyDescriptor progressOutput
                end ;;
    write ("layer:" +:+ showLayer E newLayer +:+ nl) ;;;
    c <- perform (ls_GetCacheID E diffID) (λ _, [EvLsGetCacheID diffID]) ;;
    cacheID <- must c ;;
    let destination := pathJoin E [root; "squashfs"; cacheID] in
    write ("destination:" +:+ destination +:+ nl) ;;;
    exec (osRename E tmpDestination destination) [EvRename tmpDestination destination] ;;;
    defer (DReleaseAndLog newLayer) ;;;
    if negb (String.eqb diffID (layerDiffID newLayer))
    then fail (ErrInvalidDiffID None diffID (layerDiffID newLayer)) else
    let rootFS := RootFS_Append rootFS diffID in
    let img := {| imgID := ""; imgRootFS := rootFS; imgHistory := [] |} in
    config <- must (jsonMarshal E img) ;;
    imgid <- isCreate config ;;
    let imageIDsStr := "Loaded image ID: " +:+ imgid +:+ nl in
    write imageIDsStr ;;;
    ret tt).

(** *** The manifest loader *)

(** The layer of one position: fetched from the store by the chain id of
    the layers so far and this one, registered from the archive when the
    store does not have it. *)
Definition obtainLayer (m : manifestItem) (progressOutput : bool)
    (layerPath : string) (diffID : DiffID) (rootFS : RootFS) : M Layer :=
  let rfs := RootFS_Append rootFS diffID in
  got <- lsGet (ChainID_of rfs) ;;
  match got with
  | Got l => ret l
  | Failed _ =>
      loadLayer layerPath rootFS diffID
        (default emptyDescriptor (LayerSources m !! diffID))
        progressOutput
  end.

(** One round of the loop over [img.RootFS.DiffIDs]. *)
Definition loadManifestLayer (tmpDir : string) (m : manifestItem)
    (progressOutput : bool) (i : nat) (diffID : DiffID) (rootFS : RootFS) : M RootFS :=
  match Layers m !! i with
  | None => fail ErrIndexOutOfRange
  | Some layerFile =>
      layerPath <- safePath tmpDir layerFile ;;
      newLayer <- obtainLayer m progressOutput layerPath diffID rootFS ;;
      defer (DReleaseAndLog newLayer) ;;;
      if negb (String.eqb diffID (layerDiffID newLayer))
      then fail (ErrInvalidDiffID (Some i) diffID (layerDiffID newLayer))
      else ret (RootFS_Append rootFS diffID)
  end.

(** One round of the loop over [m.RepoTags]. *)
Definition loadManifestTag (imgid : ImageID) (repoTag : string)
    (imageRefCount : nat) : M nat :=
  named <- must (ParseNormalizedNamed E repoTag) ;;
  match Tag named with
  | None => fail (ErrInvalidTag repoTag)
  | Some _ =>
      ignoreErr (setLoadedTag named imgid) ;;;
      write ("Loaded image: " +:+ FamiliarString E named +:+ nl) ;;;
      ret (S imageRefCount)
  end.

(** One round of the loop over the manifest; the loop state is
    [parentLinks], [imageIDsStr] and [imageRefCount]. *)
Definition loadManifestItem (tmpDir : string) (progressOutput : bool)
    (m : manifestItem) (acc : list parentLink * string * nat)
  : M (list parentLink * string * nat) :=
  let '(parentLinks, imageIDsStr, imageRefCount) := acc in
  configPath <- safePath tmpDir (Config m) ;;
  config <- call (ReadFile E configPath) ;;
  img <- must (NewFromJSON E config) ;;
  let rootFS := {| Type_ := Type_ (imgRootFS img); DiffIDs := [] |} in
  if negb (length (Layers m) =? length (DiffIDs (imgRootFS img)))
  then fail (ErrLayersLengthMismatch (length (Layers m))
               (length (DiffIDs (imgRootFS img)))) else
  rootFS <- forRange 0 (DiffIDs (imgRootFS img))
              (loadManifestLayer tmpDir m progressOutput) rootFS ;;
  imgid <- isCreate config ;;
  let imageIDsStr := imageIDsStr +:+ ("Loaded image ID: " +:+ imgid +:+ nl) in
  let imageRefCount := 0 in
  imageRefCount <- forM (RepoTags m) (loadManifestTag imgid) imageRefCount ;;
  let parentLinks := parentLinks ++ [{| id := imgid; parentID := Parent m |}] in
  exec (λ w, w) [EvLogImageEvent imgid] ;;;
  ret (parentLinks, imageIDsStr, imageRefCount).

(** [Load] from the decoded manifest on. *)
Definition loadManifest (tmpDir : string) (progressOutput : bool)
    (manifest : list manifestItem) : M unit :=
  acc <- forM manifest (loadManifestItem tmpDir progressOutput) ([], "", 0) ;;
  let '(parentLinks, imageIDsStr, imageRefCount) := acc in
  forM (validatedParentLinks parentLinks) (λ p (_ : unit),
    if negb (String.eqb (parentID p) "")
    then setParentID (id p) (parentID p)
    else ret tt) tt ;;;
  (if imageRefCount =? 0 then write imageIDsStr else ret tt) ;;;
  ret tt.

(** *** The legacy loader *)

(** The body of [legacyLoadImage]; [resolveParent] stands for the [for]
    loop that looks the parent up in the map and calls [legacyLoadImage]
    on it until it is there.  The map is passed along and returned, as
    the Go map is shared by all calls. *)
Definition legacyLoadImage_body
    (resolveParent : string → gmap string ImageID → M (ImageID * gmap string ImageID))
    (oldID sourceDir : string) (loadedMap : gmap string ImageID)
    (progressOutput : bool) : M (gmap string ImageID) :=
  match loadedMap !! oldID with
  | Some _ => ret loadedMap
  | None =>
      configPath <- safePath sourceDir (pathJoin E [oldID; legacyConfigFileName E]) ;;
      imageJSON <- call (ReadFile E configPath) ;;
      imgParent <- must (unmarshalParent E imageJSON) ;;
      pm <- (if negb (String.eqb imgParent "")
             then resolveParent imgParent loadedMap
             else ret ("", loadedMap)) ;;
      let '(parent_id, loadedMap) := pm in
      rh <- (if negb (String.eqb parent_id "")
             then parentImg <- isGet parent_id ;;
                  ret (imgRootFS parentImg, imgHistory parentImg)
             else ret (NewRootFS, [])) ;;
      let '(rootFS, history) := rh in
      layerPath <- safePath sourceDir (pathJoin E [oldID; legacyLayerFileName E]) ;;
      newLayer <- loadLayer layerPath rootFS oldID emptyDescriptor progressOutput ;;
      let rootFS := RootFS_Append rootFS (layerDiffID newLayer) in
      h <- must (HistoryFromConfig E imageJSON false) ;;
      let history := history ++ [h] in
      config <- must (MakeConfigFromV1Config E imageJSON rootFS history) ;;
      imgid <- isCreate config ;;
      x <- perform (ls_Release E newLayer) (λ _, [EvLsRelease newLayer]) ;;
      must x ;;;
      (if negb (String.eqb parent_id "")
       then isSetParent imgid parent_id
       else ret tt) ;;;
      ret (<[oldID := imgid]> loadedMap)
  end.

(** [legacyLoadImage] and its parent loop; [fuel] bounds the depth of the
    calls. *)
Fixpoint legacyLoadImage (fuel : nat) (oldID sourceDir : string)
    (loadedMap : gmap string ImageID) (progressOutput : bool) {struct fuel}
  : M (gmap string ImageID) :=
  match fuel with
  | 0 => diverge
  | S fuel' =>
      legacyLoadImage_body
        (λ parent loadedMap,
           legacyLoadImage_parent fuel' parent sourceDir loadedMap progressOutput)
        oldID sourceDir loadedMap progressOutput
  end
with legacyLoadImage_parent (fuel : nat) (parent sourceDir : string)
    (loadedMap : gmap string ImageID) (progressOutput : bool) {struct fuel}
  : M (ImageID * gmap string ImageID) :=
  match fuel with
  | 0 => diverge
  | S fuel' =>
      match loadedMap !! parent with
      | Some parent_id => ret (parent_id, loadedMap)
      | None =>
          loadedMap <- legacyLoadImage fuel' parent sourceDir loadedMap progressOutput ;;
          legacyLoadImage_parent fuel' parent sourceDir loadedMap progressOutput
      end
  end.

Definition legacyLoad (fuel : nat) (tmpDir : string) (progressOutput : bool) : M unit :=
  scope (
    dirs <- call (ReadDir E tmpDir) ;;
    legacyLoadedMap <- forM dirs (λ d loadedMap,
      if IsDir d
      then legacyLoadImage fuel (fiName d) tmpDir loadedMap progressOutput
      else ret loadedMap) ∅ ;;
    repositoriesPath <- safePath tmpDir (legacyRepositoriesFileName E) ;;
    repositoriesFile <- call (osOpen E repositoriesPath) ;;
    defer (DClose repositoriesFile) ;;;
    repositories <- call (decodeRepositories E repositoriesFile) ;;
    forM repositories (λ entry (_ : unit),
      forM (snd entry) (λ tagged (_ : unit),
        match legacyLoadedMap !! snd tagged with
        | None => fail (ErrInvalidTargetID (snd tagged))
        | Some imgid =>
            named <- must (ParseNormalizedNamed E (fst entry)) ;;
            ref <- must (WithTag E named (fst tagged)) ;;
            ignoreErr (setLoadedTag ref imgid)
        end) tt) tt).

(** *** [Load] *)

(** [Load] from the unpacking of a structured archive on. *)
Definition loadArchive (fuel : nat) (reader : bufferedReadCloser) (tmpDir : string)
    (progressOutput : bool) : M unit :=
  let content := fst (readAll copyBufSize reader) in
  x <- perform (Untar E content tmpDir) (λ _, [EvUntar content tmpDir]) ;;
  must x ;;;
  manifestPath <- safePath tmpDir (manifestFileName E) ;;
  opened <- perform (osOpen E manifestPath) (λ _, []) ;;
  match opened with
  | Failed err =>
      if IsNotExist err
      then legacyLoad fuel tmpDir progressOutput
      else fail (ErrExt err)
  | Got manifestFile =>
      defer (DClose manifestFile) ;;;
      manifest <- call (decodeManifest E manifestFile) ;;
      loadManifest tmpDir progressOutput manifest
  end.

Definition Load (fuel : nat) (inTar : Bufio.Source) (quiet : bool) : M unit :=
  scope (
    let progressOutput := negb quiet in
    tmpDir <- call (TempDir E "" "docker-import-") ;;
    defer (DRemoveAll tmpDir) ;;;
    let reader := {| r := Bufio.NewReader inTar |} in
    let '(b, err, reader) := bufferedReadCloser_Peek reader 4 in
    match err with
    | Some e => fail (ErrPeek e)
    | None =>
        if bytes_eqb b squashfsMagic
        then loadSquashFS reader tmpDir progressOutput
        else loadArchive fuel reader tmpDir progressOutput
    end).

End Loader.

(** ** Notions for the statements *)

(** [emits P m]: whatever [m] does, it only adds events that satisfy [P]
    to the trace. *)
Definition emits {W A} (P : event → Prop) (m : M W A) : Prop :=
  ∀ s x s', m s = (x, s') → ∃ evs, trace s' = trace s ++ evs ∧ Forall P evs.

(** [adds P t1 t2]: the trace [t2] is [t1] and then events that satisfy
    [P]. *)
Definition adds (P : event → Prop) (t1 t2 : list event) : Prop :=
  ∃ evs, t2 = t1 ++ evs ∧ Forall P evs.

Definition notCreate (e : event) : Prop :=
  match e with EvIsCreate _ _ => False | _ => True end.

Definition notSetParent (e : event) : Prop :=
  match e with EvIsSetParent _ _ => False | _ => True end.

(** [total m]: [m] returns in every state. *)
Definition total {W A} (m : M W A) : Prop := ∀ s, (m s).1 ≠ OutOfFuel.

(** [agrees m1 m2]: whenever [m1] returns, [m2] returns the same. *)
Definition agrees {W A} (m1 m2 : M W A) : Prop :=
  ∀ s x s', m1 s = (x, s') → x ≠ OutOfFuel → m2 s = (x, s').

(** The config of [oldID] can be read, and names [p] as its parent. *)
Definition readsParent {W} (E : Collab W) (sourceDir oldID p : string) : Prop :=
  ∃ s s1 s2 configPath imageJSON,
    safePath E sourceDir (pathJoin E [oldID; legacyConfigFileName E]) s
      = (Ok configPath, s1) ∧
    call (ReadFile E configPath) s1 = (Ok imageJSON, s2) ∧
    unmarshalParent E imageJSON = Got p.

(** The layers of which a trace takes a reference (a lookup or a
    registration that succeeded), and those it gives back. *)
Definition acquired (evs : list event) : list Layer :=
  omap (λ ev, match ev with
              | EvLsGet _ (Got l) => Some l
              | EvLsRegister _ _ (Got l) => Some l
              | _ => None
              end) evs.

Definition released (evs : list event) : list Layer :=
  omap (λ ev, match ev with EvLsRelease l => Some l | _ => None end) evs.

(** The layers that a deferred stack will release when it runs. *)
Definition toRelease (ds : list deferred) : list Layer :=
  omap (λ d, match d with DReleaseAndLog l => Some l | _ => None end) ds.

(** The ids of the images that a trace creates. *)
Definition created (evs : list event) : list ImageID :=
  omap (λ ev, match ev with EvIsCreate _ (Got i) => Some i | _ => None end) evs.

(** An event that neither takes nor gives back a layer reference. *)
Definition holdsNothing (ev : event) : Prop :=
  acquired [ev] = [] ∧ released [ev] = [].

(** [keeps m]: when [m] returns, the deferred stack is as it found it. *)
Definition keeps {W A} (m : M W A) : Prop :=
  ∀ s x s', m s = (x, s') → x ≠ OutOfFuel → defers s' = defers s.

(** [extends m]: when [m] returns, it has only pushed on the deferred
    stack. *)
Definition extends {W A} (m : M W A) : Prop :=
  ∀ s x s', m s = (x, s') → x ≠ OutOfFuel → ∃ ds, defers s' = ds ++ defers s.

(** [balanced m]: when [m] returns, every layer reference it took has been
    given back or is on the deferred stack to be released. *)
Definition balanced {W A} (m : M W A) : Prop :=
  ∀ s x s', m s = (x, s') → x ≠ OutOfFuel →
    ∃ evs ds, trace s' = trace s ++ evs ∧ defers s' = ds ++ defers s ∧
              acquired evs ≡ₚ released evs ++ toRelease ds.

(** An event that takes or gives back no layer reference, creates no
    image and sets no parent. *)
Definition still (e : event) : Prop :=
  holdsNothing e ∧ notCreate e ∧ notSetParent e.

(** [legacyStep lm lm' s s']: from the map [lm] and the state [s] to the
    map [lm'] and the state [s'], as a part of the legacy loader that
    returned nil leaves them: the deferred stack is as before, the map has
    only grown, every layer reference taken was given back, every image id
    that the map gained was created on the way, and every parent was set
    for an image created on the way, to an image created on the way or
    known to the map before. *)
Definition legacyStep {W} (lm lm' : gmap string ImageID) (s s' : state W) : Prop :=
  ∃ evs, trace s' = trace s ++ evs ∧ defers s' = defers s ∧ lm ⊆ lm' ∧
    acquired evs = released evs ∧
    (∀ k i, lm' !! k = Some i → lm !! k = Some i ∨ i ∈ created evs) ∧
    (∀ c p, EvIsSetParent c p ∈ evs →
       c ∈ created evs ∧ (p ∈ created evs ∨ ∃ k, lm !! k = Some p)).

(** [holding m]: when [m] returns it has given back no layer reference,
    and the references it took are on the deferred stack to be released,
    the last one taken on top. *)
Definition holding {W A} (m : M W A) : Prop :=
  ∀ s x s', m s = (x, s') → x ≠ OutOfFuel →
    ∃ evs, trace s' = trace s ++ evs ∧ released evs = [] ∧
           defers s' = map DReleaseAndLog (reverse (acquired evs)) ++ defers s.

(** [raises P m]: an error that [m] returns satisfies [P]. *)
Definition raises {W A} (P : error → Prop) (m : M W A) : Prop :=
  ∀ s e s', m s = (Err e, s') → P e.

(** An error other than the one that stands for an index out of range,
    where the Go program would stop with a panic. *)
Definition inRange (e : error) : Prop := e ≠ ErrIndexOutOfRange.

(** ** [squashfsMount] of the aufs driver *)

Module Aufs.

(** [strings.Contains]. *)
Fixpoint Contains (s substr : string) : bool :=
  String.prefix substr s ||
  match s with
  | EmptyString => false
  | String _ s' => Contains s' substr
  end.

(** The operating system as the driver uses it: [os.Stat], and
    [exec.Command(argv...).Output()]. *)
Record OS (W : Type) := {
  pathJoin : list string → string;
  Stat : string → W → ext unit * W;
  Output : list string → W → ext string * W }.
Arguments pathJoin {W} o.
Arguments Stat {W} o.
Arguments Output {W} o.

(** The driver; [rootPath] returns its root. *)
Record Driver := { root : string }.

Definition rootPath (a : Driver) : string := root a.

(** A run: the world, and the commands run so far. *)
Record run (W : Type) := { os_world : W; commands : list (list string) }.
Arguments os_world {W} r.
Arguments commands {W} r.

Definition command {W} (o : OS W) (argv : list string) (st : run W)
  : ext string * run W :=
  let '(x, w) := Output o argv (os_world st) in
  (x, {| os_world := w; commands := commands st ++ [argv] |}).

(** The result is the returned error, [None] for nil. *)
Definition squashfsMount {W} (o : OS W) (a : Driver) (name : string) (st : run W)
  : option exterr * run W :=
  let source := pathJoin o [rootPath a; "squashfs"; name] in
  let layer := pathJoin o [rootPath a; "diff"; name] in
  let '(statted, w) := Stat o source (os_world st) in
  let st := {| os_world := w; commands := commands st |} in
  match statted with
  | Got _ =>
      match command o ["mount"] st with
      | (Failed err, st) => (Some err, st)
      | (Got out, st) =>
          if negb (Contains out layer) then
            match command o ["mount"; "-t"; "squashfs"; source; layer] st with
            | (Failed err, st) => (Some err, st)
            | (Got _, st) => (None, st)
            end
          else (None, st)
      end
  | Failed _ => (None, st)
  end.

Definition mountSquashfs (source layer : string) : list string :=
  ["mount"; "-t"; "squashfs"; source; layer].

(** A small operating system to run the driver on: the files that exist
    and the mount table, one line per mount. *)
Record simWorld := { simFiles : list string; simMounts : list (string * string) }.

Definition simLine (m : string * string) : string :=
  fst m +:+ " on " +:+ snd m +:+ " type squashfs (ro)" +:+ nl.

(** The output of [mount]: one line per mount. *)
Definition listing (mounts : list (string * string)) : string :=
  foldr (λ m out, simLine m +:+ out) "" mounts.

Definition simOutput (argv : list string) (w : simWorld) : ext string * simWorld :=
  match argv with
  | ["mount"] => (Got (listing (simMounts w)), w)
  | ["mount"; "-t"; "squashfs"; source; layer] =>
      (Got "", {| simFiles := simFiles w; simMounts := simMounts w ++ [(source, layer)] |})
  | _ => (Failed (EOther "unknown command"), w)
  end.

Definition simOS : OS simWorld :=
  {| pathJoin := λ parts, foldr (λ p acc, "/" +:+ p +:+ acc) "" parts;
     Stat := λ path w,
       (if bool_decide (path ∈ simFiles w) then Got tt else Failed (ENotExist path), w);
     Output := simOutput |}.

End Aufs.

(** ** An in-memory engine to run the loaders on *)

Module Sim.

Fixpoint assoc {A} (k : string) (l : list (string * A)) : option A :=
  match l with
  | [] => None
  | (k', a) :: rest => if String.eqb k k' then Some a else assoc k rest
  end.

(** What an archive holds once unpacked, and how its documents decode. *)
Record Fixture := {
  fxFiles : list (string * string);
  fxDirs : list FileInfo;
  fxManifest : option (list manifestItem);
  fxImages : list (string * Image);
  fxParents : list (string * string);
  fxBadHistory : list string;
  fxRepositories : list (string * list (string * string));
  fxStatus : list (string * string) }.

(** The stores of the engine. *)
Record World := {
  wLayers : list (string * Layer);
  wHeld : list Layer;
  wImages : list (string * string);
  wParents : list (string * string);
  wTags : list (string * string);
  wRenamed : list (string * string) }.

Definition emptyWorld : World :=
  {| wLayers := []; wHeld := []; wImages := []; wParents := [];
     wTags := []; wRenamed := [] |}.

Definition join (parts : list string) : string := String.concat "/" parts.

Definition openFile (fx : Fixture) (path : string) (w : World) : ext File * World :=
  match assoc path (fxFiles fx) with
  | Some _ => (Got path, w)
  | None => (Failed (ENotExist path), w)
  end.

Definition readFile (fx : Fixture) (path : string) (w : World) : ext string * World :=
  match assoc path (fxFiles fx) with
  | Some content => (Got content, w)
  | None => (Failed (ENotExist path), w)
  end.

Definition decodeImage (fx : Fixture) (config : string) : ext Image :=
  match assoc config (fxImages fx) with
  | Some img => Got img
  | None => Failed (EOther "invalid image JSON")
  end.

Definition register (fx : Fixture) (stream : File) (parent : ChainID) (w : World)
  : ext Layer * World :=
  match assoc stream (fxFiles fx) with
  | None => (Failed (EOther "unreadable layer"), w)
  | Some content =>
      let d := "sha256:" +:+ content in
      let l := {| layerChainID := if String.eqb parent "" then d else parent +:+ "+" +:+ d;
                  layerDiffID := d |} in
      (Got l, {| wLayers := (layerChainID l, l) :: wLayers w; wHeld := l :: wHeld w;
                 wImages := wImages w; wParents := wParents w; wTags := wTags w;
                 wRenamed := wRenamed w |})
  end.

Definition getLayer (c : ChainID) (w : World) : ext Layer * World :=
  match assoc c (wLayers w) with
  | None => (Failed (EOther "layer does not exist"), w)
  | Some l =>
      (Got l, {| wLayers := wLayers w; wHeld := l :: wHeld w;
                 wImages := wImages w; wParents := wParents w; wTags := wTags w;
                 wRenamed := wRenamed w |})
  end.

Definition createImage (config : string) (w : World) : ext ImageID * World :=
  let i := "img:" +:+ config in
  (Got i, {| wLayers := wLayers w; wHeld := wHeld w;
             wImages := (i, config) :: wImages w; wParents := wParents w;
             wTags := wTags w; wRenamed := wRenamed w |}).

Definition getImage (fx : Fixture) (i : ImageID) (w : World) : ext Image * World :=
  match assoc i (wImages w) with
  | None => (Failed (EOther "no such image"), w)
  | Some config =>
      match assoc config (fxImages fx) with
      | Some img =>
          (Got {| imgID := i; imgRootFS := imgRootFS img; imgHistory := imgHistory img |}, w)
      | None => (Got {| imgID := i; imgRootFS := NewRootFS; imgHistory := [] |}, w)
      end
  end.

Definition collab (fx : Fixture) : Collab World :=
  {| manifestFileName := "manifest.json";
     legacyLayerFileName := "layer.tar";
     legacyConfigFileName := "json";
     legacyRepositoriesFileName := "repositories";
     pathJoin := join;
     sha256hex := String.string_of_list_byte;
     uuidNew := λ w, ("0000", w);
     CreateChainID := λ ds, String.concat "+" (filter (λ d, d ≠ "") ds);
     FamiliarString := λ n, Name n +:+ ":" +:+ default "" (Tag n);
     showLayer := λ l, layerChainID l;
     TempDir := λ _ pfx w, (Got ("/" +:+ pfx +:+ "1"), w);
     RemoveAll := λ _ w, w;
     Untar := λ _ _ w, (Got tt, w);
     FollowSymlinkInScope := λ path _ w, (Got path, w);
     osOpen := openFile fx;
     OpenSequential := openFile fx;
     osCreate := λ path w, (Got path, w);
     fileClose := λ _ w, w;
     fileStat := λ _ w, (Got 0%Z, w);
     fileWrite := λ _ _ w, (Got tt, w);
     fileReadAll := λ f w,
       (Got (String.list_byte_of_string (default "" (assoc f (fxFiles fx)))), w);
     ReadFile := readFile fx;
     ReadDir := λ _ w, (Got (fxDirs fx), w);
     osRename := λ a b w,
       {| wLayers := wLayers w; wHeld := wHeld w; wImages := wImages w;
          wParents := wParents w; wTags := wTags w;
          wRenamed := (a, b) :: wRenamed w |};
     tarWriteHeader := λ _ _ w, (Got tt, w);
     tarWrite := λ _ _ w, (Got tt, w);
     tarClose := λ _ w, (Got tt, w);
     DecompressStream := λ f w, (Got f, w);
     decodeManifest := λ _ w,
       (match fxManifest fx with
        | Some m => Got m
        | None => Failed (EOther "invalid manifest")
        end, w);
     decodeRepositories := λ _ w, (Got (fxRepositories fx), w);
     NewFromJSON := decodeImage fx;
     unmarshalParent := λ json,
       match assoc json (fxParents fx) with
       | Some p => Got p
       | None => Got ""
       end;
     HistoryFromConfig := λ json _,
       if bool_decide (json ∈ fxBadHistory fx)
       then Failed (EOther "parsing time")
       else Got {| Created := ""; Author := ""; CreatedBy := json;
                   Comment := ""; EmptyLayer := false |};
     MakeConfigFromV1Config := λ json _ _, Got ("v1:" +:+ json);
     jsonMarshal := λ img, Got (String.concat "," (DiffIDs (imgRootFS img)));
     ParseNormalizedNamed := λ str,
       match String.index 0 ":" str with
       | Some n =>
           Got {| Name := String.substring 0 n str;
                  Tag := Some (String.substring (S n) (String.length str - S n) str) |}
       | None => Got {| Name := str; Tag := None |}
       end;
     WithTag := λ n t, Got {| Name := Name n; Tag := Some t |};
     isDescribableStore := false;
     ls_Get := getLayer;
     ls_Register := register fx;
     ls_RegisterWithDescriptor := λ f c _, register fx f c;
     ls_Release := λ l w,
       (Got tt, {| wLayers := wLayers w;
                   wHeld := list_difference (wHeld w) [l];
                   wImages := wImages w; wParents := wParents w; wTags := wTags w;
                   wRenamed := wRenamed w |});
     ls_GetCacheID := λ c w,
       (match assoc c (wLayers w) with
        | Some _ => Got ("cache-" +:+ c)
        | None => Failed (EOther "layer does not exist")
        end, w);
     ls_DriverStatus := λ w, (fxStatus fx, w);
     is_Create := createImage;
     is_Get := getImage fx;
     is_SetParent := λ i p w,
       (Got tt, {| wLayers := wLayers w; wHeld := wHeld w; wImages := wImages w;
                   wParents := (i, p) :: wParents w; wTags := wTags w;
                   wRenamed := wRenamed w |});
     rs_Get := λ ref w,
       (match assoc (Name ref +:+ ":" +:+ default "" (Tag ref)) (wTags w) with
        | Some d => Got d
        | None => Failed (EOther "reference does not exist")
        end, w);
     rs_AddTag := λ ref d _ w,
       (Got tt, {| wLayers := wLayers w; wHeld := wHeld w; wImages := wImages w;
                   wParents := wParents w;
                   wTags := (Name ref +:+ ":" +:+ default "" (Tag ref), d) :: wTags w;
                   wRenamed := wRenamed w |}) |}.

Definition start : state World :=
  {| world := emptyWorld; trace := []; defers := [] |}.

Definition stream (bs : list byte) : Bufio.Source :=
  {| Bufio.remaining := bs; Bufio.chunk := 2 |}.

End Sim.

(** ** Archives and streams the engine is run on *)

Module Fixtures.
Import Sim.

Definition dir : string := "/docker-import-1".

Definition noLayers : Image :=
  {| imgID := ""; imgRootFS := {| Type_ := "layers"; DiffIDs := [] |};
     imgHistory := [] |}.

(** A manifest archive of two images without layers: the first tagged
    [busybox:latest], the second without a tag. *)
Definition taggedThenUntagged : list manifestItem :=
  [ {| Config := "a.json"; RepoTags := ["busybox:latest"]; Layers := [];
       Parent := ""; LayerSources := ∅ |};
    {| Config := "b.json"; RepoTags := []; Layers := [];
       Parent := ""; LayerSources := ∅ |} ].

Definition fxTagged : Fixture :=
  {| fxFiles := [("/docker-import-1/manifest.json", "");
                 ("/docker-import-1/a.json", "cfgA");
                 ("/docker-import-1/b.json", "cfgB")];
     fxDirs := [];
     fxManifest := Some taggedThenUntagged;
     fxImages := [("cfgA", noLayers); ("cfgB", noLayers)];
     fxParents := []; fxBadHistory := []; fxRepositories := []; fxStatus := [] |}.

(** Some tar stream: its first bytes are not the squashfs magic. *)
Definition tarStream : Bufio.Source :=
  stream [x6d; x61; x6e; x69; x66; x65; x73; x74].

(** A squashfs image: the magic and two more bytes.  [content.tar] is the
    one-entry archive that the loader writes. *)
Definition squashStream : Bufio.Source :=
  stream [x68; x73; x71; x73; x00; x01].

Definition fxSquash : Fixture :=
  {| fxFiles := [("/docker-import-1/content.tar", "SQUASHFS")];
     fxDirs := []; fxManifest := None; fxImages := []; fxParents := [];
     fxBadHistory := []; fxRepositories := [];
     fxStatus := [("Root Dir", "/var/lib/docker/aufs")] |}.

(** A stream of three bytes. *)
Definition shortStream : Bufio.Source := stream [x68; x73; x71].

Definition fxNone : Fixture :=
  {| fxFiles := []; fxDirs := []; fxManifest := None; fxImages := [];
     fxParents := []; fxBadHistory := []; fxRepositories := []; fxStatus := [] |}.

(** A legacy archive of one image whose config does not yield a history
    entry (its creation time does not parse). *)
Definition fxBadHistoryArchive : Fixture :=
  {| fxFiles := [("/docker-import-1/a/json", "jsonA");
                 ("/docker-import-1/a/layer.tar", "tarA");
                 ("/docker-import-1/repositories", "")];
     fxDirs := [ {| fiName := "a"; IsDir := true |} ];
     fxManifest := None; fxImages := []; fxParents := [];
     fxBadHistory := ["jsonA"]; fxRepositories := []; fxStatus := [] |}.

(** A legacy archive of one image whose config names the image itself as
    its parent. *)
Definition fxCycle : Fixture :=
  {| fxFiles := [("/docker-import-1/a/json", "jsonA");
                 ("/docker-import-1/a/layer.tar", "tarA");
                 ("/docker-import-1/repositories", "")];
     fxDirs := [ {| fiName := "a"; IsDir := true |} ];
     fxManifest := None; fxImages := []; fxParents := [("jsonA", "a")];
     fxBadHistory := []; fxRepositories := []; fxStatus := [] |}.

(** A legacy archive of three images: a on b, b on c, c a root. *)
Definition fxChain : Fixture :=
  {| fxFiles := [("/docker-import-1/a/json", "jsonA");
                 ("/docker-import-1/a/layer.tar", "tarA");
                 ("/docker-import-1/b/json", "jsonB");
                 ("/docker-import-1/b/layer.tar", "tarB");
                 ("/docker-import-1/c/json", "jsonC");
                 ("/docker-import-1/c/layer.tar", "tarC");
                 ("/docker-import-1/repositories", "")];
     fxDirs := [ {| fiName := "a"; IsDir := true |};
                 {| fiName := "b"; IsDir := true |};
                 {| fiName := "c"; IsDir := true |} ];
     fxManifest := None; fxImages := [];
     fxParents := [("jsonA", "b"); ("jsonB", "c")];
     fxBadHistory := []; fxRepositories := []; fxStatus := [] |}.

Definition chainRank (oldID : string) : nat :=
  match assoc (join [dir; join [oldID; "json"]]) (fxFiles fxChain) with
  | Some json =>
      if String.eqb json "jsonA" then 2
      else if String.eqb json "jsonB" then 1 else 0
  | None => 0
  end.

(** A manifest archive of one image with one layer: the config claims the
    DiffID [sha256:good], the layer file holds other content. *)
Definition oneLayer : manifestItem :=
  {| Config := "a.json"; RepoTags := []; Layers := ["l1.tar"];
     Parent := ""; LayerSources := ∅ |}.

Definition claimsGood : Image :=
  {| imgID := "";
     imgRootFS := {| Type_ := "layers"; DiffIDs := ["sha256:good"] |};
     imgHistory := [] |}.

Definition fxMismatch : Fixture :=
  {| fxFiles := [("/docker-import-1/manifest.json", "");
                 ("/docker-import-1/a.json", "cfgA");
                 ("/docker-import-1/l1.tar", "evil")];
     fxDirs := [];
     fxManifest := Some [oneLayer];
     fxImages := [("cfgA", claimsGood)];
     fxParents := []; fxBadHistory := []; fxRepositories := []; fxStatus := [] |}.

Definition evilLayer : Layer :=
  {| layerChainID := "sha256:evil"; layerDiffID := "sha256:evil" |}.

(** A store that already has the layer [sha256:good]. *)
Definition goodLayer : Layer :=
  {| layerChainID := "sha256:good"; layerDiffID := "sha256:good" |}.

Definition hasGood : state World :=
  {| world := {| wLayers := [("sha256:good", goodLayer)]; wHeld := [];
                 wImages := []; wParents := []; wTags := []; wRenamed := [] |};
     trace := []; defers := [] |}.

(** An image store with a child of one history entry and its parent
    without history. *)
Definition entry : History :=
  {| Created := ""; Author := ""; CreatedBy := "RUN true"; Comment := "";
     EmptyLayer := false |}.

Definition child : Image :=
  {| imgID := ""; imgRootFS := NewRootFS; imgHistory := [entry] |}.

Definition fxFamily : Fixture :=
  {| fxFiles := []; fxDirs := []; fxManifest := None;
     fxImages := [("cfgChild", child); ("cfgParent", noLayers)];
     fxParents := []; fxBadHistory := []; fxRepositories := []; fxStatus := [] |}.

Definition family : state World :=
  {| world := {| wLayers := []; wHeld := [];
                 wImages := [("img:cfgChild", "cfgChild");
                             ("img:cfgParent", "cfgParent")];
                 wParents := []; wTags := []; wRenamed := [] |};
     trace := []; defers := [] |}.

(** An aufs root with the squashfs file of layer [l1], already mounted. *)
Definition aufsRoot : Aufs.Driver := {| Aufs.root := "var" |}.

Definition mounted : Aufs.run Aufs.simWorld :=
  {| Aufs.os_world :=
       {| Aufs.simFiles := ["/var/squashfs/l1"];
          Aufs.simMounts := [("/var/squashfs/l1", "/var/diff/l1")] |};
     Aufs.commands := [] |}.

(** The same root where only the layer [l10] is mounted, and the squashfs
    file of layer [l1] is there. *)
Definition mountedBeside : Aufs.run Aufs.simWorld :=
  {| Aufs.os_world :=
       {| Aufs.simFiles := ["/var/squashfs/l1"];
          Aufs.simMounts := [("/var/squashfs/l10", "/var/diff/l10")] |};
     Aufs.commands := [] |}.

(** An operating system where every file is there and every command
    fails. *)
Definition failingOS : Aufs.OS unit :=
  {| Aufs.pathJoin := String.concat "/";
     Aufs.Stat := λ _ w, (Got tt, w);
     Aufs.Output := λ _ w, (Failed (EOther "exit status 32"), w) |}.

(** A manifest archive of one image with one layer whose content is the
    one that the config claims. *)
Definition fxMatch : Fixture :=
  {| fxFiles := [("/docker-import-1/manifest.json", "");
                 ("/docker-import-1/a.json", "cfgA");
                 ("/docker-import-1/l1.tar", "good")];
     fxDirs := [];
     fxManifest := Some [oneLayer];
     fxImages := [("cfgA", claimsGood)];
     fxParents := []; fxBadHistory := []; fxRepositories := []; fxStatus := [] |}.

(** A manifest archive of two images, the first with the second as its
    parent. *)
Definition withParent : list manifestItem :=
  [ {| Config := "child.json"; RepoTags := []; Layers := [];
       Parent := "img:cfgParent"; LayerSources := ∅ |};
    {| Config := "parent.json"; RepoTags := []; Layers := [];
       Parent := ""; LayerSources := ∅ |} ].

Definition fxWithParent : Fixture :=
  {| fxFiles := [("/docker-import-1/manifest.json", "");
                 ("/docker-import-1/child.json", "cfgChild");
                 ("/docker-import-1/parent.json", "cfgParent")];
     fxDirs := [];
     fxManifest := Some withParent;
     fxImages := [("cfgChild", child); ("cfgParent", noLayers)];
     fxParents := []; fxBadHistory := []; fxRepositories := []; fxStatus := [] |}.

(** A legacy archive of one image, with a repositories file whose tag
    names an id that has no directory. *)
Definition fxDangling : Fixture :=
  {| fxFiles := [("/docker-import-1/a/json", "jsonA");
                 ("/docker-import-1/a/layer.tar", "tarA");
                 ("/docker-import-1/repositories", "")];
     fxDirs := [ {| fiName := "a"; IsDir := true |} ];
     fxManifest := None; fxImages := []; fxParents := [];
     fxBadHistory := [];
     fxRepositories := [("busybox", [("latest", "zzz")])];
     fxStatus := [] |}.

End Fixtures.

(** * Properties *)

(** ** The parent-link validator *)

Lemma hasParentIn_spec (p : parentLink) (pl : list parentLink) :
  hasParentIn p pl = true ↔
  ∃ p2, p2 ∈ pl ∧ id p2 = parentID p ∧ id p2 ≠ id p.
Proof.
  induction pl as [|q pl IH]; simpl.
  - split; [done|]. intros (p2 & Hin & _). by apply elem_of_nil in Hin.
  - destruct (String.eqb_spec (id q) (parentID p)) as [E1|E1];
      destruct (String.eqb_spec (id q) (id p)) as [E2|E2]; simpl;
      [rewrite IH | | rewrite IH | rewrite IH].
    2: { split; [|done]. intros _. exists q. split; [by left|done]. }
    all: split;
      [ intros (p2 & Hin & H1 & H2); exists p2; split; [by right|done]
      | intros (p2 & Hin & H1 & H2); apply elem_of_cons in Hin as [->|Hin];
        [done | by exists p2] ].
Qed.

Lemma validatedParentLinks_loop_map (pl todo ret : list parentLink) :
  validatedParentLinks_loop pl (length ret) todo ret = ret ++ map (validated pl) todo.
Proof.
  revert ret. induction todo as [|p todo IH]; intros ret; simpl.
  - by rewrite app_nil_r.
  - assert (Hlen : S (length ret) = length (ret ++ [p]))
      by (rewrite length_app; simpl; lia).
    unfold validated at 1. destruct (hasParentIn p pl).
    + rewrite Hlen, IH, <- app_assoc. done.
    + assert (Halt : alter clearParent (length ret) (ret ++ [p]) = ret ++ [clearParent p]).
      { rewrite alter_app_r_alt by lia. by rewrite Nat.sub_diag. }
      rewrite Halt.
      assert (Hlen' : S (length ret) = length (ret ++ [clearParent p]))
        by (rewrite length_app; simpl; lia).
      rewrite Hlen', IH, <- app_assoc. done.
Qed.

Lemma validatedParentLinks_map (pl : list parentLink) :
  validatedParentLinks pl = map (validated pl) pl.
Proof. apply (validatedParentLinks_loop_map pl pl []). Qed.

(** C2: [validatedParentLinks] keeps the length, the order and the ids of
    the batch; a link keeps its parent when another link of the batch, with
    a different id, has that parent as its id, and loses it otherwise.  The
    batch A→B, B, C→Z with Z absent comes out as A→B, B, C. *)
Theorem validatedParentLinks_pure_filter (pl : list parentLink) :
  length (validatedParentLinks pl) = length pl ∧
  map id (validatedParentLinks pl) = map id pl ∧
  (∀ i p, pl !! i = Some p →
     ∃ q, validatedParentLinks pl !! i = Some q ∧ id q = id p ∧
          ((∃ p2, p2 ∈ pl ∧ id p2 = parentID p ∧ id p2 ≠ id p) →
             parentID q = parentID p) ∧
          (¬ (∃ p2, p2 ∈ pl ∧ id p2 = parentID p ∧ id p2 ≠ id p) →
             parentID q = "")) ∧
  validatedParentLinks
    [ {| id := "A"; parentID := "B" |}; {| id := "B"; parentID := "" |};
      {| id := "C"; parentID := "Z" |} ]
  = [ {| id := "A"; parentID := "B" |}; {| id := "B"; parentID := "" |};
      {| id := "C"; parentID := "" |} ].
Proof.
  split; [|split; [|split]].
  - by rewrite validatedParentLinks_map, length_map.
  - rewrite validatedParentLinks_map, <- list_fmap_compose. apply list_fmap_ext.
    intros i p _. simpl. unfold validated. by destruct (hasParentIn p pl).
  - intros i p Hp. exists (validated pl p). split.
    + rewrite validatedParentLinks_map.
      change (map (validated pl) pl) with (validated pl <$> pl).
      by rewrite list_lookup_fmap, Hp.
    + unfold validated. destruct (hasParentIn p pl) eqn:Hh.
      * split; [done|]. split; [done|]. intros Hn. exfalso. apply Hn.
        by apply hasParentIn_spec.
      * split; [done|]. split; [|done]. intros Hex.
        apply hasParentIn_spec in Hex. congruence.
  - reflexivity.
Qed.

Lemma validatedParentLinks_pure_filter_witness :
  ∃ q, validatedParentLinks
         [ {| id := "A"; parentID := "B" |}; {| id := "B"; parentID := "A" |} ] !! 1
       = Some q ∧ id q = "B".
Proof.
  destruct (validatedParentLinks_pure_filter
              [ {| id := "A"; parentID := "B" |}; {| id := "B"; parentID := "A" |} ])
    as (_ & _ & H & _).
  destruct (H 1 {| id := "B"; parentID := "A" |} eq_refl) as (q & Hq & Hid & _).
  exists q. split; [exact Hq | exact Hid].
Defined.

(** ** The structural validity of a parent *)

Lemma checkValidParent_loop_spec (parentHist imgHist : list History) (i : nat) :
  checkValidParent_loop i parentHist imgHist = true ↔
  ∀ j h, parentHist !! j = Some h → imgHist !! (i + j) = Some h.
Proof.
  revert i. induction parentHist as [|h rest IH]; intros i; simpl.
  - split; [|done]. intros _ j h' Hj. by rewrite lookup_nil in Hj.
  - destruct (imgHist !! i) as [h'|] eqn:Hi.
    + unfold DeepEqual. destruct (bool_decide (h = h')) eqn:Hd; simpl.
      * apply bool_decide_eq_true in Hd as <-. rewrite IH. split.
        -- intros H [|j] h' Hj; simpl in Hj.
           ++ rewrite Nat.add_0_r. congruence.
           ++ replace (i + S j) with (S i + j) by lia. by apply H.
        -- intros H j h' Hj. replace (S i + j) with (i + S j) by lia. by apply H.
      * apply bool_decide_eq_false in Hd. split; [done|].
        intros H. specialize (H 0 h eq_refl). rewrite Nat.add_0_r in H. congruence.
    + split; [done|]. intros H. specialize (H 0 h eq_refl).
      rewrite Nat.add_0_r in H. congruence.
Qed.

Lemma checkValidParent_spec (img parent : Image) :
  checkValidParent img parent = true ↔ validParent img parent.
Proof.
  unfold checkValidParent, validParent.
  destruct ((length (imgHistory img) =? 0) && (length (imgHistory parent) =? 0)) eqn:E0.
  - apply andb_true_iff in E0 as [Hi Hp].
    apply Nat.eqb_eq, length_zero_iff_nil in Hi.
    apply Nat.eqb_eq, length_zero_iff_nil in Hp.
    split; [by left|done].
  - destruct (Z.of_nat (length (imgHistory img))
              - Z.of_nat (length (imgHistory parent)) =? 1)%Z eqn:Ez; cbn [negb].
    + apply Z.eqb_eq in Ez. rewrite checkValidParent_loop_spec. split.
      * intros H. right. split; [lia|]. intros j h Hj. by apply (H j h).
      * intros [[Hi Hp]|[_ H]].
        -- rewrite Hi, Hp in E0. done.
        -- intros j h Hj. by apply (H j h).
    + apply Z.eqb_neq in Ez. split; [done|]. intros [[Hi Hp]|[Hl _]].
      * rewrite Hi, Hp in E0. done.
      * lia.
Qed.

(** ** The buffered reader *)

Module BufioFacts.
Import Bufio.

Lemma srcRead_nil n s :
  remaining s = [] → srcRead n s = ([], Some EOF, s).
Proof. unfold srcRead. by intros ->. Qed.

Lemma srcRead_cons n s :
  remaining s ≠ [] →
  srcRead n s = (take (n `min` S (chunk s)) (remaining s), None,
                 {| remaining := drop (n `min` S (chunk s)) (remaining s);
                    chunk := chunk s |}).
Proof. unfold srcRead. by destruct (remaining s). Qed.

Lemma take_nonempty {A} (k : nat) (l : list A) : 0 < k → l ≠ [] → take k l ≠ [].
Proof. destruct k, l; simpl; intros; (lia || done). Qed.

Lemma fill_bytesOf b : bytesOf (fill b) = bytesOf b.
Proof.
  unfold fill, bytesOf. destruct (remaining (rd b)) eqn:Er.
  - rewrite srcRead_nil by done. simpl. by rewrite Er, app_nil_r.
  - rewrite srcRead_cons by (by rewrite Er). simpl.
    by rewrite <- app_assoc, Er, take_drop.
Qed.

Lemma fill_size b : size (fill b) = size b.
Proof. unfold fill. by destruct (srcRead _ _) as [[??]?]. Qed.

Lemma fill_wf b : wf (fill b).
Proof.
  unfold fill, wf. destruct (remaining (rd b)) eqn:Er.
  - rewrite srcRead_nil by done. simpl. by right.
  - rewrite srcRead_cons by (by rewrite Er). simpl. by left.
Qed.

Lemma fill_progress b :
  length (buf b) < size b →
  rerr (fill b) ≠ None ∨ length (buf b) < length (buf (fill b)).
Proof.
  intros Hlt. unfold fill. destruct (remaining (rd b)) eqn:Er.
  - rewrite srcRead_nil by done. simpl. by left.
  - rewrite srcRead_cons by (by rewrite Er). simpl. right.
    rewrite length_app, Er.
    assert (take ((size b - length (buf b)) `min` S (chunk (rd b))) (b0 :: l) ≠ [])
      by (apply take_nonempty; [lia|done]).
    destruct (take _ (b0 :: l)); [done|]. simpl. lia.
Qed.

Lemma peekLoop_bytesOf fuel n b : bytesOf (peekLoop fuel n b) = bytesOf b.
Proof.
  revert b. induction fuel as [|fuel IH]; intros b; simpl; [done|].
  destruct (peekCond n b); [|done]. by rewrite IH, fill_bytesOf.
Qed.

Lemma peekLoop_size fuel n b : size (peekLoop fuel n b) = size b.
Proof.
  revert b. induction fuel as [|fuel IH]; intros b; simpl; [done|].
  destruct (peekCond n b); [|done]. by rewrite IH, fill_size.
Qed.

Lemma peekLoop_wf fuel n b : wf b → wf (peekLoop fuel n b).
Proof.
  revert b. induction fuel as [|fuel IH]; intros b Hwf; simpl; [done|].
  destruct (peekCond n b); [|done]. apply IH, fill_wf.
Qed.

Lemma peekLoop_stop fuel n b : peekCond n b = false → peekLoop fuel n b = b.
Proof. destruct fuel; simpl; [done|]. by intros ->. Qed.

(** The allowance of [n] rounds is enough: the loop of [Peek] has ended
    by itself when [peekLoop] returns. *)
Lemma peekLoop_done fuel n b :
  n ≤ length (buf b) + fuel → peekCond n (peekLoop fuel n b) = false.
Proof.
  revert b. induction fuel as [|fuel IH]; intros b Hn; simpl.
  - unfold peekCond. replace (length (buf b) <? n) with false; [done|].
    symmetry. apply Nat.ltb_ge. lia.
  - destruct (peekCond n b) eqn:Hc; [|done].
    unfold peekCond in Hc.
    apply andb_true_iff in Hc as [Hc _]. apply andb_true_iff in Hc as [_ Hs].
    apply Nat.ltb_lt in Hs.
    destruct (fill_progress b Hs) as [He|Hl].
    + assert (Hf : peekCond n (fill b) = false).
      { unfold peekCond. rewrite (bool_decide_eq_false_2 _ He).
        by rewrite andb_false_r. }
      by rewrite peekLoop_stop.
    + apply IH. lia.
Qed.

(** [Peek] on a source of at least [n] bytes: the first [n] bytes, no
    error, and every byte of the source still to be read. *)
Lemma Peek_enough n b :
  wf b → n ≤ size b → n ≤ length (bytesOf b) →
  ∃ b', Peek n b = (take n (bytesOf b), None, b') ∧ bytesOf b' = bytesOf b ∧
        wf b' ∧ size b' = size b.
Proof.
  intros Hwf Hsz Hlen. unfold Peek.
  pose proof (peekLoop_done n n b ltac:(lia)) as Hdone.
  pose proof (peekLoop_bytesOf n n b) as Hbytes.
  pose proof (peekLoop_size n n b) as Hsize.
  pose proof (peekLoop_wf n n b Hwf) as Hwf'.
  set (b1 := peekLoop n n b) in *.
  assert (Hge : n ≤ length (buf b1)).
  { destruct (decide (n ≤ length (buf b1))) as [|Hlt]; [done|]. exfalso.
    unfold peekCond in Hdone.
    rewrite (proj2 (Nat.ltb_lt _ _)) in Hdone by lia.
    rewrite (proj2 (Nat.ltb_lt _ _)) in Hdone by lia.
    simpl in Hdone. apply bool_decide_eq_false in Hdone.
    destruct Hwf' as [?|[_ Hr]]; [done|].
    unfold bytesOf in Hbytes at 1. rewrite Hr, app_nil_r in Hbytes.
    rewrite <- Hbytes in Hlen. lia. }
  rewrite (proj2 (Nat.ltb_ge _ _)) by lia.
  rewrite (proj2 (Nat.ltb_ge _ _)) by lia.
  exists b1. split; [|done].
  rewrite <- Hbytes. unfold bytesOf. by rewrite take_app_le.
Qed.

(** [Peek] on a source of fewer than [n] bytes: an end-of-input error. *)
Lemma Peek_short n b :
  wf b → n ≤ size b → length (bytesOf b) < n →
  ∃ b', Peek n b = (bytesOf b, Some EOF, b').
Proof.
  intros Hwf Hsz Hlen. unfold Peek.
  pose proof (peekLoop_done n n b ltac:(lia)) as Hdone.
  pose proof (peekLoop_bytesOf n n b) as Hbytes.
  pose proof (peekLoop_size n n b) as Hsize.
  pose proof (peekLoop_wf n n b Hwf) as Hwf'.
  set (b1 := peekLoop n n b) in *.
  assert (Hlt : length (buf b1) < n).
  { rewrite <- Hbytes in Hlen. unfold bytesOf in Hlen.
    rewrite length_app in Hlen. lia. }
  unfold peekCond in Hdone.
  rewrite (proj2 (Nat.ltb_lt _ _)) in Hdone by lia.
  rewrite (proj2 (Nat.ltb_lt _ _)) in Hdone by lia.
  simpl in Hdone. apply bool_decide_eq_false in Hdone.
  destruct Hwf' as [?|[He Hr]]; [done|].
  rewrite (proj2 (Nat.ltb_ge _ _)) by lia.
  rewrite (proj2 (Nat.ltb_lt _ _)) by lia.
  unfold readErr. rewrite He. simpl.
  unfold bytesOf in Hbytes at 1. rewrite Hr, app_nil_r in Hbytes.
  rewrite Hbytes. eauto.
Qed.

(** One [Read] with a buffer of [k > 0] bytes: it ends the input with
    nothing left, or it hands out at least one byte and leaves the rest. *)
Lemma Read_step k b :
  0 < k → wf b →
  ∃ bs e b', Read k b = (bs, e, b') ∧
    ((e ≠ None ∧ bs = [] ∧ bytesOf b = []) ∨
     (e = None ∧ bs ≠ [] ∧ bytesOf b = bs ++ bytesOf b' ∧ wf b')).
Proof.
  intros Hk Hwf. unfold Read.
  rewrite (proj2 (Nat.eqb_neq _ _)) by lia.
  destruct (buf b) as [|x bufb] eqn:Eb.
  - destruct (rerr b) as [e|] eqn:Ee.
    + destruct Hwf as [?|[_ Hr]]; [congruence|].
      eexists _, _, _. split; [done|]. left.
      unfold bytesOf. by rewrite Eb, Hr.
    + destruct (remaining (rd b)) as [|y rem] eqn:Er.
      * destruct (size b <=? k); rewrite srcRead_nil by done;
          (eexists _, _, _; split; [done|]; left; unfold bytesOf;
           by rewrite Eb, Er).
      * destruct (size b <=? k) eqn:Es.
        -- rewrite srcRead_cons by (by rewrite Er).
           eexists _, _, _. split; [done|]. right.
           split; [done|]. split.
           { rewrite Er. apply take_nonempty; [lia|done]. }
           split; [|by left].
           unfold bytesOf. simpl. by rewrite Eb, take_drop.
        -- apply Nat.leb_gt in Es.
           rewrite srcRead_cons by (by rewrite Er).
           assert (Hne : take (size b `min` S (chunk (rd b))) (remaining (rd b)) ≠ []).
           { rewrite Er. apply take_nonempty; [lia|done]. }
           destruct (take (size b `min` S (chunk (rd b))) (remaining (rd b)))
             as [|z bs] eqn:Et; [done|].
           eexists _, _, _. split; [done|]. right.
           split; [done|]. split.
           { apply take_nonempty; [lia|done]. }
           split; [|by left].
           unfold bytesOf. simpl buf. simpl rd. simpl remaining.
           rewrite Eb. simpl app at 1.
           rewrite app_assoc, take_drop, <- Et, take_drop. done.
  - eexists _, _, _. split; [done|]. right.
    split; [done|]. split.
    { apply take_nonempty; [lia|done]. }
    split.
    + unfold bytesOf. simpl. by rewrite Eb, app_assoc, take_drop.
    + destruct Hwf as [?|[??]]; [by left|by right].
Qed.

End BufioFacts.

Lemma bufferedReadCloser_Peek_enough (src : Bufio.Source) :
  4 ≤ length (Bufio.remaining src) →
  ∃ reader, bufferedReadCloser_Peek {| r := Bufio.NewReader src |} 4
            = (take 4 (Bufio.remaining src), None, reader) ∧
            pending reader = Bufio.remaining src ∧ Bufio.wf (r reader).
Proof.
  intros Hlen. unfold bufferedReadCloser_Peek. simpl r.
  destruct (BufioFacts.Peek_enough 4 (Bufio.NewReader src)) as (b' & HP & Hb & Hwf & _).
  - by left.
  - unfold Bufio.NewReader, Bufio.defaultBufSize. simpl. lia.
  - done.
  - rewrite HP. exists {| r := b' |}. done.
Qed.

Lemma bufferedReadCloser_Peek_short (src : Bufio.Source) :
  length (Bufio.remaining src) < 4 →
  ∃ reader, bufferedReadCloser_Peek {| r := Bufio.NewReader src |} 4
            = (Bufio.remaining src, Some Bufio.EOF, reader).
Proof.
  intros Hlen. unfold bufferedReadCloser_Peek. simpl r.
  destruct (BufioFacts.Peek_short 4 (Bufio.NewReader src)) as (b' & HP).
  - by left.
  - unfold Bufio.NewReader, Bufio.defaultBufSize. simpl. lia.
  - done.
  - rewrite HP. by exists {| r := b' |}.
Qed.

Lemma readLoop_all (k fuel : nat) (b : bufferedReadCloser) (acc : list byte) :
  0 < k → Bufio.wf (r b) → length (pending b) < fuel →
  fst (readLoop fuel k b acc) = acc ++ pending b.
Proof.
  intros Hk. revert b acc. induction fuel as [|fuel IH]; intros b acc Hwf Hlen; [lia|].
  simpl. unfold bufferedReadCloser_Read.
  destruct (BufioFacts.Read_step k (r b) Hk Hwf) as (bs & e & b' & HR & Hcase).
  rewrite HR. destruct Hcase as [(He & -> & Hnil)|(-> & Hne & Hbytes & Hwf')].
  - destruct e; [|done]. simpl. unfold pending.
    by change (Bufio.buf (r b) ++ Bufio.remaining (Bufio.rd (r b)))
      with (Bufio.bytesOf (r b)); rewrite Hnil.
  - rewrite IH.
    + unfold pending at 2. simpl r.
      change (Bufio.buf (r b) ++ Bufio.remaining (Bufio.rd (r b)))
        with (Bufio.bytesOf (r b)).
      rewrite Hbytes, <- app_assoc. done.
    + done.
    + unfold pending in *. simpl r.
      change (Bufio.buf (r b) ++ Bufio.remaining (Bufio.rd (r b)))
        with (Bufio.bytesOf (r b)) in Hlen.
      rewrite Hbytes, length_app in Hlen.
      change (Bufio.buf b' ++ Bufio.remaining (Bufio.rd b'))
        with (Bufio.bytesOf b').
      destruct bs; [done|]. simpl in Hlen. lia.
Qed.

Lemma readAll_pending (k : nat) (b : bufferedReadCloser) :
  0 < k → Bufio.wf (r b) → fst (readAll k b) = pending b.
Proof.
  intros Hk Hwf. unfold readAll. rewrite readLoop_all by (done || lia). done.
Qed.

Lemma copyBufSize_pos : 0 < copyBufSize.
Proof. unfold copyBufSize. lia. Qed.

Lemma bytes_eqb_eq (a b : list byte) : bytes_eqb a b = true ↔ a = b.
Proof.
  revert b. induction a as [|x a IH]; intros [|y b]; simpl; try done.
  rewrite andb_true_iff, IH. split.
  - intros [Hxy ->]. by rewrite (Byte.byte_dec_bl _ _ Hxy).
  - intros [= -> ->]. split; [by apply Byte.byte_dec_lb|done].
Qed.

(** ** The loaders *)

Section LoaderFacts.
Context {W : Type} (E : Collab W).

Local Abbreviation M := (M W).
Local Abbreviation emits := (emits (W:=W)).

Section Emits.
Context (P : event → Prop).

Lemma emits_ret {A} (a : A) : emits P (ret a).
Proof.
  intros s x s' [= <- <-]. exists []. by rewrite app_nil_r.
Qed.

Lemma emits_fail {A} (e : error) : emits P (fail e : M A).
Proof.
  intros s x s' [= <- <-]. exists []. by rewrite app_nil_r.
Qed.

Lemma emits_diverge {A} : emits P (diverge : M A).
Proof.
  intros s x s' [= <- <-]. exists []. by rewrite app_nil_r.
Qed.

Lemma emits_must {A} (x : ext A) : emits P (must x).
Proof. destruct x; [apply emits_ret|apply emits_fail]. Qed.

Lemma emits_defer (d : deferred) : emits P (defer d : M unit).
Proof.
  intros s x s' [= <- <-]. exists []. simpl. by rewrite app_nil_r.
Qed.

Lemma emits_bind {A B} (m : M A) (k : A → M B) :
  emits P m → (∀ a, emits P (k a)) → emits P (bind m k).
Proof.
  intros Hm Hk s x s' Hrun. unfold bind in Hrun.
  destruct (m s) as [[a|e|] s1] eqn:Em.
  - destruct (Hm _ _ _ Em) as (evs1 & Ht1 & H1).
    destruct (Hk a _ _ _ Hrun) as (evs2 & Ht2 & H2).
    exists (evs1 ++ evs2). rewrite Ht2, Ht1, app_assoc. split; [done|].
    by apply Forall_app.
  - injection Hrun as <- <-. eauto.
  - injection Hrun as <- <-. eauto.
Qed.

Lemma emits_perform {A} (op : W → A * W) (ev : A → list event) :
  (∀ a, Forall P (ev a)) → emits P (perform op ev).
Proof.
  intros Hev s x s' Hrun. unfold perform in Hrun.
  destruct (op (world s)) as [a w]. injection Hrun as <- <-. simpl. eauto.
Qed.

Lemma emits_exec (op : W → W) (ev : list event) :
  Forall P ev → emits P (exec op ev).
Proof. intros Hev. by apply emits_perform. Qed.

Lemma emits_call {A} (op : W → ext A * W) : emits P (call op).
Proof.
  apply emits_bind; [by apply emits_perform|]. intros a. apply emits_must.
Qed.

Lemma emits_ignoreErr {A} (m : M A) : emits P m → emits P (ignoreErr m).
Proof.
  intros Hm s x s' Hrun. unfold ignoreErr in Hrun.
  destruct (m s) as [[a|e|] s1] eqn:Em; injection Hrun as <- <-; eauto.
Qed.

Lemma emits_forM {X A} (xs : list X) (body : X → A → M A) (a : A) :
  (∀ x a, emits P (body x a)) → emits P (forM xs body a).
Proof.
  intros Hb. revert a. induction xs as [|x xs IH]; intros a; simpl.
  - apply emits_ret.
  - apply emits_bind; [apply Hb|]. intros a'. apply IH.
Qed.

Lemma emits_forRange {X A} (i : nat) (xs : list X) (body : nat → X → A → M A)
    (a : A) :
  (∀ i x a, emits P (body i x a)) → emits P (forRange i xs body a).
Proof.
  intros Hb. revert i a. induction xs as [|x xs IH]; intros i a; simpl.
  - apply emits_ret.
  - apply emits_bind; [apply Hb|]. intros a'. apply IH.
Qed.

Lemma runDefers_trace (ds : list deferred) (s : state W) :
  (∀ dir, P (EvRemoveAll dir)) → (∀ l, P (EvLsRelease l)) →
  ∃ evs, trace (runDefers E ds s) = trace s ++ evs ∧ Forall P evs ∧
         defers (runDefers E ds s) = defers s.
Proof.
  intros Hrm Hrel. revert s. induction ds as [|d ds IH]; intros s; simpl.
  - exists []. by rewrite app_nil_r.
  - destruct (IH (runDeferred E d s)) as (evs & -> & HP & ->).
    destruct d; simpl.
    + exists (EvRemoveAll dir :: evs). rewrite <- app_assoc. by repeat constructor.
    + exists evs. done.
    + exists (EvLsRelease l :: evs). rewrite <- app_assoc. by repeat constructor.
Qed.

Lemma emits_scope {A} (body : M A) :
  (∀ dir, P (EvRemoveAll dir)) → (∀ l, P (EvLsRelease l)) →
  emits P body → emits P (scope E body).
Proof.
  intros Hrm Hrel Hb s x s' Hrun. unfold scope in Hrun.
  destruct (body _) as [res s1] eqn:Eb.
  destruct (Hb _ _ _ Eb) as (evs1 & Ht & H1). simpl in Ht.
  assert (Hfin : ∃ evs, trace (runDefers E (defers s1)
            {| world := world s1; trace := trace s1; defers := defers s |})
            = trace s ++ evs ∧ Forall P evs).
  { destruct (runDefers_trace (defers s1)
                {| world := world s1; trace := trace s1; defers := defers s |}
                Hrm Hrel) as (evs2 & -> & H2 & _).
    simpl. rewrite Ht. exists (evs1 ++ evs2). rewrite app_assoc.
    split; [done|]. by apply Forall_app. }
  destruct res; injection Hrun as <- <-; eauto.
Qed.

End Emits.

Lemma adds_refl P t : adds P t t.
Proof. exists []. by rewrite app_nil_r. Qed.

Lemma adds_trans P t1 t2 t3 : adds P t1 t2 → adds P t2 t3 → adds P t1 t3.
Proof.
  intros (e1 & -> & H1) (e2 & -> & H2). exists (e1 ++ e2).
  rewrite app_assoc. split; [done|]. by apply Forall_app.
Qed.

Lemma emits_adds {A} P (m : M A) s x s' :
  emits P m → m s = (x, s') → adds P (trace s) (trace s').
Proof. intros Hm Hrun. exact (Hm _ _ _ Hrun). Qed.

Lemma bind_Ok {A B} (m : M A) (k : A → M B) s a s' :
  m s = (Ok a, s') → bind m k s = k a s'.
Proof. unfold bind. by intros ->. Qed.

Lemma bind_Err {A B} (m : M A) (k : A → M B) s e s' :
  m s = (Err e, s') → bind m k s = (Err e, s').
Proof. unfold bind. by intros ->. Qed.

Lemma bind_Ok_inv {A B} (m : M A) (k : A → M B) s b s' :
  bind m k s = (Ok b, s') → ∃ a s1, m s = (Ok a, s1) ∧ k a s1 = (Ok b, s').
Proof.
  unfold bind. destruct (m s) as [[a|e|] s1]; [eauto|done..].
Qed.

Lemma forM_app {X A} (xs ys : list X) (body : X → A → M A) (a : A) s :
  forM (xs ++ ys) body a s = bind (forM xs body a) (forM ys body) s.
Proof.
  revert a s. induction xs as [|x xs IH]; intros a s; simpl; [done|].
  unfold bind in *. destruct (body x a s) as [[a'|e|] s1]; [|done..].
  apply IH.
Qed.

Lemma forRange_app {X A} (i : nat) (xs ys : list X) (body : nat → X → A → M A)
    (a : A) s :
  forRange i (xs ++ ys) body a s
  = bind (forRange i xs body a) (forRange (i + length xs) ys body) s.
Proof.
  revert i a s. induction xs as [|x xs IH]; intros i a s; simpl.
  - by rewrite Nat.add_0_r.
  - unfold bind in *. destruct (body i x a s) as [[a'|e|] s1]; [|done..].
    rewrite IH. by replace (S i + length xs) with (i + S (length xs)) by lia.
Qed.

(** *** Events that the steps of a load cannot add *)

Lemma emits_safePath P base path : emits P (safePath E base path).
Proof. apply emits_call. Qed.

Lemma emits_lsGet P c : (∀ x, P (EvLsGet c x)) → emits P (lsGet E c).
Proof. intros HP. apply emits_perform. intros x. by repeat constructor. Qed.

Lemma emits_loadLayer P filename rootFS ident foreignSrc po :
  (∀ dir, P (EvRemoveAll dir)) → (∀ l, P (EvLsRelease l)) →
  (∀ f c x, P (EvLsRegister f c x)) →
  emits P (loadLayer E filename rootFS ident foreignSrc po).
Proof.
  intros Hrm Hrel Hreg. apply emits_scope; [done..|].
  apply emits_bind; [apply emits_call|]. intros rawTar.
  apply emits_bind; [apply emits_defer|]. intros _.
  apply emits_bind.
  { destruct po; [|apply emits_ret].
    apply emits_bind; [apply emits_call|]. intros _. apply emits_ret. }
  intros _. apply emits_bind; [apply emits_call|]. intros inflated.
  apply emits_bind; [apply emits_defer|]. intros _.
  apply emits_bind; [|intros x; apply emits_must].
  destruct (isDescribableStore E); apply emits_perform; intros x;
    by repeat constructor.
Qed.

Lemma emits_obtainLayer P m po layerPath diffID rootFS :
  (∀ dir, P (EvRemoveAll dir)) → (∀ l, P (EvLsRelease l)) →
  (∀ f c x, P (EvLsRegister f c x)) → (∀ c x, P (EvLsGet c x)) →
  emits P (obtainLayer E m po layerPath diffID rootFS).
Proof.
  intros Hrm Hrel Hreg Hget. apply emits_bind; [by apply emits_lsGet|].
  intros [l|e]; [apply emits_ret|by apply emits_loadLayer].
Qed.

Lemma emits_loadManifestLayer P tmpDir m po i diffID rootFS :
  (∀ dir, P (EvRemoveAll dir)) → (∀ l, P (EvLsRelease l)) →
  (∀ f c x, P (EvLsRegister f c x)) → (∀ c x, P (EvLsGet c x)) →
  emits P (loadManifestLayer E tmpDir m po i diffID rootFS).
Proof.
  intros Hrm Hrel Hreg Hget. unfold loadManifestLayer.
  destruct (Layers m !! i); [|apply emits_fail].
  apply emits_bind; [apply emits_safePath|]. intros layerPath.
  apply emits_bind; [by apply emits_obtainLayer|]. intros newLayer.
  apply emits_bind; [apply emits_defer|]. intros _.
  destruct (negb _); [apply emits_fail|apply emits_ret].
Qed.

Lemma runDefers_releases (l : Layer) (ds : list deferred) (st : state W) :
  DReleaseAndLog l ∈ ds → EvLsRelease l ∈ trace (runDefers E ds st).
Proof.
  revert st. induction ds as [|d ds IH]; intros st Hin.
  - by apply elem_of_nil in Hin.
  - change (runDefers E (d :: ds) st) with (runDefers E ds (runDeferred E d st)).
    apply elem_of_cons in Hin as [<-|Hin].
    + destruct (runDefers_trace (λ _, True) ds (runDeferred E (DReleaseAndLog l) st))
        as (evs & Ht & _); [done..|].
      rewrite Ht. simpl. set_solver.
    + by apply IH.
Qed.

(** *** [setParentID] *)

(** C7: [setParentID] commits the parent edge exactly when both images
    are in the store and the parent is structurally valid for the child
    (both histories empty, or the child's one entry longer with the
    parent's entries as its prefix).  Then it applies [SetParent] of the
    image store to the store as the two lookups left it, returns what
    [SetParent] returns, and leaves the store that [SetParent] made.  In
    every other case (the child is not found, the parent is not found, or
    the parent is not valid) it returns the error of that case, [SetParent]
    is not called, and the store is as the lookups left it. *)
Theorem setParentID_commits_iff_valid (s : state W) (i p : ImageID) :
  (∀ img parent w1 w2 x w3,
     is_Get E i (world s) = (Got img, w1) →
     is_Get E p w1 = (Got parent, w2) →
     validParent img parent →
     is_SetParent E i p w2 = (x, w3) →
     setParentID E i p s
     = (match x with Got _ => Ok tt | Failed e => Err (ErrExt e) end,
        {| world := w3;
           trace := trace s ++ [EvIsGet i; EvIsGet p; EvIsSetParent i p];
           defers := defers s |})) ∧
  (∀ e w1,
     is_Get E i (world s) = (Failed e, w1) →
     setParentID E i p s
     = (Err (ErrExt e),
        {| world := w1; trace := trace s ++ [EvIsGet i]; defers := defers s |})) ∧
  (∀ img w1 e w2,
     is_Get E i (world s) = (Got img, w1) →
     is_Get E p w1 = (Failed e, w2) →
     setParentID E i p s
     = (Err (ErrExt e),
        {| world := w2; trace := trace s ++ [EvIsGet i; EvIsGet p];
           defers := defers s |})) ∧
  (∀ img parent w1 w2,
     is_Get E i (world s) = (Got img, w1) →
     is_Get E p w1 = (Got parent, w2) →
     ¬ validParent img parent →
     setParentID E i p s
     = (Err (ErrNotValidParent (imgID parent) (imgID img)),
        {| world := w2; trace := trace s ++ [EvIsGet i; EvIsGet p];
           defers := defers s |})) ∧
  ∃ evs, trace (setParentID E i p s).2 = trace s ++ evs ∧
    (EvIsSetParent i p ∈ evs ↔
       ∃ img parent w1 w2,
         is_Get E i (world s) = (Got img, w1) ∧
         is_Get E p w1 = (Got parent, w2) ∧
         validParent img parent) ∧
    (EvIsSetParent i p ∉ evs →
       Forall notSetParent evs ∧ ∃ e, (setParentID E i p s).1 = Err e).
Proof.
  split; [|split; [|split; [|split]]].
  { intros img parent w1 w2 x w3 H1 H2 Hv H3.
    apply checkValidParent_spec in Hv.
    unfold setParentID, isGet, isSetParent, bind, perform, must, ret, fail.
    rewrite H1. cbn [world trace defers]. rewrite H2. cbn [world trace defers].
    rewrite Hv. cbn [negb world trace defers]. rewrite H3.
    cbn [world trace defers]. rewrite <- !app_assoc.
    by destruct x as [[]|e]. }
  { intros e w1 H1.
    unfold setParentID, isGet, bind, perform, must, ret, fail.
    by rewrite H1. }
  { intros img w1 e w2 H1 H2.
    unfold setParentID, isGet, bind, perform, must, ret, fail.
    rewrite H1. cbn [world trace defers]. rewrite H2. cbn [world trace defers].
    by rewrite <- app_assoc. }
  { intros img parent w1 w2 H1 H2 Hv.
    assert (Hc : checkValidParent img parent = false).
    { destruct (checkValidParent img parent) eqn:Hc; [|done].
      by apply checkValidParent_spec in Hc. }
    unfold setParentID, isGet, bind, perform, must, ret, fail.
    rewrite H1. cbn [world trace defers]. rewrite H2. cbn [world trace defers].
    rewrite Hc. cbn [negb]. by rewrite <- app_assoc. }
  unfold setParentID, isGet, isSetParent, bind, perform, must, ret, fail.
  destruct (is_Get E i (world s)) as [[img|e] w1] eqn:E1; simpl.
  2: { exists [EvIsGet i]. split; [done|]. split.
       - split; [set_solver|]. intros (?&?&?&?&?&_). congruence.
       - intros _. split; [by repeat constructor|eauto]. }
  destruct (is_Get E p w1) as [[parent|e] w2] eqn:E2; simpl.
  2: { exists [EvIsGet i; EvIsGet p]. split; [by rewrite <- app_assoc|]. split.
       - split; [set_solver|]. intros (?&?&?&?&?&?&_). congruence.
       - intros _. split; [by repeat constructor|eauto]. }
  destruct (checkValidParent img parent) eqn:Ev; simpl.
  - apply checkValidParent_spec in Ev.
    destruct (is_SetParent E i p w2) as [[[]|e] w3] eqn:E3; simpl;
      (exists [EvIsGet i; EvIsGet p; EvIsSetParent i p];
       split; [by rewrite <- !app_assoc|]; split;
       [ split; [intros _; by exists img, parent, w1, w2 | set_solver]
       | intros Hn; exfalso; apply Hn; set_solver ]).
  - exists [EvIsGet i; EvIsGet p]. split; [by rewrite <- app_assoc|]. split.
    + split; [set_solver|]. intros (img' & parent' & w1' & w2' & H1 & H2 & Hv).
      assert (img' = img ∧ w1' = w1) as [-> ->] by (split; congruence).
      assert (parent' = parent) as -> by congruence.
      apply checkValidParent_spec in Hv. congruence.
    + intros _. split; [by repeat constructor|eauto].
Qed.

(** *** The manifest loader *)

(** C1: when the layer obtained at position [i] of a manifest item has
    another DiffID than the config claims there, the load stops at once
    with the error of that position, and no call to the image store's
    [Create] is made from the start of that item on.  The items before
    have been loaded, the config of the item has been read and the layers
    before position [i] have passed. *)
Theorem loadManifest_diffID_mismatch_aborts (tmpDir : string) (po : bool)
    (pre post : list manifestItem) (m : manifestItem)
    (acc1 : list parentLink * string * nat) (s0 s1 s2 s3 s4 s5 s6 : state W)
    (configPath config : string) (img : Image)
    (dpre dpost : list DiffID) (diffID : DiffID) (rootFS : RootFS)
    (layerFile layerPath : string) (newLayer : Layer) :
  forM pre (loadManifestItem E tmpDir po) ([], "", 0) s0 = (Ok acc1, s1) →
  safePath E tmpDir (Config m) s1 = (Ok configPath, s2) →
  call (ReadFile E configPath) s2 = (Ok config, s3) →
  NewFromJSON E config = Got img →
  length (Layers m) = length (DiffIDs (imgRootFS img)) →
  DiffIDs (imgRootFS img) = dpre ++ diffID :: dpost →
  forRange 0 dpre (loadManifestLayer E tmpDir m po)
    {| Type_ := Type_ (imgRootFS img); DiffIDs := [] |} s3 = (Ok rootFS, s4) →
  Layers m !! length dpre = Some layerFile →
  safePath E tmpDir layerFile s4 = (Ok layerPath, s5) →
  obtainLayer E m po layerPath diffID rootFS s5 = (Ok newLayer, s6) →
  layerDiffID newLayer ≠ diffID →
  let s7 := {| world := world s6; trace := trace s6;
               defers := DReleaseAndLog newLayer :: defers s6 |} in
  loadManifest E tmpDir po (pre ++ m :: post) s0
    = (Err (ErrInvalidDiffID (Some (length dpre)) diffID (layerDiffID newLayer)), s7) ∧
  adds notCreate (trace s1) (trace s7).
Proof.
  intros Hpre Hcp Hrf Hjson Hlen Hd Hlayers Hlf Hlp Hobtain Hne s7.
  assert (Hstep : loadManifestLayer E tmpDir m po (length dpre) diffID rootFS s4
                  = (Err (ErrInvalidDiffID (Some (length dpre)) diffID
                            (layerDiffID newLayer)), s7)).
  { unfold loadManifestLayer. rewrite Hlf.
    rewrite (bind_Ok _ _ _ _ _ Hlp), (bind_Ok _ _ _ _ _ Hobtain).
    unfold bind, defer, fail. simpl.
    destruct (String.eqb_spec diffID (layerDiffID newLayer)); [congruence|done]. }
  assert (Hitem : loadManifestItem E tmpDir po m acc1 s1
                  = (Err (ErrInvalidDiffID (Some (length dpre)) diffID
                            (layerDiffID newLayer)), s7)).
  { unfold loadManifestItem. destruct acc1 as [[parentLinks imageIDsStr] imageRefCount].
    rewrite (bind_Ok _ _ _ _ _ Hcp), (bind_Ok _ _ _ _ _ Hrf).
    rewrite Hjson. unfold must at 1. unfold bind at 1, ret at 1.
    rewrite Hlen, Nat.eqb_refl. cbn [negb].
    apply bind_Err. rewrite Hd, forRange_app. rewrite (bind_Ok _ _ _ _ _ Hlayers).
    rewrite Nat.add_0_l. cbn [forRange]. by apply bind_Err. }
  split.
  - unfold loadManifest. apply bind_Err. rewrite forM_app.
    rewrite (bind_Ok _ _ _ _ _ Hpre). cbn [forM]. by apply bind_Err.
  - apply (adds_trans _ _ (trace s2)); [exact (emits_safePath _ _ _ _ _ _ Hcp)|].
    apply (adds_trans _ _ (trace s3)); [exact (emits_call _ _ _ _ _ Hrf)|].
    apply (adds_trans _ _ (trace s4)).
    { refine (emits_forRange _ _ _ _ _ _ _ _ _ Hlayers).
      intros. by apply emits_loadManifestLayer. }
    apply (adds_trans _ _ (trace s5)); [exact (emits_safePath _ _ _ _ _ _ Hlp)|].
    refine (emits_obtainLayer _ _ _ _ _ _ _ _ _ _ _ _ _ Hobtain); done.
Qed.

(** [imageRefCount] after an item is the number of its tags: the count of
    the items before is dropped. *)
Lemma loadManifestTags_count imgid tags n s n' s' :
  forM tags (loadManifestTag E imgid) n s = (Ok n', s') → n' = n + length tags.
Proof.
  revert n s. induction tags as [|t tags IH]; intros n s; simpl.
  - intros [= <- _]. lia.
  - intros H. apply bind_Ok_inv in H as (n1 & s1 & Hstep & H).
    apply IH in H. subst n'.
    unfold loadManifestTag in Hstep.
    apply bind_Ok_inv in Hstep as (named & s2 & _ & Hstep).
    destruct (Tag named); [|done].
    apply bind_Ok_inv in Hstep as (? & s3 & _ & Hstep).
    apply bind_Ok_inv in Hstep as (? & s4 & _ & Hstep).
    injection Hstep as <- _. lia.
Qed.

Lemma loadManifestItem_refcount tmpDir po m acc s links ids n s' :
  loadManifestItem E tmpDir po m acc s = (Ok (links, ids, n), s') →
  n = length (RepoTags m).
Proof.
  unfold loadManifestItem. destruct acc as [[parentLinks imageIDsStr] imageRefCount].
  intros H.
  apply bind_Ok_inv in H as (configPath & s1 & _ & H).
  apply bind_Ok_inv in H as (config & s2 & _ & H).
  apply bind_Ok_inv in H as (img & s3 & _ & H).
  destruct (negb _); [done|].
  apply bind_Ok_inv in H as (rootFS & s4 & _ & H).
  apply bind_Ok_inv in H as (imgid & s5 & _ & H).
  apply bind_Ok_inv in H as (count & s6 & Htags & H).
  apply bind_Ok_inv in H as (? & s7 & _ & H).
  injection H as _ _ <- _.
  by apply loadManifestTags_count in Htags.
Qed.

(** So the count that [Load] tests after the loop is the number of tags of
    the last item of the manifest. *)
Lemma loadManifestItems_refcount tmpDir po manifest acc s links ids n s' :
  forM manifest (loadManifestItem E tmpDir po) acc s = (Ok (links, ids, n), s') →
  n = match last manifest with
      | Some m => length (RepoTags m)
      | None => acc.2
      end.
Proof.
  revert acc s. induction manifest as [|m manifest IH]; intros acc s; simpl.
  - by intros [= -> _].
  - intros H. apply bind_Ok_inv in H as ([[l1 i1] n1] & s1 & Hitem & H).
    apply IH in H. apply loadManifestItem_refcount in Hitem.
    destruct manifest as [|m2 manifest].
    { simpl in H. by subst. }
    change (last (m :: m2 :: manifest)) with (last (m2 :: manifest)).
    destruct (last (m2 :: manifest)) eqn:El; [exact H|].
    by apply last_None in El.
Qed.

(** *** The single-blob loader *)

Lemma scope_Ok_inv {A} (body : M A) s a s' :
  scope E body s = (Ok a, s') →
  ∃ s1, body {| world := world s; trace := trace s; defers := [] |} = (Ok a, s1) ∧
        ∃ evs, trace s' = trace s1 ++ evs.
Proof.
  unfold scope. destruct (body _) as [[a'|e|] s1] eqn:Eb; [|done..].
  intros [= <- <-]. exists s1. split; [done|].
  destruct (runDefers_trace (λ _, True) (defers s1)
              {| world := world s1; trace := trace s1; defers := defers s |})
    as (evs & Ht & _); [done..|].
  exists evs. exact Ht.
Qed.

Lemma perform_trace {A} (op : W → A * W) ev s a s' :
  perform op ev s = (Ok a, s') → trace s' = trace s ++ ev a.
Proof.
  unfold perform. destruct (op (world s)) as [a' w]. by intros [= <- <-].
Qed.

(** Every run of [loadSquashFS] that ends well has created an image whose
    RootFS holds two DiffIDs: the empty one that [make] put there, and the
    DiffID of the one-entry archive. *)
Lemma loadSquashFS_created_image reader tmpDir po s s' :
  loadSquashFS E reader tmpDir po s = (Ok tt, s') →
  ∃ diffID config imgid,
    jsonMarshal E
      {| imgID := "";
         imgRootFS := {| Type_ := "layers"; DiffIDs := [""; diffID] |};
         imgHistory := [] |} = Got config ∧
    EvIsCreate config (Got imgid) ∈ trace s'.
Proof.
  unfold loadSquashFS. intros H.
  apply scope_Ok_inv in H as (s1 & H & evs & Ht).
  apply bind_Ok_inv in H as (status & s2 & _ & H). cbv zeta in H.
  destruct (String.eqb _ ""); [done|].
  apply bind_Ok_inv in H as (u & s3 & _ & H).
  apply bind_Ok_inv in H as (handle & s4 & _ & H).
  apply bind_Ok_inv in H as (? & s5 & _ & H).
  apply bind_Ok_inv in H as (? & s6 & _ & H).
  apply bind_Ok_inv in H as (? & s7 & _ & H).
  apply bind_Ok_inv in H as (f & s8 & _ & H).
  apply bind_Ok_inv in H as (? & s9 & _ & H).
  apply bind_Ok_inv in H as (? & s10 & _ & H).
  apply bind_Ok_inv in H as (? & s11 & _ & H).
  apply bind_Ok_inv in H as (hash & s12 & _ & H).
  apply bind_Ok_inv in H as (? & s13 & _ & H).
  apply bind_Ok_inv in H as (got & s14 & _ & H).
  apply bind_Ok_inv in H as (? & s15 & _ & H).
  apply bind_Ok_inv in H as (newLayer & s16 & _ & H).
  apply bind_Ok_inv in H as (? & s17 & _ & H).
  apply bind_Ok_inv in H as (c & s18 & _ & H).
  apply bind_Ok_inv in H as (cacheID & s19 & _ & H).
  apply bind_Ok_inv in H as (? & s20 & _ & H).
  apply bind_Ok_inv in H as (? & s21 & _ & H).
  apply bind_Ok_inv in H as (? & s22 & _ & H).
  destruct (negb _); [done|].
  apply bind_Ok_inv in H as (config & s23 & Hm & H).
  apply bind_Ok_inv in H as (imgid & s24 & Hc & H).
  apply bind_Ok_inv in H as (? & s25 & Hw & H).
  injection H as <-.
  exists ("sha256:" +:+ hash), config, imgid. split.
  - unfold RootFS_Append in Hm. simpl in Hm.
    destruct (jsonMarshal E _) as [c'|e]; [|done]. by injection Hm as <- _.
  - unfold isCreate in Hc.
    apply bind_Ok_inv in Hc as (created & s26 & Hp & Hc).
    apply perform_trace in Hp.
    destruct created as [i|e]; [|done]. injection Hc as <- <-.
    unfold write, exec in Hw. apply perform_trace in Hw.
    rewrite Ht, Hw, Hp. set_solver.
Qed.

(** *** [Load] *)

(** C9, as the code has it: once the scratch directory exists, a stream of
    fewer than four bytes makes [Load] return the error of [Peek] with
    neither loader run; on a stream of four bytes or more [Peek] returns
    its first four bytes and leaves a reader from which the whole stream
    is read from byte 0 on, [Load] runs the single-blob loader when those
    bytes are the squashfs magic and the archive loader otherwise, and the
    archive loader starts by unpacking the whole stream. *)
Theorem Load_dispatch (fuel : nat) (inTar : Bufio.Source) (quiet : bool)
    (s : state W) (tmpDir : string) (w1 : W) :
  TempDir E "" "docker-import-" (world s) = (Got tmpDir, w1) →
  let s1 := {| world := w1; trace := trace s; defers := defers s |} in
  let bytes := Bufio.remaining inTar in
  (length bytes < 4 →
     Load E fuel inTar quiet s
     = (Err (ErrPeek Bufio.EOF),
        {| world := RemoveAll E tmpDir w1; trace := trace s ++ [EvRemoveAll tmpDir];
           defers := defers s |})) ∧
  (4 ≤ length bytes →
     ∃ reader,
       bufferedReadCloser_Peek {| r := Bufio.NewReader inTar |} 4
         = (take 4 bytes, None, reader) ∧
       fst (readAll copyBufSize reader) = bytes ∧
       (take 4 bytes = squashfsMagic →
          Load E fuel inTar quiet s
          = scope E (defer (DRemoveAll tmpDir) ;;;
                     loadSquashFS E reader tmpDir (negb quiet)) s1) ∧
       (take 4 bytes ≠ squashfsMagic →
          Load E fuel inTar quiet s
          = scope E (defer (DRemoveAll tmpDir) ;;;
                     loadArchive E fuel reader tmpDir (negb quiet)) s1) ∧
       ∃ k, ∀ st,
         loadArchive E fuel reader tmpDir (negb quiet) st
         = bind (perform (Untar E bytes tmpDir) (λ _, [EvUntar bytes tmpDir])) k st).
Proof.
  intros HT s1 bytes. split.
  - intros Hlen.
    destruct (bufferedReadCloser_Peek_short inTar Hlen) as (reader & HP).
    unfold Load, scope, call, bind, perform, must, ret, defer, fail. simpl.
    rewrite HT. simpl. rewrite HP. simpl. by rewrite app_nil_r.
  - intros Hlen.
    destruct (bufferedReadCloser_Peek_enough inTar Hlen) as (reader & HP & Hpend & Hwf).
    exists reader. split; [done|].
    assert (Hall : fst (readAll copyBufSize reader) = bytes).
    { rewrite readAll_pending; [done|apply copyBufSize_pos|done]. }
    split; [done|]. split; [|split].
    + intros Hmagic. apply bytes_eqb_eq in Hmagic.
      unfold Load, scope, call, bind, perform, must, ret, defer. simpl.
      rewrite HT. simpl. rewrite HP. fold bytes. rewrite Hmagic.
      by rewrite app_nil_r.
    + intros Hmagic.
      assert (Hb : bytes_eqb (take 4 bytes) squashfsMagic = false).
      { destruct (bytes_eqb _ _) eqn:Hb; [|done]. by apply bytes_eqb_eq in Hb. }
      unfold Load, scope, call, bind, perform, must, ret, defer. simpl.
      rewrite HT. simpl. rewrite HP. fold bytes. rewrite Hb.
      by rewrite app_nil_r.
    + eexists. intros st. unfold loadArchive. rewrite Hall. reflexivity.
Qed.

End LoaderFacts.

(** ** The legacy loader: termination *)

Section LegacyFacts.
Context {W : Type} (E : Collab W).

Local Abbreviation M := (M W).
Local Abbreviation total := (total (W:=W)).
Local Abbreviation agrees := (agrees (W:=W)).

Lemma total_ret {A} (a : A) : total (ret a : M A).
Proof. by intros s. Qed.

Lemma total_fail {A} (e : error) : total (fail e : M A).
Proof. by intros s. Qed.

Lemma total_must {A} (x : ext A) : total (must x : M A).
Proof. by destruct x; intros s. Qed.

Lemma total_defer (d : deferred) : total (defer d : M unit).
Proof. by intros s. Qed.

Lemma total_perform {A} (op : W → A * W) ev : total (perform op ev).
Proof. intros s. unfold perform. by destruct (op (world s)). Qed.

Lemma bind_returns {A B} (m : M A) (k : A → M B) s :
  (m s).1 ≠ OutOfFuel →
  (∀ a s1, m s = (Ok a, s1) → (k a s1).1 ≠ OutOfFuel) →
  (bind m k s).1 ≠ OutOfFuel.
Proof.
  intros Hm Hk. unfold bind. destruct (m s) as [[a|e|] s1]; simpl in *; eauto.
Qed.

Lemma total_bind {A B} (m : M A) (k : A → M B) :
  total m → (∀ a, total (k a)) → total (bind m k).
Proof. intros Hm Hk s. apply bind_returns; [apply Hm|]. intros. apply Hk. Qed.

Lemma total_call {A} (op : W → ext A * W) : total (call op).
Proof. apply total_bind; [apply total_perform|]. intros. apply total_must. Qed.

Lemma total_scope {A} (body : M A) : total body → total (scope E body).
Proof.
  intros Hb s. unfold scope.
  specialize (Hb {| world := world s; trace := trace s; defers := [] |}).
  by destruct (body _) as [[a|e|] s1].
Qed.

Lemma total_safePath base path : total (safePath E base path).
Proof. apply total_call. Qed.

Lemma total_isGet i : total (isGet E i).
Proof. apply total_bind; [apply total_perform|]. intros. apply total_must. Qed.

Lemma total_isCreate c : total (isCreate E c).
Proof. apply total_bind; [apply total_perform|]. intros. apply total_must. Qed.

Lemma total_isSetParent i p : total (isSetParent E i p).
Proof. apply total_bind; [apply total_perform|]. intros. apply total_must. Qed.

Lemma total_loadLayer filename rootFS ident foreignSrc po :
  total (loadLayer E filename rootFS ident foreignSrc po).
Proof.
  apply total_scope.
  apply total_bind; [apply total_call|]. intros rawTar.
  apply total_bind; [apply total_defer|]. intros _.
  apply total_bind.
  { destruct po; [|apply total_ret].
    apply total_bind; [apply total_call|]. intros. apply total_ret. }
  intros _. apply total_bind; [apply total_call|]. intros inflated.
  apply total_bind; [apply total_defer|]. intros _.
  apply total_bind; [|intros; apply total_must].
  destruct (isDescribableStore E); apply total_perform.
Qed.

Lemma agrees_refl {A} (m : M A) : agrees m m.
Proof. by intros s x s' H _. Qed.

Lemma agrees_bind {A B} (m1 m2 : M A) (k1 k2 : A → M B) :
  agrees m1 m2 → (∀ a, agrees (k1 a) (k2 a)) → agrees (bind m1 k1) (bind m2 k2).
Proof.
  intros Hm Hk s x s' Hrun Hx. unfold bind in *.
  destruct (m1 s) as [[a|e|] s1] eqn:E1.
  - rewrite (Hm _ _ _ E1) by done. by apply Hk.
  - rewrite (Hm _ _ _ E1) by done. done.
  - injection Hrun as <- <-. done.
Qed.

(** The body, with the parent loop left open. *)

Lemma legacyLoadImage_body_agrees rp1 rp2 oldID sourceDir lm po :
  (∀ p lm', agrees (rp1 p lm') (rp2 p lm')) →
  agrees (legacyLoadImage_body E rp1 oldID sourceDir lm po)
         (legacyLoadImage_body E rp2 oldID sourceDir lm po).
Proof.
  intros Hrp. unfold legacyLoadImage_body.
  destruct (lm !! oldID); [apply agrees_refl|].
  apply agrees_bind; [apply agrees_refl|]. intros configPath.
  apply agrees_bind; [apply agrees_refl|]. intros imageJSON.
  apply agrees_bind; [apply agrees_refl|]. intros imgParent.
  apply agrees_bind; [|intros; apply agrees_refl].
  destruct (negb _); [apply Hrp|apply agrees_refl].
Qed.

Lemma legacyLoadImage_body_loaded rp oldID sourceDir lm po s lm' s' :
  legacyLoadImage_body E rp oldID sourceDir lm po s = (Ok lm', s') →
  is_Some (lm' !! oldID).
Proof.
  unfold legacyLoadImage_body. destruct (lm !! oldID) as [i|] eqn:Hl.
  - intros [= <- <-]. by rewrite Hl.
  - intros H.
    apply bind_Ok_inv in H as (configPath & s1 & _ & H).
    apply bind_Ok_inv in H as (imageJSON & s2 & _ & H).
    apply bind_Ok_inv in H as (imgParent & s3 & _ & H).
    apply bind_Ok_inv in H as ([parent_id lm1] & s4 & _ & H).
    apply bind_Ok_inv in H as ([rootFS history] & s5 & _ & H).
    apply bind_Ok_inv in H as (layerPath & s6 & _ & H).
    apply bind_Ok_inv in H as (newLayer & s7 & _ & H).
    apply bind_Ok_inv in H as (h & s8 & _ & H).
    apply bind_Ok_inv in H as (config & s9 & _ & H).
    apply bind_Ok_inv in H as (imgid & s10 & _ & H).
    apply bind_Ok_inv in H as (x & s11 & _ & H).
    apply bind_Ok_inv in H as (? & s12 & _ & H).
    apply bind_Ok_inv in H as (? & s13 & _ & H).
    injection H as <- <-. rewrite lookup_insert_eq. eauto.
Qed.

Lemma legacyLoadImage_body_returns rp oldID sourceDir lm po s :
  (∀ p s', readsParent E sourceDir oldID p → p ≠ "" → (rp p lm s').1 ≠ OutOfFuel) →
  (legacyLoadImage_body E rp oldID sourceDir lm po s).1 ≠ OutOfFuel.
Proof.
  intros Hrp. unfold legacyLoadImage_body.
  destruct (lm !! oldID); [done|].
  apply bind_returns; [apply total_safePath|]. intros configPath s1 H1.
  apply bind_returns; [apply total_call|]. intros imageJSON s2 H2.
  apply bind_returns; [apply total_must|]. intros imgParent s3 H3.
  assert (Hp : unmarshalParent E imageJSON = Got imgParent ∧ s3 = s2).
  { destruct (unmarshalParent E imageJSON); unfold must, ret, fail in H3;
      [by injection H3 as <- <-|done]. }
  destruct Hp as [Hp ->].
  apply bind_returns.
  { destruct (String.eqb_spec imgParent ""); simpl; [done|].
    apply Hrp; [|done]. by exists s, s1, s2, configPath, imageJSON. }
  intros [parent_id lm1] s4 _.
  apply bind_returns.
  { destruct (negb _); [|done].
    apply total_bind; [apply total_isGet|]. intros. apply total_ret. }
  intros [rootFS history] s5 _.
  apply bind_returns; [apply total_safePath|]. intros layerPath s6 _.
  apply bind_returns; [apply total_loadLayer|]. intros newLayer s7 _.
  apply bind_returns; [apply total_must|]. intros h s8 _.
  apply bind_returns; [apply total_must|]. intros config s9 _.
  apply bind_returns; [apply total_isCreate|]. intros imgid s10 _.
  apply bind_returns; [apply total_perform|]. intros x s11 _.
  apply bind_returns; [apply total_must|]. intros ? s12 _.
  apply bind_returns; [|done].
  destruct (negb _); [apply total_isSetParent|done].
Qed.

Lemma bind_OutOfFuel {A B} (m : M A) (k : A → M B) s s' :
  m s = (OutOfFuel, s') → bind m k s = (OutOfFuel, s').
Proof. unfold bind. by intros ->. Qed.

(** When the parent loop does not return, the call does not either. *)
Lemma legacyLoadImage_body_OutOfFuel rp oldID sourceDir lm po s
    configPath imageJSON p s1 s2 s3 :
  lm !! oldID = None →
  safePath E sourceDir (pathJoin E [oldID; legacyConfigFileName E]) s
    = (Ok configPath, s1) →
  call (ReadFile E configPath) s1 = (Ok imageJSON, s2) →
  unmarshalParent E imageJSON = Got p →
  p ≠ "" →
  rp p lm s2 = (OutOfFuel, s3) →
  legacyLoadImage_body E rp oldID sourceDir lm po s = (OutOfFuel, s3).
Proof.
  intros Hl H1 H2 H3 Hne Hrp. unfold legacyLoadImage_body. rewrite Hl.
  rewrite (bind_Ok _ _ _ _ _ H1), (bind_Ok _ _ _ _ _ H2), H3.
  unfold must at 1. unfold bind at 1, ret at 1.
  apply bind_OutOfFuel.
  by destruct (String.eqb_spec p "").
Qed.

(** More fuel does not change what a call returns. *)
Lemma legacyLoadImage_fuel_S (fuel : nat) (sourceDir : string) (po : bool) :
  (∀ oldID lm, agrees (legacyLoadImage E fuel oldID sourceDir lm po)
                      (legacyLoadImage E (S fuel) oldID sourceDir lm po)) ∧
  (∀ p lm, agrees (legacyLoadImage_parent E fuel p sourceDir lm po)
                  (legacyLoadImage_parent E (S fuel) p sourceDir lm po)).
Proof.
  induction fuel as [|fuel [IH1 IH2]].
  - split; intros ? ? s x s' [= <- <-] Hx; done.
  - split.
    + intros oldID lm.
      change (agrees
        (legacyLoadImage_body E
           (λ p lm', legacyLoadImage_parent E fuel p sourceDir lm' po)
           oldID sourceDir lm po)
        (legacyLoadImage_body E
           (λ p lm', legacyLoadImage_parent E (S fuel) p sourceDir lm' po)
           oldID sourceDir lm po)).
      apply legacyLoadImage_body_agrees. intros p lm'. apply IH2.
    + intros p lm.
      change (agrees
        (match lm !! p with
         | Some parent_id => ret (parent_id, lm)
         | None => bind (legacyLoadImage E fuel p sourceDir lm po)
                     (λ lm', legacyLoadImage_parent E fuel p sourceDir lm' po)
         end)
        (match lm !! p with
         | Some parent_id => ret (parent_id, lm)
         | None => bind (legacyLoadImage E (S fuel) p sourceDir lm po)
                     (λ lm', legacyLoadImage_parent E (S fuel) p sourceDir lm' po)
         end)).
      destruct (lm !! p); [apply agrees_refl|].
      apply agrees_bind; [apply IH1|]. intros lm'. apply IH2.
Qed.

Lemma legacyLoadImage_fuel_le (f1 f2 : nat) oldID sourceDir lm po :
  f1 ≤ f2 →
  agrees (legacyLoadImage E f1 oldID sourceDir lm po)
         (legacyLoadImage E f2 oldID sourceDir lm po).
Proof.
  induction 1 as [|f2 _ IH]; [apply agrees_refl|].
  intros s x s' Hrun Hx.
  apply (proj1 (legacyLoadImage_fuel_S f2 sourceDir po)); [|done]. by apply IH.
Qed.

Lemma legacyLoadImage_loaded fuel oldID sourceDir lm po s lm' s' :
  legacyLoadImage E fuel oldID sourceDir lm po s = (Ok lm', s') →
  is_Some (lm' !! oldID).
Proof.
  destruct fuel; [done|]. apply legacyLoadImage_body_loaded.
Qed.

Section Ranked.
Context (rank : string → nat) (sourceDir : string) (po : bool).
Hypothesis rank_parent :
  ∀ oldID p, readsParent E sourceDir oldID p → p ≠ "" → rank p < rank oldID.

Lemma legacyLoadImage_returns_rank (n : nat) :
  ∀ oldID fuel lm s,
    rank oldID ≤ n → 2 * n + 1 ≤ fuel →
    (legacyLoadImage E fuel oldID sourceDir lm po s).1 ≠ OutOfFuel.
Proof.
  induction n as [n IH] using lt_wf_ind.
  intros oldID fuel lm s Hr Hf.
  destruct fuel as [|fuel]; [lia|].
  change ((legacyLoadImage_body E
             (λ p lm', legacyLoadImage_parent E fuel p sourceDir lm' po)
             oldID sourceDir lm po s).1 ≠ OutOfFuel).
  apply legacyLoadImage_body_returns. intros p s' Hp Hne.
  pose proof (rank_parent _ _ Hp Hne) as Hlt.
  destruct fuel as [|fuel]; [lia|].
  change ((match lm !! p with
           | Some parent_id => ret (parent_id, lm)
           | None => bind (legacyLoadImage E fuel p sourceDir lm po)
                       (λ lm', legacyLoadImage_parent E fuel p sourceDir lm' po)
           end s').1 ≠ OutOfFuel).
  destruct (lm !! p); [done|].
  apply bind_returns.
  - apply (IH (rank p)); lia.
  - intros lm1 s1 Hrun.
    apply legacyLoadImage_loaded in Hrun as [pid Hpid].
    destruct fuel as [|fuel]; [lia|].
    change ((match lm1 !! p with
             | Some parent_id => ret (parent_id, lm1)
             | None => bind (legacyLoadImage E fuel p sourceDir lm1 po)
                         (λ lm', legacyLoadImage_parent E fuel p sourceDir lm' po)
             end s1).1 ≠ OutOfFuel).
    by rewrite Hpid.
Qed.

End Ranked.

(** C5, as the code has it: a call for a legacy id that is already in the
    map returns at once and changes nothing; when the parent pointers of
    the archive descend along a rank (no cycle), a call returns, with the
    same result for every allowance of at least twice the rank of the id
    plus one. *)
Theorem legacyLoadImage_terminates_ranked (rank : string → nat)
    (sourceDir : string) (po : bool)
    (oldID : string) (lm : gmap string ImageID) (s : state W) :
  (∀ oldID p, readsParent E sourceDir oldID p → p ≠ "" → rank p < rank oldID) →
  (∀ fuel, is_Some (lm !! oldID) →
     legacyLoadImage E (S fuel) oldID sourceDir lm po s = (Ok lm, s)) ∧
  ∃ x s', x ≠ OutOfFuel ∧
    ∀ fuel, 2 * rank oldID + 1 ≤ fuel →
      legacyLoadImage E fuel oldID sourceDir lm po s = (x, s').
Proof.
  intros Hrank. split.
  - intros fuel [i Hi].
    change (legacyLoadImage_body E
              (λ p lm', legacyLoadImage_parent E fuel p sourceDir lm' po)
              oldID sourceDir lm po s = (Ok lm, s)).
    unfold legacyLoadImage_body. by rewrite Hi.
  - pose proof (legacyLoadImage_returns_rank rank sourceDir po Hrank (rank oldID)
                  oldID (2 * rank oldID + 1) lm s ltac:(lia) ltac:(lia)) as Hret.
    destruct (legacyLoadImage E (2 * rank oldID + 1) oldID sourceDir lm po s)
      as [x s'] eqn:Hrun.
    exists x, s'. split; [done|]. intros fuel Hf.
    by apply (legacyLoadImage_fuel_le (2 * rank oldID + 1) fuel).
Qed.

End LegacyFacts.

(** ** [squashfsMount] *)

Module AufsFacts.
Import Aufs.

Lemma prefix_app (s t : string) : String.prefix s (s +:+ t) = true.
Proof.
  induction s as [|c s IH]; simpl; [by destruct t|].
  destruct (Ascii.ascii_dec c c); [exact IH|done].
Qed.

Lemma Contains_prefix (s substr : string) :
  String.prefix substr s = true → Contains s substr = true.
Proof. intros H. destruct s; cbn [Contains]; by rewrite H. Qed.

Lemma Contains_app_r (s t substr : string) :
  Contains t substr = true → Contains (s +:+ t) substr = true.
Proof.
  intros H. induction s as [|c s IH]; [done|].
  change (String c s +:+ t) with (String c (s +:+ t)). cbn [Contains].
  rewrite IH. apply orb_true_r.
Qed.

Lemma append_assoc (s t u : string) : (s +:+ t) +:+ u = s +:+ (t +:+ u).
Proof.
  induction s as [|c s IH]; [done|].
  change (String c ((s +:+ t) +:+ u) = String c (s +:+ (t +:+ u))).
  by rewrite IH.
Qed.

Lemma Contains_simLine (m : string * string) (rest : string) :
  Contains (simLine m +:+ rest) (snd m) = true.
Proof.
  unfold simLine. rewrite !append_assoc.
  apply Contains_app_r, Contains_app_r, Contains_prefix, prefix_app.
Qed.

Lemma Contains_listing (mounts : list (string * string)) (m : string * string) :
  Contains (foldr (λ m out, simLine m +:+ out) "" (mounts ++ [m])) (snd m) = true.
Proof.
  induction mounts as [|m' mounts IH]; simpl.
  - apply Contains_simLine.
  - by apply Contains_app_r.
Qed.

(** One call on the small operating system, for a layer whose squashfs
    file exists. *)
Lemma squashfsMount_sim (a : Driver) (name : string) (st : run simWorld) :
  let source := pathJoin simOS [rootPath a; "squashfs"; name] in
  let layer := pathJoin simOS [rootPath a; "diff"; name] in
  source ∈ simFiles (os_world st) →
  squashfsMount simOS a name st
  = if Contains (listing (simMounts (os_world st))) layer
    then (None, {| os_world := os_world st; commands := commands st ++ [["mount"]] |})
    else (None,
          {| os_world := {| simFiles := simFiles (os_world st);
                            simMounts := simMounts (os_world st) ++ [(source, layer)] |};
             commands := commands st ++ [["mount"]; mountSquashfs source layer] |}).
Proof.
  intros source layer Hin. unfold squashfsMount, command. fold source. fold layer.
  assert (Stat simOS source (os_world st) = (Got tt, os_world st)) as ->.
  { simpl. by rewrite bool_decide_eq_true_2. }
  cbn [os_world commands].
  assert (Output simOS ["mount"] (os_world st)
          = (Got (listing (simMounts (os_world st))), os_world st)) as -> by done.
  destruct (Contains (listing (simMounts (os_world st))) layer); cbn [negb]; [done|].
  cbn [os_world commands].
  assert (Output simOS ["mount"; "-t"; "squashfs"; source; layer] (os_world st)
          = (Got "", {| simFiles := simFiles (os_world st);
                        simMounts := simMounts (os_world st) ++ [(source, layer)] |}))
    as -> by done.
  cbn [os_world commands]. by rewrite <- app_assoc.
Qed.

(** On the small operating system: two calls in a row for a layer whose
    squashfs file exists run at most one squashfs mount, the second call
    only lists the mounts, and both return nil. *)
Lemma squashfsMount_twice (a : Driver) (name : string) (st : run simWorld) :
  let source := pathJoin simOS [rootPath a; "squashfs"; name] in
  source ∈ simFiles (os_world st) →
  ∃ st1 st2,
    squashfsMount simOS a name st = (None, st1) ∧
    squashfsMount simOS a name st1 = (None, st2) ∧
    commands st2 = commands st1 ++ [["mount"]].
Proof.
  intros source Hin.
  set (layer := pathJoin simOS [rootPath a; "diff"; name]).
  rewrite (squashfsMount_sim a name st Hin). fold source. fold layer.
  destruct (Contains (listing (simMounts (os_world st))) layer) eqn:Ec.
  - eexists _, _. split; [done|].
    rewrite (squashfsMount_sim a name
               {| os_world := os_world st; commands := commands st ++ [["mount"]] |} Hin).
    fold source. fold layer. cbn [os_world]. by rewrite Ec.
  - eexists _, _. split; [done|].
    rewrite (squashfsMount_sim a name
               {| os_world := {| simFiles := simFiles (os_world st);
                                 simMounts := simMounts (os_world st)
                                              ++ [(source, layer)] |};
                  commands := commands st ++ [["mount"]; mountSquashfs source layer] |}
               Hin).
    fold source. fold layer. cbn [os_world simMounts].
    pose proof (Contains_listing (simMounts (os_world st)) (source, layer)) as Hc.
    unfold listing. cbn [snd] in Hc. by rewrite Hc.
Qed.

(** C10: when [os.Stat] of the squashfs file fails, [squashfsMount]
    returns nil and runs no command; when the file is there and the
    output of [mount] already contains the diff path of the layer, it
    returns nil after that one listing, with no squashfs mount; when the
    output does not contain the path it runs the squashfs mount once and
    returns its error, or nil; and a squashfs mount among the commands of
    a call means that the file was there and the listing lacked the
    path. *)
Theorem squashfsMount_mounts_unless_listed {W : Type} (o : OS W) (a : Driver)
    (name : string) (st : run W) :
  let source := pathJoin o [rootPath a; "squashfs"; name] in
  let layer := pathJoin o [rootPath a; "diff"; name] in
  (∀ e w, Stat o source (os_world st) = (Failed e, w) →
     squashfsMount o a name st
     = (None, {| os_world := w; commands := commands st |})) ∧
  (∀ u w out w',
     Stat o source (os_world st) = (Got u, w) →
     Output o ["mount"] w = (Got out, w') →
     Contains out layer = true →
     squashfsMount o a name st
     = (None, {| os_world := w'; commands := commands st ++ [["mount"]] |})) ∧
  (∀ u w out w',
     Stat o source (os_world st) = (Got u, w) →
     Output o ["mount"] w = (Got out, w') →
     Contains out layer = false →
     ∃ x w'', Output o (mountSquashfs source layer) w' = (x, w'') ∧
       squashfsMount o a name st
       = (match x with Got _ => None | Failed err => Some err end,
          {| os_world := w'';
             commands := commands st ++ [["mount"]; mountSquashfs source layer] |})) ∧
  (mountSquashfs source layer
     ∈ drop (length (commands st)) (commands (squashfsMount o a name st).2) →
   ∃ u w out w',
     Stat o source (os_world st) = (Got u, w) ∧
     Output o ["mount"] w = (Got out, w') ∧
     Contains out layer = false).
Proof.
  intros source layer. unfold squashfsMount, command. fold source. fold layer.
  split; [|split; [|split]].
  - intros e w ->. done.
  - intros u w out w' -> . simpl. intros -> ->. done.
  - intros u w out w' ->. simpl. intros -> ->. simpl.
    destruct (Output o ["mount"; "-t"; "squashfs"; source; layer] w')
      as [x w''] eqn:Em.
    exists x, w''. split; [exact Em|]. destruct x; simpl; by rewrite <- app_assoc.
  - destruct (Stat o source (os_world st)) as [[u|e] w] eqn:Es; simpl.
    2: { rewrite drop_all. intros H. by apply elem_of_nil in H. }
    destruct (Output o ["mount"] w) as [[out|err] w'] eqn:El; simpl.
    2: { rewrite drop_app_length. intros H. apply list_elem_of_singleton in H.
         discriminate. }
    destruct (Contains out layer) eqn:Ec; simpl.
    + rewrite drop_app_length. intros H. apply list_elem_of_singleton in H.
      discriminate.
    + intros _. by exists u, w, out, w'.
Qed.

Lemma squashfsMount_mounts_unless_listed_witness :
  squashfsMount simOS Fixtures.aufsRoot "l1" Fixtures.mounted
  = (None, {| os_world := os_world Fixtures.mounted; commands := [["mount"]] |}).
Proof.
  destruct (squashfsMount_mounts_unless_listed simOS Fixtures.aufsRoot "l1"
              Fixtures.mounted) as (_ & H & _).
  exact (H tt (os_world Fixtures.mounted)
           ("/var/squashfs/l1 on /var/diff/l1 type squashfs (ro)" +:+ nl)
           (os_world Fixtures.mounted) eq_refl eq_refl eq_refl).
Defined.

End AufsFacts.

(** ** Runs on the in-memory engine *)

Module Runs.
Import Sim Fixtures.

Lemma assoc_elem_of {A} (k : string) (l : list (string * A)) (a : A) :
  assoc k l = Some a → a ∈ l.*2.
Proof.
  induction l as [|[k' a'] l IH]; simpl; [done|].
  destruct (String.eqb k k').
  - intros [= ->]. set_solver.
  - intros H. set_solver.
Qed.

(** *** The manifest loader *)

(** C4 on a manifest of two images, the first tagged and the second not:
    the load ends well, and after the tag of the first image was set it
    still writes the "Loaded image ID" lines of both images. *)
Lemma Load_writes_ids_after_tagged_image :
  let '(res, s) := Load (collab fxTagged) 1 tarStream true start in
  res = Ok tt ∧
  trace s =
    [ EvUntar (Bufio.remaining tarStream) dir;
      EvIsCreate "cfgA" (Got "img:cfgA");
      EvRsAddTag {| Name := "busybox"; Tag := Some "latest" |} "img:cfgA";
      EvWrite ("Loaded image: busybox:latest" +:+ nl);
      EvLogImageEvent "img:cfgA";
      EvIsCreate "cfgB" (Got "img:cfgB");
      EvLogImageEvent "img:cfgB";
      EvWrite ("Loaded image ID: img:cfgA" +:+ nl
               +:+ "Loaded image ID: img:cfgB" +:+ nl);
      EvRemoveAll dir ].
Proof. vm_compute. split; reflexivity. Qed.

Lemma loadManifest_diffID_mismatch_aborts_witness :
  (loadManifest (collab fxMismatch) dir false [oneLayer] start).1
  = Err (ErrInvalidDiffID (Some 0) "sha256:good" "sha256:evil").
Proof.
  pose proof (loadManifest_diffID_mismatch_aborts (collab fxMismatch) dir false
    [] [] oneLayer ([], "", 0) start start start start start start
    (obtainLayer (collab fxMismatch) oneLayer false "/docker-import-1/l1.tar"
       "sha256:good" {| Type_ := "layers"; DiffIDs := [] |} start).2
    "/docker-import-1/a.json" "cfgA" claimsGood [] [] "sha256:good"
    {| Type_ := "layers"; DiffIDs := [] |} "l1.tar" "/docker-import-1/l1.tar"
    evilLayer eq_refl eq_refl eq_refl eq_refl eq_refl eq_refl eq_refl eq_refl
    eq_refl eq_refl ltac:(discriminate)) as [H _].
  exact (f_equal fst H).
Defined.

Lemma setParentID_commits_iff_valid_witness :
  setParentID (collab fxFamily) "img:cfgChild" "img:cfgParent" family
  = (Ok tt,
     {| world := {| wLayers := []; wHeld := [];
                    wImages := [("img:cfgChild", "cfgChild");
                                ("img:cfgParent", "cfgParent")];
                    wParents := [("img:cfgChild", "img:cfgParent")];
                    wTags := []; wRenamed := [] |};
        trace := [EvIsGet "img:cfgChild"; EvIsGet "img:cfgParent";
                  EvIsSetParent "img:cfgChild" "img:cfgParent"];
        defers := [] |}).
Proof.
  refine (proj1 (setParentID_commits_iff_valid (collab fxFamily) family
                   "img:cfgChild" "img:cfgParent")
            {| imgID := "img:cfgChild"; imgRootFS := NewRootFS;
               imgHistory := [entry] |}
            {| imgID := "img:cfgParent";
               imgRootFS := {| Type_ := "layers"; DiffIDs := [] |};
               imgHistory := [] |}
            (world family) (world family) (Got tt) _ eq_refl eq_refl _ eq_refl).
  right. split; [reflexivity|]. intros i h Hi. simpl in Hi.
  by rewrite lookup_nil in Hi.
Defined.

(** *** The single-blob loader *)

(** C3 on a squashfs stream: the load ends well, renames the blob to the
    storage key of the layer and creates one image, and the config of that
    image is the marshalled image whose RootFS has two DiffIDs, an empty
    one and the DiffID of the one-entry archive. *)
Lemma Load_squashfs_image_has_two_diffIDs :
  let '(res, s) := Load (collab fxSquash) 1 squashStream true start in
  res = Ok tt ∧
  omap (λ ev, match ev with EvIsCreate c x => Some (c, x) | _ => None end) (trace s)
    = [(",sha256:SQUASHFS", Got "img:,sha256:SQUASHFS")] ∧
  jsonMarshal (collab fxSquash)
    {| imgID := "";
       imgRootFS := {| Type_ := "layers"; DiffIDs := [""; "sha256:SQUASHFS"] |};
       imgHistory := [] |} = Got ",sha256:SQUASHFS" ∧
  wRenamed (world s)
    = [("/var/lib/docker/aufs/squashfs/import-0000",
        "/var/lib/docker/aufs/squashfs/cache-sha256:SQUASHFS")].
Proof. vm_compute. repeat split; reflexivity. Qed.

(** *** [Load] *)

(** C9 fails on a stream of three bytes: they are not the squashfs magic,
    and [Load] returns the error of [Peek] without unpacking anything. *)
Lemma Load_short_stream_not_unpacked :
  let '(res, s) := Load (collab fxNone) 1 shortStream true start in
  take 4 (Bufio.remaining shortStream) ≠ squashfsMagic ∧
  res = Err (ErrPeek Bufio.EOF) ∧
  trace s = [EvRemoveAll dir].
Proof. vm_compute. repeat split; [discriminate|reflexivity..]. Qed.

Lemma Load_dispatch_witness :
  ∃ reader,
    fst (readAll copyBufSize reader) = Bufio.remaining squashStream ∧
    Load (collab fxSquash) 1 squashStream true start
    = scope (collab fxSquash)
        (defer (DRemoveAll dir) ;;; loadSquashFS (collab fxSquash) reader dir false)
        start.
Proof.
  destruct (Load_dispatch (collab fxSquash) 1 squashStream true start dir emptyWorld
              eq_refl) as [_ H].
  destruct (H ltac:(simpl; lia)) as (reader & _ & Hall & Hsq & _).
  exists reader. split; [exact Hall|]. exact (Hsq eq_refl).
Defined.

(** *** The legacy loader *)

(** C6 on a legacy archive whose config yields no history entry: the
    layer is registered, [legacyLoadImage] returns the error, and the
    store still holds the reference: no release was called. *)
Lemma legacyLoadImage_leaks_layer_on_error :
  let '(res, s) := Load (collab fxBadHistoryArchive) 1 tarStream true start in
  res = Err (ErrExt (EOther "parsing time")) ∧
  trace s =
    [ EvUntar (Bufio.remaining tarStream) dir;
      EvLsRegister "/docker-import-1/a/layer.tar" ""
        (Got {| layerChainID := "sha256:tarA"; layerDiffID := "sha256:tarA" |});
      EvRemoveAll dir ] ∧
  wHeld (world s) = [ {| layerChainID := "sha256:tarA"; layerDiffID := "sha256:tarA" |} ].
Proof. vm_compute. repeat split; reflexivity. Qed.

Lemma cycle_never_returns (fuel : nat) :
  legacyLoadImage (collab fxCycle) fuel "a" dir ∅ false start = (OutOfFuel, start) ∧
  legacyLoadImage_parent (collab fxCycle) fuel "a" dir ∅ false start
  = (OutOfFuel, start).
Proof.
  induction fuel as [|fuel [IH1 IH2]]; [done|]. split.
  - change (legacyLoadImage_body (collab fxCycle)
              (λ p lm', legacyLoadImage_parent (collab fxCycle) fuel p dir lm' false)
              "a" dir ∅ false start = (OutOfFuel, start)).
    by apply (legacyLoadImage_body_OutOfFuel (collab fxCycle) _ "a" dir ∅ false start
                "/docker-import-1/a/json" "jsonA" "a" start start start).
  - change ((match (∅ : gmap string ImageID) !! "a" with
             | Some parent_id => ret (parent_id, ∅)
             | None =>
                 bind (legacyLoadImage (collab fxCycle) fuel "a" dir ∅ false)
                   (λ lm', legacyLoadImage_parent (collab fxCycle) fuel "a" dir lm' false)
             end) start = (OutOfFuel, start)).
    rewrite lookup_empty. by apply bind_OutOfFuel.
Qed.

(** C5 fails on a legacy image that names itself as its parent: whatever
    the allowance, [legacyLoadImage] does not return. *)
Lemma legacyLoadImage_cycle_never_returns :
  ¬ ∃ fuel,
      (legacyLoadImage (collab fxCycle) fuel "a" dir ∅ false start).1 ≠ OutOfFuel.
Proof.
  intros [fuel H]. apply H. by rewrite (proj1 (cycle_never_returns fuel)).
Qed.

Lemma chainRank_parent (oldID p : string) :
  readsParent (collab fxChain) dir oldID p → p ≠ "" → chainRank p < chainRank oldID.
Proof.
  intros (s & s1 & s2 & configPath & json & H1 & H2 & H3) Hne.
  assert (Hc : configPath = join [dir; join [oldID; "json"]]).
  { unfold safePath, call, bind, perform, must, ret in H1.
    cbn [collab FollowSymlinkInScope pathJoin legacyConfigFileName] in H1.
    by injection H1 as <- _. }
  subst configPath.
  unfold call, bind, perform, must, ret, fail in H2.
  cbn [collab ReadFile] in H2. unfold readFile in H2.
  destruct (assoc (join [dir; join [oldID; "json"]]) (fxFiles fxChain))
    as [content|] eqn:Ha; [|done].
  injection H2 as -> _.
  unfold chainRank. rewrite Ha.
  apply assoc_elem_of in Ha. cbn in Ha.
  repeat (apply elem_of_cons in Ha as [->|Ha]);
    try (by apply elem_of_nil in Ha);
    vm_compute in H3; injection H3 as <-; (done || (vm_compute; lia)).
Qed.

Lemma legacyLoadImage_terminates_ranked_witness :
  ∃ x s', x ≠ OutOfFuel ∧
    ∀ fuel, 5 ≤ fuel →
      legacyLoadImage (collab fxChain) fuel "a" dir ∅ false start = (x, s').
Proof.
  exact (proj2 (legacyLoadImage_terminates_ranked (collab fxChain) chainRank dir
                  false "a" ∅ start chainRank_parent)).
Defined.

End Runs.

(** * Further properties of the code *)

(** ** The parent-link validator, further *)

Lemma hasParentIn_validated (q : parentLink) (pl0 pl : list parentLink) :
  hasParentIn q (map (validated pl0) pl) = hasParentIn q pl.
Proof.
  induction pl as [|p pl IH]; [done|].
  assert (Hid : id (validated pl0 p) = id p).
  { unfold validated. by destruct (hasParentIn p pl0). }
  cbn [map hasParentIn]. by rewrite Hid, IH.
Qed.

(** X1: Validating a validated batch changes nothing. *)
Theorem validatedParentLinks_idempotent (pl : list parentLink) :
  validatedParentLinks (validatedParentLinks pl) = validatedParentLinks pl.
Proof.
  rewrite !validatedParentLinks_map.
  change (map (validated (map (validated pl) pl)) (map (validated pl) pl))
    with (validated (map (validated pl) pl) <$> (validated pl <$> pl)).
  rewrite <- list_fmap_compose. apply list_fmap_ext. intros i p _. simpl.
  unfold validated at 1. rewrite hasParentIn_validated.
  unfold validated. destruct (hasParentIn p pl) eqn:Hp.
  - by rewrite Hp.
  - by destruct (hasParentIn (clearParent p) pl).
Qed.

(** X2: Every parent that survives the validation is the id of another link of
    the validated batch; so no link comes out as its own parent. *)
Theorem validatedParentLinks_parents_in_batch (pl : list parentLink) (q : parentLink) :
  q ∈ validatedParentLinks pl →
  parentID q ≠ "" →
  parentID q ≠ id q ∧
  ∃ q2, q2 ∈ validatedParentLinks pl ∧ id q2 = parentID q ∧ id q2 ≠ id q.
Proof.
  rewrite validatedParentLinks_map.
  change (map (validated pl) pl) with (validated pl <$> pl).
  intros Hq Hne. apply list_elem_of_fmap in Hq as (p & -> & Hp).
  unfold validated in *. destruct (hasParentIn p pl) eqn:Hh; [|done].
  apply hasParentIn_spec in Hh as (p2 & Hin & H1 & H2).
  split; [congruence|].
  exists (if hasParentIn p2 pl then p2 else clearParent p2). split.
  - apply list_elem_of_fmap. by exists p2.
  - by destruct (hasParentIn p2 pl).
Qed.

Lemma validatedParentLinks_parents_in_batch_witness :
  ∃ q2, q2 ∈ validatedParentLinks
               [ {| id := "A"; parentID := "B" |}; {| id := "B"; parentID := "Z" |} ]
        ∧ id q2 = "B" ∧ id q2 ≠ "A".
Proof.
  exact (proj2 (validatedParentLinks_parents_in_batch
                  [ {| id := "A"; parentID := "B" |}; {| id := "B"; parentID := "Z" |} ]
                  {| id := "A"; parentID := "B" |}
                  ltac:(vm_compute; apply list_elem_of_here) ltac:(discriminate))).
Defined.

(** ** The structural validity of a parent, further *)

Lemma checkValidParent_appends (img parent : Image) :
  checkValidParent img parent = true ↔
  (imgHistory img = [] ∧ imgHistory parent = []) ∨
  ∃ h, imgHistory img = imgHistory parent ++ [h].
Proof.
  rewrite checkValidParent_spec. unfold validParent.
  split; (intros [Hnil|H]; [by left|right]).
  - destruct H as [Hlen Hpre].
    assert (Himg : imgHistory img
                   = imgHistory parent ++ drop (length (imgHistory parent)) (imgHistory img)).
    { apply list_eq. intros i.
      destruct (decide (i < length (imgHistory parent))) as [Hi|Hi].
      - rewrite lookup_app_l by done.
        destruct (lookup_lt_is_Some_2 _ _ Hi) as [h Hh].
        by rewrite Hh, (Hpre _ _ Hh).
      - rewrite lookup_app_r by lia. rewrite lookup_drop. f_equal. lia. }
    destruct (drop (length (imgHistory parent)) (imgHistory img)) as [|h [|h' rest]] eqn:Hd.
    + rewrite Himg, length_app in Hlen. simpl in Hlen. lia.
    + by exists h.
    + rewrite Himg, length_app in Hlen. simpl in Hlen. lia.
  - destruct H as [h Hh]. rewrite Hh. split.
    + rewrite length_app. simpl. lia.
    + intros i h' Hi. by apply lookup_app_l_Some.
Qed.

(** X3: [checkValidParent] holds exactly when both histories are empty or the
    child's history is the parent's with one entry appended. *)
Theorem checkValidParent_appended (img parent : Image) :
  checkValidParent img parent = true ↔
  (imgHistory img = [] ∧ imgHistory parent = []) ∨
  ∃ h, imgHistory img = imgHistory parent ++ [h].
Proof. apply checkValidParent_appends. Qed.

(** X4: An image is a valid parent of itself only without history, and a valid
    parent of a child with history has one history entry less: parent
    edges between images with history cannot form a cycle. *)
Theorem checkValidParent_shorter (img parent : Image) :
  (checkValidParent img img = true ↔ imgHistory img = []) ∧
  (checkValidParent img parent = true → imgHistory img ≠ [] →
   S (length (imgHistory parent)) = length (imgHistory img)).
Proof.
  split.
  - rewrite checkValidParent_appends. split.
    + intros [[H _]|[h H]]; [done|].
      apply (f_equal length) in H. rewrite length_app in H. simpl in H. lia.
    + intros H. by left.
  - rewrite checkValidParent_appends. intros [[H _]|[h H]] Hne; [done|].
    rewrite H, length_app. simpl. lia.
Qed.

Lemma checkValidParent_shorter_witness :
  S (length (imgHistory Fixtures.noLayers)) = length (imgHistory Fixtures.child).
Proof.
  exact (proj2 (checkValidParent_shorter Fixtures.child Fixtures.noLayers)
           eq_refl ltac:(discriminate)).
Defined.

(** ** The buffered reader, further *)

Lemma Peek_bytesOf (n : nat) (b : Bufio.Reader) :
  Bufio.bytesOf (Bufio.Peek n b).2 = Bufio.bytesOf b ∧
  (Bufio.wf b → Bufio.wf (Bufio.Peek n b).2).
Proof.
  unfold Bufio.Peek.
  pose proof (BufioFacts.peekLoop_bytesOf n n b) as Hb.
  pose proof (BufioFacts.peekLoop_wf n n b) as Hw.
  destruct (Bufio.size _ <? n); [done|].
  destruct (length _ <? n); [|done].
  simpl. split; [exact Hb|]. intros _. by left.
Qed.

(** X5: [Peek] never consumes, whatever it returns: for every count, also one
    that the stream cannot fill, reading the reader to its end afterwards
    yields every byte that was pending before, from the first on. *)
Theorem bufferedReadCloser_Peek_keeps_stream (b : bufferedReadCloser) (n k : nat) :
  Bufio.wf (r b) → 0 < k →
  fst (readAll k (bufferedReadCloser_Peek b n).2) = pending b.
Proof.
  intros Hwf Hk. unfold bufferedReadCloser_Peek.
  destruct (Peek_bytesOf n (r b)) as [Hb Hw].
  destruct (Bufio.Peek n (r b)) as [[bs e] r'] eqn:HP. simpl in *.
  rewrite readAll_pending by (done || by apply Hw). exact Hb.
Qed.

Lemma bufferedReadCloser_Peek_keeps_stream_witness :
  fst (readAll 3 (bufferedReadCloser_Peek
                    {| r := Bufio.NewReader Fixtures.shortStream |} 4).2)
  = Bufio.remaining Fixtures.shortStream.
Proof.
  exact (bufferedReadCloser_Peek_keeps_stream
           {| r := Bufio.NewReader Fixtures.shortStream |} 4 3
           (or_introl eq_refl) ltac:(lia)).
Defined.





(** ** The loaders, further *)

Section LoaderMore.
Context {W : Type} (E : Collab W).

Local Abbreviation M := (M W).
Local Abbreviation emits := (emits (W:=W)).
Local Abbreviation keeps := (keeps (W:=W)).
Local Abbreviation extends := (extends (W:=W)).
Local Abbreviation balanced := (balanced (W:=W)).
Local Abbreviation total := (total (W:=W)).

(** *** What a step returns, by cases *)

Lemma bind_inv {A B} (m : M A) (k : A → M B) s x s' :
  bind m k s = (x, s') →
  (∃ a s1, m s = (Ok a, s1) ∧ k a s1 = (x, s')) ∨
  (∃ e, m s = (Err e, s') ∧ x = Err e) ∨
  (m s = (OutOfFuel, s') ∧ x = OutOfFuel).
Proof.
  unfold bind. destruct (m s) as [[a|e|] s1].
  - intros H. left. eauto.
  - intros [= <- <-]. right. left. eauto.
  - intros [= <- <-]. right. right. eauto.
Qed.

Lemma scope_inv {A} (body : M A) s x s' :
  scope E body s = (x, s') → x ≠ OutOfFuel →
  ∃ s1, body {| world := world s; trace := trace s; defers := [] |} = (x, s1) ∧
        s' = runDefers E (defers s1)
               {| world := world s1; trace := trace s1; defers := defers s |}.
Proof.
  unfold scope. destruct (body _) as [[a|e|] s1] eqn:Eb; intros [= <- <-] Hx;
    [eauto..|done].
Qed.

Lemma runDefers_app ds1 ds2 (s : state W) :
  runDefers E (ds1 ++ ds2) s = runDefers E ds2 (runDefers E ds1 s).
Proof. unfold runDefers. by rewrite foldl_app. Qed.

Lemma runDefers_defers ds (s : state W) : defers (runDefers E ds s) = defers s.
Proof.
  destruct (runDefers_trace E (λ _, True) ds s) as (evs & _ & _ & H); done.
Qed.

(** *** The deferred stack *)

Lemma keeps_ret {A} (a : A) : keeps (ret a : M A).
Proof. by intros s x s' [= <- <-]. Qed.

Lemma keeps_fail {A} (e : error) : keeps (fail e : M A).
Proof. by intros s x s' [= <- <-]. Qed.

Lemma keeps_must {A} (x : ext A) : keeps (must x : M A).
Proof. destruct x; [apply keeps_ret|apply keeps_fail]. Qed.

Lemma keeps_perform {A} (op : W → A * W) ev : keeps (perform op ev).
Proof.
  intros s x s' H _. unfold perform in H. destruct (op (world s)).
  by injection H as <- <-.
Qed.

Lemma keeps_bind {A B} (m : M A) (k : A → M B) :
  keeps m → (∀ a, keeps (k a)) → keeps (bind m k).
Proof.
  intros Hm Hk s x s' H Hx.
  destruct (bind_inv _ _ _ _ _ H) as [(a & s1 & H1 & H2)|[(e & H1 & ->)|[_ ->]]].
  - rewrite (Hk _ _ _ _ H2 Hx). by apply (Hm _ _ _ H1).
  - by apply (Hm _ _ _ H1).
  - done.
Qed.

Lemma keeps_call {A} (op : W → ext A * W) : keeps (call op).
Proof. apply keeps_bind; [apply keeps_perform|]. intros. apply keeps_must. Qed.

Lemma keeps_ignoreErr {A} (m : M A) : keeps m → keeps (ignoreErr m).
Proof.
  intros Hm s x s' H Hx. unfold ignoreErr in H.
  destruct (m s) as [[a|e|] s1] eqn:Em; injection H as <- <-;
    [by apply (Hm _ _ _ Em)..|done].
Qed.

Lemma keeps_forM {X A} (xs : list X) (body : X → A → M A) (a : A) :
  (∀ x a, keeps (body x a)) → keeps (forM xs body a).
Proof.
  intros Hb. revert a. induction xs as [|x xs IH]; intros a; simpl.
  - apply keeps_ret.
  - apply keeps_bind; [apply Hb|]. intros a'. apply IH.
Qed.

Lemma keeps_scope {A} (body : M A) : keeps (scope E body).
Proof.
  intros s x s' H Hx. apply scope_inv in H as (s1 & _ & ->); [|done].
  by rewrite runDefers_defers.
Qed.

Lemma keeps_extends {A} (m : M A) : keeps m → extends m.
Proof.
  intros Hm s x s' H Hx. exists []. by rewrite (Hm _ _ _ H Hx).
Qed.

Lemma extends_bind {A B} (m : M A) (k : A → M B) :
  extends m → (∀ a, extends (k a)) → extends (bind m k).
Proof.
  intros Hm Hk s x s' H Hx.
  destruct (bind_inv _ _ _ _ _ H) as [(a & s1 & H1 & H2)|[(e & H1 & ->)|[_ ->]]].
  - destruct (Hm _ _ _ H1) as [ds1 Hd1]; [done|].
    destruct (Hk _ _ _ _ H2 Hx) as [ds2 Hd2].
    exists (ds2 ++ ds1). by rewrite Hd2, Hd1, app_assoc.
  - by apply (Hm _ _ _ H1).
  - done.
Qed.

Lemma extends_defer (d : deferred) : extends (defer d : M unit).
Proof. intros s x s' [= <- <-] _. by exists [d]. Qed.

Lemma balanced_extends {A} (m : M A) : balanced m → extends m.
Proof.
  intros Hm s x s' H Hx. destruct (Hm _ _ _ H Hx) as (evs & ds & _ & Hd & _).
  by exists ds.
Qed.

(** *** Layer references *)

Lemma acquired_app evs1 evs2 : acquired (evs1 ++ evs2) = acquired evs1 ++ acquired evs2.
Proof. apply omap_app. Qed.

Lemma released_app evs1 evs2 : released (evs1 ++ evs2) = released evs1 ++ released evs2.
Proof. apply omap_app. Qed.

Lemma toRelease_app ds1 ds2 : toRelease (ds1 ++ ds2) = toRelease ds1 ++ toRelease ds2.
Proof. apply omap_app. Qed.

Lemma holdsNothing_all evs :
  Forall holdsNothing evs → acquired evs = [] ∧ released evs = [].
Proof.
  induction 1 as [|ev evs [Ha Hr] _ [IHa IHr]]; [done|].
  change (ev :: evs) with ([ev] ++ evs).
  by rewrite acquired_app, released_app, Ha, Hr, IHa, IHr.
Qed.

Lemma balanced_quiet {A} (m : M A) : keeps m → emits holdsNothing m → balanced m.
Proof.
  intros Hk He s x s' H Hx.
  destruct (He _ _ _ H) as (evs & Ht & Hall).
  destruct (holdsNothing_all _ Hall) as [Ha Hr].
  exists evs, []. by rewrite Ha, Hr, (Hk _ _ _ H Hx).
Qed.

Lemma balanced_bind {A B} (m : M A) (k : A → M B) :
  balanced m → (∀ a, balanced (k a)) → balanced (bind m k).
Proof.
  intros Hm Hk s x s' H Hx.
  destruct (bind_inv _ _ _ _ _ H) as [(a & s1 & H1 & H2)|[(e & H1 & ->)|[_ ->]]].
  - destruct (Hm _ _ _ H1) as (evs1 & ds1 & Ht1 & Hd1 & Hp1); [done|].
    destruct (Hk _ _ _ _ H2 Hx) as (evs2 & ds2 & Ht2 & Hd2 & Hp2).
    exists (evs1 ++ evs2), (ds2 ++ ds1).
    rewrite Ht2, Ht1, Hd2, Hd1, !app_assoc. split; [done|]. split; [done|].
    rewrite acquired_app, released_app, toRelease_app, Hp1, Hp2.
    solve_Permutation.
  - by apply (Hm _ _ _ H1).
  - done.
Qed.

Lemma balanced_forM {X A} (xs : list X) (body : X → A → M A) (a : A) :
  (∀ x a, balanced (body x a)) → balanced (forM xs body a).
Proof.
  intros Hb. revert a. induction xs as [|x xs IH]; intros a; simpl.
  - apply balanced_quiet; [apply keeps_ret|apply emits_ret].
  - apply balanced_bind; [apply Hb|]. intros a'. apply IH.
Qed.

Lemma balanced_forRange {X A} (i : nat) (xs : list X) (body : nat → X → A → M A)
    (a : A) :
  (∀ i x a, balanced (body i x a)) → balanced (forRange i xs body a).
Proof.
  intros Hb. revert i a. induction xs as [|x xs IH]; intros i a; simpl.
  - apply balanced_quiet; [apply keeps_ret|apply emits_ret].
  - apply balanced_bind; [apply Hb|]. intros a'. apply IH.
Qed.

(** *** The steps that hold no layer *)

Ltac keeps_tac :=
  unfold write, exec, isCreate, isGet, isSetParent, safePath;
  repeat first
    [ apply keeps_ret | apply keeps_fail | apply keeps_must | apply keeps_perform
    | apply keeps_call | apply keeps_scope | apply keeps_ignoreErr
    | apply keeps_bind; [|intros ?]
    | apply keeps_forM; intros ? ?
    | match goal with
      | |- ?f (match ?x with _ => _ end) => destruct x
      end ].

Ltac emits_tac :=
  unfold write, exec, isCreate, isGet, isSetParent, safePath;
  repeat first
    [ apply emits_ret | apply emits_fail | apply emits_must | apply emits_call
    | apply emits_defer | apply emits_ignoreErr
    | apply emits_perform; intros ?; by repeat constructor
    | apply emits_bind; [|intros ?]
    | apply emits_forM; intros ? ?
    | match goal with
      | |- ?f _ (match ?x with _ => _ end) => destruct x
      end ].

Lemma keeps_setLoadedTag ref imgid : keeps (setLoadedTag E ref imgid).
Proof. unfold setLoadedTag. keeps_tac. Qed.

Lemma emits_setLoadedTag P ref imgid :
  (∀ str, P (EvWrite str)) → (∀ r d, P (EvRsAddTag r d)) →
  emits P (setLoadedTag E ref imgid).
Proof. intros Hw Ht. unfold setLoadedTag. emits_tac. Qed.

Lemma keeps_loadManifestTag imgid repoTag n : keeps (loadManifestTag E imgid repoTag n).
Proof. unfold loadManifestTag. keeps_tac. Qed.

Lemma emits_loadManifestTag P imgid repoTag n :
  (∀ str, P (EvWrite str)) → (∀ r d, P (EvRsAddTag r d)) →
  emits P (loadManifestTag E imgid repoTag n).
Proof.
  intros Hw Ht. unfold loadManifestTag. emits_tac.
Qed.

Lemma keeps_setParentID i p : keeps (setParentID E i p).
Proof. unfold setParentID. keeps_tac. Qed.

Lemma emits_setParentID P i p :
  (∀ j, P (EvIsGet j)) → P (EvIsSetParent i p) → emits P (setParentID E i p).
Proof. intros Hg Hs. unfold setParentID. emits_tac. Qed.

(** *** The steps that take a layer *)

(** [loadLayer] returns the layer it registered and holds its reference;
    when it returns an error it holds none. *)
Lemma loadLayer_acquires filename rootFS ident foreignSrc po s x s' :
  loadLayer E filename rootFS ident foreignSrc po s = (x, s') →
  x ≠ OutOfFuel ∧ defers s' = defers s ∧
  ∃ evs, trace s' = trace s ++ evs ∧ released evs = [] ∧
         acquired evs = match x with Ok l => [l] | _ => [] end.
Proof.
  unfold loadLayer, scope, call, bind, perform, must, ret, fail, defer, runDefers.
  destruct po, (isDescribableStore E); simpl;
    repeat match goal with
      | |- context [OpenSequential E ?f ?w] =>
          destruct (OpenSequential E f w) as [[?|?] ?]; simpl
      | |- context [fileStat E ?f ?w] =>
          destruct (fileStat E f w) as [[?|?] ?]; simpl
      | |- context [DecompressStream E ?f ?w] =>
          destruct (DecompressStream E f w) as [[?|?] ?]; simpl
      | |- context [ls_RegisterWithDescriptor E ?f ?c ?d ?w] =>
          destruct (ls_RegisterWithDescriptor E f c d w) as [[?|?] ?]; simpl
      | |- context [ls_Register E ?f ?c ?w] =>
          destruct (ls_Register E f c w) as [[?|?] ?]; simpl
      end;
    intros [= <- <-]; simpl; (split; [done|]; split; [done|]);
    rewrite ?app_nil_r;
    first [ by (exists []; rewrite app_nil_r) | by eexists [_] ].
Qed.

Lemma obtainLayer_acquires m po layerPath diffID rootFS s x s' :
  obtainLayer E m po layerPath diffID rootFS s = (x, s') →
  x ≠ OutOfFuel ∧ defers s' = defers s ∧
  ∃ evs, trace s' = trace s ++ evs ∧ released evs = [] ∧
         acquired evs = match x with Ok l => [l] | _ => [] end.
Proof.
  unfold obtainLayer, lsGet. intros H.
  destruct (bind_inv _ _ _ _ _ H) as [(got & s1 & H1 & H2)|[(e & H1 & ->)|[H1 ->]]].
  - unfold perform in H1.
    destruct (ls_Get E _ (world s)) as [got' w1]. injection H1 as -> <-.
    destruct got as [l|e].
    + injection H2 as <- <-. split; [done|]. split; [done|]. by eexists [_].
    + apply loadLayer_acquires in H2 as (Hx & Hd & evs & Ht & Hr & Ha).
      split; [done|]. split; [done|].
      eexists (_ :: evs). simpl in Ht. rewrite Ht, <- app_assoc. split; [done|].
      change (EvLsGet ?c ?g :: evs) with ([EvLsGet c g] ++ evs).
      by rewrite released_app, acquired_app, Hr, Ha.
  - unfold perform in H1. by destruct (ls_Get E _ (world s)).
  - unfold perform in H1. by destruct (ls_Get E _ (world s)).
Qed.

(** One position of the layer loop, by its outcome: when it passes, the
    layer obtained has the claimed DiffID, its release is deferred, and
    the DiffID is appended; in every case each reference taken is on the
    deferred stack. *)
Lemma loadManifestLayer_step tmpDir m po i diffID rootFS s x s' :
  loadManifestLayer E tmpDir m po i diffID rootFS s = (x, s') →
  x ≠ OutOfFuel ∧
  ∃ evs ds, trace s' = trace s ++ evs ∧ defers s' = ds ++ defers s ∧
    released evs = [] ∧ acquired evs = toRelease ds ∧
    match x with
    | Ok rfs => rfs = RootFS_Append rootFS diffID ∧
                ∃ l, ds = [DReleaseAndLog l] ∧ layerDiffID l = diffID
    | _ => True
    end.
Proof.
  unfold loadManifestLayer. destruct (Layers m !! i) as [layerFile|].
  2: { intros [= <- <-]. split; [done|]. exists [], []. by rewrite app_nil_r. }
  intros H.
  assert (Hsafe : ∀ base path t x1 t1, safePath E base path t = (x1, t1) →
                    x1 ≠ OutOfFuel ∧ trace t1 = trace t ∧ defers t1 = defers t).
  { intros base path t x1 t1. unfold safePath, call, bind, perform, must, ret, fail.
    destruct (FollowSymlinkInScope E _ _ _) as [[a|e] w]; intros [= <- <-]; simpl;
      by rewrite app_nil_r. }
  destruct (bind_inv _ _ _ _ _ H) as [(layerPath & s1 & H1 & H2)|[(e & H1 & ->)|[H1 ->]]].
  2: { apply Hsafe in H1 as (_ & Ht & Hd). split; [done|].
       exists [], []. by rewrite app_nil_r. }
  2: { by apply Hsafe in H1 as (? & _). }
  apply Hsafe in H1 as (_ & Ht1 & Hd1).
  destruct (bind_inv _ _ _ _ _ H2) as [(newLayer & s2 & H3 & H4)|[(e & H3 & ->)|[H3 ->]]].
  2: { apply obtainLayer_acquires in H3 as (_ & Hd & evs & Ht & Hr & Ha).
       split; [done|]. exists evs, []. by rewrite Ht, Hd, Ht1, Hd1. }
  2: { by apply obtainLayer_acquires in H3 as (? & _). }
  apply obtainLayer_acquires in H3 as (_ & Hd & evs & Ht & Hr & Ha).
  unfold bind, defer in H4. simpl in H4.
  destruct (String.eqb_spec diffID (layerDiffID newLayer)) as [Heq|Hne];
    injection H4 as <- <-; simpl; (split; [done|]);
    exists evs, [DReleaseAndLog newLayer]; rewrite Ht, Hd, Ht1, Hd1;
    (split; [done|]); (split; [done|]); (split; [done|]); (split; [done|]).
  - split; [done|]. by exists newLayer.
  - done.
Qed.

Lemma balanced_loadManifestLayer tmpDir m po i diffID rootFS :
  balanced (loadManifestLayer E tmpDir m po i diffID rootFS).
Proof.
  intros s x s' H _.
  apply loadManifestLayer_step in H as (_ & evs & ds & Ht & Hd & Hr & Ha & _).
  exists evs, ds. by rewrite Hr, Ha.
Qed.

(** The loop over the claimed DiffIDs, when it passes: the RootFS built is
    the claimed sequence in its order, and the layers kept for release
    have exactly the claimed DiffIDs, position by position. *)
Lemma loadManifestLayers_pass tmpDir m po (ds : list DiffID) :
  ∀ i rootFS s rfs s',
    forRange i ds (loadManifestLayer E tmpDir m po) rootFS s = (Ok rfs, s') →
    rfs = {| Type_ := Type_ rootFS; DiffIDs := DiffIDs rootFS ++ ds |} ∧
    ∃ layers, defers s' = map DReleaseAndLog (reverse layers) ++ defers s ∧
              map layerDiffID layers = ds.
Proof.
  induction ds as [|d ds IH]; intros i rootFS s rfs s'; simpl.
  - intros [= <- <-]. rewrite app_nil_r. split; [by destruct rootFS|]. by exists [].
  - intros H. apply bind_Ok_inv in H as (rfs1 & s1 & Hstep & H).
    apply loadManifestLayer_step in Hstep
      as (_ & evs & dl & _ & Hd & _ & _ & -> & l & -> & Hl).
    apply IH in H as (-> & layers & Hd' & Hmap). simpl.
    rewrite <- app_assoc. split; [done|].
    exists (l :: layers). rewrite Hd', Hd, reverse_cons, map_app, <- app_assoc.
    simpl. by rewrite Hl, Hmap.
Qed.

(** X7: a layer loop that passes has rebuilt the claimed DiffID sequence and
    holds, for release, one layer per position whose actual DiffID is the
    claimed one. *)
Theorem loadManifestLayers_verified (tmpDir : string) (m : manifestItem) (po : bool)
    (img : Image) (s : state W) (rfs : RootFS) (s' : state W) :
  forRange 0 (DiffIDs (imgRootFS img)) (loadManifestLayer E tmpDir m po)
    {| Type_ := Type_ (imgRootFS img); DiffIDs := [] |} s = (Ok rfs, s') →
  rfs = imgRootFS img ∧
  ∃ layers, defers s' = map DReleaseAndLog (reverse layers) ++ defers s ∧
            map layerDiffID layers = DiffIDs (imgRootFS img).
Proof.
  intros H. apply loadManifestLayers_pass in H as (-> & Hl). simpl.
  split; [by destruct (imgRootFS img)|done].
Qed.

(** *** The manifest loader keeps its references *)

Ltac quiet_tac := apply balanced_quiet; [keeps_tac|emits_tac].

Lemma balanced_loadManifestItem tmpDir po m acc :
  balanced (loadManifestItem E tmpDir po m acc).
Proof.
  unfold loadManifestItem. destruct acc as [[parentLinks imageIDsStr] imageRefCount].
  apply balanced_bind; [quiet_tac|]. intros configPath.
  apply balanced_bind; [quiet_tac|]. intros config.
  apply balanced_bind; [quiet_tac|]. intros img.
  destruct (negb _); [quiet_tac|].
  apply balanced_bind.
  { apply balanced_forRange. intros. apply balanced_loadManifestLayer. }
  intros rootFS.
  apply balanced_bind; [quiet_tac|]. intros imgid.
  apply balanced_bind.
  { apply balanced_forM. intros repoTag n. apply balanced_quiet.
    - apply keeps_loadManifestTag.
    - apply emits_loadManifestTag; by intros. }
  intros n. apply balanced_bind; [quiet_tac|]. intros _. quiet_tac.
Qed.

Lemma balanced_loadManifest tmpDir po manifest :
  balanced (loadManifest E tmpDir po manifest).
Proof.
  unfold loadManifest.
  apply balanced_bind.
  { apply balanced_forM. intros. apply balanced_loadManifestItem. }
  intros [[parentLinks imageIDsStr] imageRefCount].
  apply balanced_bind.
  { apply balanced_forM. intros p []. destruct (negb _); [|quiet_tac].
    apply balanced_quiet; [apply keeps_setParentID|].
    apply emits_setParentID; by intros. }
  intros _. apply balanced_bind; [|intros _; quiet_tac].
  destruct (imageRefCount =? 0); quiet_tac.
Qed.

(** *** The manifest loader returns *)

Lemma total_forM {X A} (xs : list X) (body : X → A → M A) (a : A) :
  (∀ x a, total (body x a)) → total (forM xs body a).
Proof.
  intros Hb. revert a. induction xs as [|x xs IH]; intros a; simpl.
  - apply total_ret.
  - apply total_bind; [apply Hb|]. intros a'. apply IH.
Qed.

Lemma total_forRange {X A} (i : nat) (xs : list X) (body : nat → X → A → M A) (a : A) :
  (∀ i x a, total (body i x a)) → total (forRange i xs body a).
Proof.
  intros Hb. revert i a. induction xs as [|x xs IH]; intros i a; simpl.
  - apply total_ret.
  - apply total_bind; [apply Hb|]. intros a'. apply IH.
Qed.

Lemma total_ignoreErr {A} (m : M A) : total m → total (ignoreErr m).
Proof.
  intros Hm s. specialize (Hm s). unfold ignoreErr.
  by destruct (m s) as [[a|e|] s1].
Qed.

Ltac total_tac :=
  unfold write, exec, isCreate, isGet, isSetParent, safePath, lsGet;
  repeat first
    [ apply total_ret | apply total_fail | apply total_must | apply total_perform
    | apply total_call | apply total_defer | apply total_loadLayer
    | apply total_ignoreErr
    | apply total_bind; [|intros ?]
    | apply total_forM; intros ? ?
    | apply total_forRange; intros ? ? ?
    | match goal with
      | |- ?f (match ?x with _ => _ end) => destruct x
      end ].

Lemma total_loadManifestLayer tmpDir m po i diffID rootFS :
  total (loadManifestLayer E tmpDir m po i diffID rootFS).
Proof. unfold loadManifestLayer, obtainLayer. total_tac. Qed.

Lemma total_loadManifestItem tmpDir po m acc :
  total (loadManifestItem E tmpDir po m acc).
Proof.
  unfold loadManifestItem. destruct acc as [[parentLinks imageIDsStr] imageRefCount].
  total_tac. apply total_loadManifestLayer.
Qed.

Lemma total_loadManifest tmpDir po manifest :
  total (loadManifest E tmpDir po manifest).
Proof.
  unfold loadManifest. total_tac. apply total_loadManifestItem.
Qed.

Lemma runDefers_releases_all ds (st : state W) :
  ∃ evs, trace (runDefers E ds st) = trace st ++ evs ∧
         released evs = toRelease ds ∧ acquired evs = [].
Proof.
  revert st. induction ds as [|d ds IH]; intros st.
  - exists []. by rewrite app_nil_r.
  - change (runDefers E (d :: ds) st) with (runDefers E ds (runDeferred E d st)).
    destruct (IH (runDeferred E d st)) as (evs & -> & Hr & Ha).
    destruct d; simpl.
    + exists (EvRemoveAll dir :: evs). rewrite <- app_assoc. split; [done|].
      change (EvRemoveAll dir :: evs) with ([EvRemoveAll dir] ++ evs).
      by rewrite released_app, acquired_app, Hr, Ha.
    + by exists evs.
    + exists (EvLsRelease l :: evs). rewrite <- app_assoc. split; [done|].
      change (EvLsRelease l :: evs) with ([EvLsRelease l] ++ evs).
      by rewrite released_app, acquired_app, Hr, Ha.
Qed.

(** X8: the manifest loader always returns, and with a value or with any
    error every layer reference it took (by a lookup or a registration that
    succeeded) has been given back or is on the deferred stack; running
    that stack, as [Load] does when it returns, releases exactly those. *)
Theorem loadManifest_holds_no_layer (tmpDir : string) (po : bool)
    (manifest : list manifestItem) (s : state W) :
  ∃ x s' evs ds,
    loadManifest E tmpDir po manifest s = (x, s') ∧ x ≠ OutOfFuel ∧
    trace s' = trace s ++ evs ∧ defers s' = ds ++ defers s ∧
    acquired evs ≡ₚ released evs ++ toRelease ds ∧
    ∀ st, ∃ evs', trace (runDefers E ds st) = trace st ++ evs' ∧
                  released evs' = toRelease ds ∧ acquired evs' = [].
Proof.
  pose proof (total_loadManifest tmpDir po manifest s) as Ht.
  destruct (loadManifest E tmpDir po manifest s) as [x s'] eqn:H.
  destruct (balanced_loadManifest tmpDir po manifest _ _ _ H Ht)
    as (evs & ds & Htr & Hd & Hp).
  exists x, s', evs, ds. repeat (split; [done|]).
  intros st. apply runDefers_releases_all.
Qed.

(** *** [Load] and its scratch directory *)

Lemma extends_loadArchive fuel reader tmpDir po :
  extends (loadArchive E fuel reader tmpDir po).
Proof.
  unfold loadArchive. cbv zeta.
  apply extends_bind; [apply keeps_extends, keeps_perform|]. intros x.
  apply extends_bind; [apply keeps_extends, keeps_must|]. intros _.
  apply extends_bind; [apply keeps_extends, keeps_call|]. intros manifestPath.
  apply extends_bind; [apply keeps_extends, keeps_perform|]. intros [manifestFile|err].
  - apply extends_bind; [apply extends_defer|]. intros _.
    apply extends_bind; [apply keeps_extends, keeps_call|]. intros manifest.
    apply balanced_extends, balanced_loadManifest.
  - destruct (IsNotExist err).
    + apply keeps_extends, keeps_scope.
    + apply keeps_extends, keeps_fail.
Qed.

(** X9: once the scratch directory has been created, every [Load] that
    returns, with nil or with any error and through any of the three
    loaders, has removed that directory as its last action, and has run
    all that it deferred. *)
Theorem Load_removes_scratch_dir (fuel : nat) (inTar : Bufio.Source) (quiet : bool)
    (s : state W) (tmpDir : string) (w1 : W) (x : res unit) (s' : state W) :
  TempDir E "" "docker-import-" (world s) = (Got tmpDir, w1) →
  Load E fuel inTar quiet s = (x, s') →
  x ≠ OutOfFuel →
  last (trace s') = Some (EvRemoveAll tmpDir) ∧ defers s' = defers s.
Proof.
  intros HT H Hx. unfold Load in H.
  apply scope_inv in H as (s1 & Hb & ->); [|done].
  split; [|by rewrite runDefers_defers].
  assert (H1 : call (TempDir E "" "docker-import-")
                 {| world := world s; trace := trace s; defers := [] |}
               = (Ok tmpDir, {| world := w1; trace := trace s ++ []; defers := [] |})).
  { unfold call, bind, perform, must, ret. simpl. by rewrite HT. }
  rewrite (bind_Ok _ _ _ _ _ H1) in Hb.
  unfold bind at 1, defer at 1 in Hb. cbv zeta in Hb. cbn [world trace defers] in Hb.
  assert (Hext : ∃ ds, defers s1 = ds ++ [DRemoveAll tmpDir]).
  { destruct (bufferedReadCloser_Peek {| r := Bufio.NewReader inTar |} 4)
      as [[b err] reader].
    destruct err as [e|].
    - injection Hb as _ <-. by exists [].
    - destruct (bytes_eqb b squashfsMagic).
      + exists []. by rewrite (keeps_scope _ _ _ _ Hb Hx).
      + exact (extends_loadArchive _ _ _ _ _ _ _ Hb Hx). }
  destruct Hext as [ds ->]. rewrite runDefers_app.
  cbn [runDefers foldl runDeferred trace]. apply last_snoc.
Qed.

(** *** Tags *)

(** [setLoadedTag], by the answer of the lookup. *)
Lemma setLoadedTag_run (ref : Named) (imgid : string) (s : state W) :
  ∃ x s' evs,
    setLoadedTag E ref imgid s = (x, s') ∧ x ≠ OutOfFuel ∧
    trace s' = trace s ++ evs ++ [EvRsAddTag ref imgid] ∧
    defers s' = defers s ∧
    ((evs = [] ∧
      ∀ prev w, rs_Get E ref (world s) = (Got prev, w) → prev = imgid) ∨
     (∃ prev w str, rs_Get E ref (world s) = (Got prev, w) ∧ prev ≠ imgid ∧
                    evs = [EvWrite str])).
Proof.
  unfold setLoadedTag, write, exec, bind, perform, must, ret, fail.
  destruct (rs_Get E ref (world s)) as [[prev|e] w1] eqn:Eg;
    cbn [world trace defers].
  - destruct (String.eqb_spec prev imgid) as [->|Hne]; cbn [negb world trace defers].
    + destruct (rs_AddTag E ref imgid true w1) as [[u|e2] w2];
        cbn [world trace defers]; eexists _, _, [];
        (split; [reflexivity|]); (split; [done|]);
        (split; [by rewrite app_nil_r|]); (split; [done|]);
        left; (split; [done|]); intros p w Hg; congruence.
    + destruct (rs_AddTag E ref imgid true w1) as [[u|e2] w2];
        cbn [world trace defers];
        eexists _, _, [EvWrite _];
        (split; [reflexivity|]); (split; [done|]);
        (split; [by rewrite app_nil_r, <- app_assoc|]); (split; [done|]);
        right; by eexists prev, w1, _.
  - destruct (rs_AddTag E ref imgid true w1) as [[u|e2] w2];
      cbn [world trace defers]; eexists _, _, [];
      (split; [reflexivity|]); (split; [done|]);
      (split; [by rewrite app_nil_r|]); (split; [done|]);
      left; (split; [done|]); intros p w Hg; congruence.
Qed.

(** X10: [setLoadedTag] calls [AddTag] once, as its last action and whatever
    the lookup of the reference gave; before it, it writes one line of
    warning exactly when the reference exists and names another image. *)
Theorem setLoadedTag_warns_iff_retag (ref : Named) (imgid : string) (s : state W) :
  ∃ evs, trace (setLoadedTag E ref imgid s).2
         = trace s ++ evs ++ [EvRsAddTag ref imgid] ∧
    (evs = [] ∨ ∃ str, evs = [EvWrite str]) ∧
    (evs ≠ [] ↔ ∃ prev w, rs_Get E ref (world s) = (Got prev, w) ∧ prev ≠ imgid).
Proof.
  destruct (setLoadedTag_run ref imgid s)
    as (x & s' & evs & -> & _ & Ht & _ & Hcase).
  exists evs. split; [exact Ht|].
  destruct Hcase as [[-> Hsame]|(prev & w & str & Hg & Hne & ->)].
  - split; [by left|]. split; [done|].
    intros (prev & w & Hg & Hne). destruct (Hne (Hsame prev w Hg)).
  - split; [right; by eexists|]. split; [|done]. intros _. by exists prev, w.
Qed.

(** X11: a repo tag that parses to a tagged reference never stops the load:
    whatever [AddTag] returns, its error included, the round of the tag
    loop goes on, writes the line "Loaded image: ..." as its last action
    and counts the tag. *)
Theorem loadManifestTag_drops_tag_error (imgid : ImageID) (repoTag : string)
    (n : nat) (named : Named) (t : string) (s : state W) :
  ParseNormalizedNamed E repoTag = Got named →
  Tag named = Some t →
  ∃ s' evs,
    loadManifestTag E imgid repoTag n s = (Ok (S n), s') ∧
    trace s' = trace s ++ evs
               ++ [EvRsAddTag named imgid;
                   EvWrite ("Loaded image: " +:+ FamiliarString E named +:+ nl)] ∧
    (evs = [] ∨ ∃ str, evs = [EvWrite str]) ∧
    defers s' = defers s.
Proof.
  intros Hp Ht. unfold loadManifestTag. rewrite Hp.
  unfold must at 1. unfold bind at 1, ret at 1. rewrite Ht.
  destruct (setLoadedTag_run named imgid s)
    as (x & s1 & evs & Hrun & Hx & Htr & Hd & Hcase).
  assert (Hi : ignoreErr (setLoadedTag E named imgid) s = (Ok tt, s1)).
  { unfold ignoreErr. rewrite Hrun. by destruct x. }
  rewrite (bind_Ok _ _ _ _ _ Hi).
  unfold write, exec, bind, perform, ret. cbn [world trace defers].
  eexists _, evs. split; [reflexivity|]. cbn [world trace defers].
  split; [|split; [|done]].
  - rewrite Htr, <- !app_assoc. done.
  - destruct Hcase as [[-> _]|(prev & w & str & _ & _ & ->)];
      [by left|right; by eexists].
Qed.

(** *** The single-blob loader without a root directory *)

Lemma rootDir_none (status : list (string * string)) :
  (∀ v, ("Root Dir", v) ∈ status → v = "") →
  foldl (λ root val, if String.eqb (fst val) "Root Dir" then snd val else root)
    "" status = "".
Proof.
  intros H. assert (Hgen : ∀ init, init = "" →
    foldl (λ root (val : string * string),
             if String.eqb (fst val) "Root Dir" then snd val else root)
      init status = "").
  { induction status as [|[k v] status IH]; intros init Hi; [done|].
    simpl. apply IH.
    - intros v' Hv'. apply H. by right.
    - destruct (String.eqb_spec k "Root Dir") as [->|_]; [|done].
      apply H. by left. }
  by apply Hgen.
Qed.

(** X12: when the status of the graph driver has no "Root Dir" entry with a
    value, [loadSquashFS] returns its error at once: it has read nothing
    from the stream, created no file and left no event. *)
Theorem loadSquashFS_no_root_dir (inTar : bufferedReadCloser) (tmpDir : string)
    (po : bool) (s : state W) (status : list (string * string)) (w1 : W) :
  ls_DriverStatus E (world s) = (status, w1) →
  (∀ v, ("Root Dir", v) ∈ status → v = "") →
  loadSquashFS E inTar tmpDir po s
  = (Err ErrNoRootDir, {| world := w1; trace := trace s; defers := defers s |}).
Proof.
  intros Hs Hroot. unfold loadSquashFS, scope, bind at 1, perform at 1.
  cbn [world trace defers]. rewrite Hs. cbv zeta.
  rewrite (rootDir_none status Hroot). simpl. unfold fail.
  by rewrite app_nil_r.
Qed.

(** *** [loadLayer] *)

(** X13: [loadLayer] holds a reference on exactly the layer it returns: one
    when it returns a layer, none when it returns an error; it releases
    nothing, always returns, and leaves nothing deferred (the files it
    opened are closed when it returns). *)
Theorem loadLayer_holds_what_it_returns (filename : string) (rootFS : RootFS)
    (ident : string) (foreignSrc : Descriptor) (po : bool) (s : state W) :
  let '(x, s') := loadLayer E filename rootFS ident foreignSrc po s in
  x ≠ OutOfFuel ∧ defers s' = defers s ∧
  ∃ evs, trace s' = trace s ++ evs ∧ released evs = [] ∧
         acquired evs = match x with Ok l => [l] | _ => [] end.
Proof.
  destruct (loadLayer E filename rootFS ident foreignSrc po s) as [x s'] eqn:H.
  exact (loadLayer_acquires _ _ _ _ _ _ _ _ H).
Qed.

(** *** The errors of a load *)

Section Raises.
Context (P : error → Prop) (Hext : ∀ e, P (ErrExt e)).

Local Abbreviation raises := (raises (W:=W) P).

Lemma raises_ret {A} (a : A) : raises (ret a).
Proof. by intros s e s'. Qed.

Lemma raises_fail {A} (e : error) : P e → raises (fail e : M A).
Proof. by intros He s e' s' [= <- _]. Qed.

Lemma raises_diverge {A} : raises (diverge : M A).
Proof. by intros s e s'. Qed.

Lemma raises_must {A} (x : ext A) : raises (must x).
Proof. destruct x; [apply raises_ret|by apply raises_fail]. Qed.

Lemma raises_perform {A} (op : W → A * W) ev : raises (perform op ev).
Proof. intros s e s'. unfold perform. by destruct (op (world s)). Qed.

Lemma raises_defer (d : deferred) : raises (defer d : M unit).
Proof. by intros s e s'. Qed.

Lemma raises_bind {A B} (m : M A) (k : A → M B) :
  raises m → (∀ a, raises (k a)) → raises (bind m k).
Proof.
  intros Hm Hk s e s' H.
  destruct (bind_inv _ _ _ _ _ H) as [(a & s1 & H1 & H2)|[(e' & H1 & [= ->])|[_ [=]]]].
  - exact (Hk _ _ _ _ H2).
  - exact (Hm _ _ _ H1).
Qed.

Lemma raises_call {A} (op : W → ext A * W) : raises (call op).
Proof. apply raises_bind; [apply raises_perform|]. intros x. apply raises_must. Qed.

Lemma raises_ignoreErr {A} (m : M A) : raises (ignoreErr m).
Proof. intros s e s'. unfold ignoreErr. by destruct (m s) as [[a|e'|] s1]. Qed.

Lemma raises_scope {A} (body : M A) : raises body → raises (scope E body).
Proof.
  intros Hb s e s' H. unfold scope in H.
  destruct (body _) as [[a|e'|] s1] eqn:Eb; [done| |done].
  injection H as -> _. exact (Hb _ _ _ Eb).
Qed.

Lemma raises_forM {X A} (xs : list X) (body : X → A → M A) (a : A) :
  (∀ x a, raises (body x a)) → raises (forM xs body a).
Proof.
  intros Hb. revert a. induction xs as [|x xs IH]; intros a; simpl.
  - apply raises_ret.
  - apply raises_bind; [apply Hb|]. intros a'. apply IH.
Qed.

(** In a loop over the positions of [xs], the body only runs at the
    indices of [xs]. *)
Lemma raises_forRange {X A} (i : nat) (xs : list X) (body : nat → X → A → M A)
    (a : A) :
  (∀ j x a, i ≤ j < i + length xs → raises (body j x a)) →
  raises (forRange i xs body a).
Proof.
  revert i a. induction xs as [|x xs IH]; intros i a Hb; simpl.
  - apply raises_ret.
  - apply raises_bind; [apply Hb; simpl; lia|]. intros a'. apply IH.
    intros j y b Hj. apply Hb. simpl. lia.
Qed.

End Raises.

Ltac raises_tac :=
  unfold write, exec, isCreate, isGet, isSetParent, safePath, lsGet, hashOfFile;
  cbv zeta;
  repeat first
    [ apply raises_ret | apply raises_must; first [assumption|by unfold inRange]
    | apply raises_fail; by unfold inRange
    | apply raises_perform
    | apply raises_call; first [assumption|by unfold inRange]
    | apply raises_defer | apply raises_ignoreErr | apply raises_scope
    | apply raises_bind; [|intros ?]
    | apply raises_forM; intros ? ?
    | match goal with
      | |- ?f _ (match ?x with _ => _ end) => destruct x
      end ].

Lemma raises_loadLayer P filename rootFS ident foreignSrc po :
  (∀ e, P (ErrExt e)) →
  raises P (loadLayer E filename rootFS ident foreignSrc po).
Proof. intros Hext. unfold loadLayer. raises_tac. Qed.

Lemma raises_setParentID i p : raises inRange (setParentID E i p).
Proof. unfold setParentID. raises_tac. Qed.

(** The index of [m.Layers[i]] is in range at every position that the
    layer loop visits, once the two lengths have been compared. *)
Lemma raises_loadManifestLayer tmpDir m po i diffID rootFS :
  i < length (Layers m) →
  raises inRange (loadManifestLayer E tmpDir m po i diffID rootFS).
Proof.
  intros Hi. unfold loadManifestLayer.
  destruct (Layers m !! i) as [layerFile|] eqn:El.
  - unfold obtainLayer. raises_tac.
  - apply lookup_ge_None in El. lia.
Qed.

Lemma raises_loadManifestItem tmpDir po m acc :
  raises inRange (loadManifestItem E tmpDir po m acc).
Proof.
  unfold loadManifestItem. destruct acc as [[parentLinks imageIDsStr] imageRefCount].
  apply raises_bind; [raises_tac|]. intros configPath.
  apply raises_bind; [raises_tac|]. intros config.
  apply raises_bind; [raises_tac|]. intros img. cbv zeta.
  destruct (length (Layers m) =? length (DiffIDs (imgRootFS img))) eqn:Hlen;
    cbn [negb]; [|by apply raises_fail].
  apply Nat.eqb_eq in Hlen.
  apply raises_bind.
  { apply raises_forRange. intros j d rfs Hj.
    apply raises_loadManifestLayer. lia. }
  intros rootFS. unfold loadManifestTag. raises_tac.
Qed.

Lemma raises_loadManifest tmpDir po manifest :
  raises inRange (loadManifest E tmpDir po manifest).
Proof.
  unfold loadManifest.
  apply raises_bind; [apply raises_forM; intros; apply raises_loadManifestItem|].
  intros [[parentLinks imageIDsStr] imageRefCount].
  apply raises_bind.
  { apply raises_forM. intros p []. destruct (negb _); [|apply raises_ret].
    apply raises_setParentID. }
  intros _. raises_tac.
Qed.

Lemma raises_loadSquashFS inTar tmpDir po :
  raises inRange (loadSquashFS E inTar tmpDir po).
Proof. unfold loadSquashFS. raises_tac. Qed.

(** The legacy loader of one image only returns the errors of the calls
    it makes. *)
Lemma raises_legacyLoadImage_body P resolveParent oldID sourceDir loadedMap po :
  (∀ e, P (ErrExt e)) →
  (∀ p lm, raises P (resolveParent p lm)) →
  raises P (legacyLoadImage_body E resolveParent oldID sourceDir loadedMap po).
Proof.
  intros Hext Hr. unfold legacyLoadImage_body.
  destruct (loadedMap !! oldID); [apply raises_ret|].
  apply raises_bind; [raises_tac|]. intros configPath.
  apply raises_bind; [raises_tac|]. intros imageJSON.
  apply raises_bind; [raises_tac|]. intros imgParent.
  apply raises_bind.
  { destruct (negb _); [apply Hr|apply raises_ret]. }
  intros [parent_id lm].
  apply raises_bind; [raises_tac|]. intros [rootFS history].
  apply raises_bind; [raises_tac|]. intros layerPath.
  apply raises_bind; [by apply raises_loadLayer|]. intros newLayer.
  raises_tac.
Qed.

Lemma raises_legacyLoadImage P fuel :
  (∀ e, P (ErrExt e)) →
  (∀ oldID sourceDir loadedMap po,
     raises P (legacyLoadImage E fuel oldID sourceDir loadedMap po)) ∧
  (∀ parent sourceDir loadedMap po,
     raises P (legacyLoadImage_parent E fuel parent sourceDir loadedMap po)).
Proof.
  intros Hext.
  induction fuel as [|fuel [IH1 IH2]]; (split; [intros oldID|intros parent]);
    intros sourceDir loadedMap po.
  - apply raises_diverge.
  - apply raises_diverge.
  - change (raises P (legacyLoadImage_body E
              (λ p lm, legacyLoadImage_parent E fuel p sourceDir lm po)
              oldID sourceDir loadedMap po)).
    apply raises_legacyLoadImage_body; [done|]. intros p lm. apply IH2.
  - change (raises P
              (match loadedMap !! parent with
               | Some parent_id => ret (parent_id, loadedMap)
               | None =>
                   bind (legacyLoadImage E fuel parent sourceDir loadedMap po)
                     (λ lm', legacyLoadImage_parent E fuel parent sourceDir lm' po)
               end)).
    destruct (loadedMap !! parent); [apply raises_ret|].
    apply raises_bind; [apply IH1|]. intros lm'. apply IH2.
Qed.

Lemma raises_legacyLoad fuel tmpDir po : raises inRange (legacyLoad E fuel tmpDir po).
Proof.
  unfold legacyLoad. apply raises_scope.
  apply raises_bind; [raises_tac|]. intros dirs.
  apply raises_bind.
  { apply raises_forM. intros d lm. destruct (IsDir d); [|apply raises_ret].
    by apply raises_legacyLoadImage. }
  intros lm. raises_tac.
Qed.

(** X14: [Load] never indexes [m.Layers] out of range: whatever the
    archive, the manifest and the stores, none of its three loaders ends
    on the index error, since the layer loop only runs once the number of
    layer files has been found equal to the number of DiffIDs. *)
Theorem Load_never_out_of_range (fuel : nat) (inTar : Bufio.Source) (quiet : bool)
    (s : state W) :
  (Load E fuel inTar quiet s).1 ≠ Err ErrIndexOutOfRange.
Proof.
  assert (H : raises inRange (Load E fuel inTar quiet)).
  { unfold Load. apply raises_scope. cbv zeta.
    apply raises_bind; [raises_tac|]. intros tmpDir.
    apply raises_bind; [raises_tac|]. intros _.
    destruct (bufferedReadCloser_Peek _ 4) as [[b err] reader].
    destruct err as [e|]; [by apply raises_fail|].
    destruct (bytes_eqb b squashfsMagic); [apply raises_loadSquashFS|].
    unfold loadArchive. cbv zeta.
    apply raises_bind; [raises_tac|]. intros x.
    apply raises_bind; [raises_tac|]. intros _.
    apply raises_bind; [raises_tac|]. intros manifestPath.
    apply raises_bind; [raises_tac|]. intros [manifestFile|err].
    - apply raises_bind; [raises_tac|]. intros _.
      apply raises_bind; [raises_tac|]. intros manifest.
      apply raises_loadManifest.
    - destruct (IsNotExist err); [apply raises_legacyLoad|by apply raises_fail]. }
  destruct (Load E fuel inTar quiet s) as [x s'] eqn:HL. simpl.
  intros ->. by apply (H _ _ _ HL).
Qed.

(** *** The parent edges of the manifest loader *)

Local Abbreviation plain := (λ e : event, notCreate e ∧ notSetParent e).

Lemma created_app evs1 evs2 : created (evs1 ++ evs2) = created evs1 ++ created evs2.
Proof. apply omap_app. Qed.

Lemma created_notCreate evs : Forall notCreate evs → created evs = [].
Proof.
  induction 1 as [|e evs Hc _ IH]; [done|].
  destruct e; try done; exact IH.
Qed.

Lemma created_plain evs : Forall plain evs → created evs = [].
Proof.
  intros H. apply created_notCreate.
  eapply Forall_impl; [exact H|]. by intros e [He _].
Qed.

Lemma plain_notSetParent evs : Forall plain evs → Forall notSetParent evs.
Proof. intros H. eapply Forall_impl; [exact H|]. by intros e [_ He]. Qed.

Lemma emits_forM_in P {X A} (xs : list X) (body : X → A → M A) (a : A) :
  (∀ x a, x ∈ xs → emits P (body x a)) → emits P (forM xs body a).
Proof.
  revert a. induction xs as [|x xs IH]; intros a Hb; simpl.
  - apply emits_ret.
  - apply emits_bind; [apply Hb; by left|]. intros a'. apply IH.
    intros y b Hy. apply Hb. by right.
Qed.

(** A link that leaves the validation with a parent: the parent is the id
    of a link of the batch, and is not the id of the link itself. *)
Lemma validated_parent_in_batch (pl : list parentLink) (q : parentLink) :
  q ∈ validatedParentLinks pl → parentID q ≠ "" →
  id q ∈ map id pl ∧ parentID q ∈ map id pl ∧ parentID q ≠ id q.
Proof.
  rewrite validatedParentLinks_map.
  change (map (validated pl) pl) with (validated pl <$> pl).
  intros Hq Hne. apply list_elem_of_fmap in Hq as (p & -> & Hp).
  unfold validated in *. destruct (hasParentIn p pl) eqn:Hh; [|done].
  apply hasParentIn_spec in Hh as (p2 & Hin & H1 & H2).
  change (map id pl) with (id <$> pl).
  split; [by apply list_elem_of_fmap_2|].
  split; [|congruence].
  rewrite <- H1. by apply list_elem_of_fmap_2.
Qed.

Lemma emits_loadManifestItem_notSetParent tmpDir po m acc :
  emits notSetParent (loadManifestItem E tmpDir po m acc).
Proof.
  unfold loadManifestItem. destruct acc as [[parentLinks imageIDsStr] imageRefCount].
  apply emits_bind; [apply emits_safePath|]. intros configPath.
  apply emits_bind; [apply emits_call|]. intros config.
  apply emits_bind; [apply emits_must|]. intros img. cbv zeta.
  destruct (negb _); [apply emits_fail|].
  apply emits_bind.
  { apply emits_forRange. intros. by apply emits_loadManifestLayer. }
  intros rootFS. unfold loadManifestTag. emits_tac.
Qed.

(** A round of the manifest loop that passes has created one image, and
    has appended the link of that image. *)
Lemma loadManifestItem_created tmpDir po m pl ids n pl' ids' n' s s' :
  loadManifestItem E tmpDir po m (pl, ids, n) s = (Ok (pl', ids', n'), s') →
  ∃ evs imgid, trace s' = trace s ++ evs ∧ created evs = [imgid] ∧
    pl' = pl ++ [{| id := imgid; parentID := Parent m |}].
Proof.
  unfold loadManifestItem. intros H.
  apply bind_Ok_inv in H as (configPath & s1 & H1 & H).
  apply bind_Ok_inv in H as (config & s2 & H2 & H).
  apply bind_Ok_inv in H as (img & s3 & H3 & H).
  cbv zeta in H. destruct (negb _); [done|].
  apply bind_Ok_inv in H as (rootFS & s4 & H4 & H).
  apply bind_Ok_inv in H as (imgid & s5 & H5 & H).
  apply bind_Ok_inv in H as (cnt & s6 & H6 & H).
  apply bind_Ok_inv in H as (u & s7 & H7 & H).
  injection H as <- _ _ <-.
  pose proof (emits_adds plain _ _ _ _ (emits_safePath E _ _ _) H1) as A1.
  pose proof (emits_adds plain _ _ _ _ (emits_call _ _) H2) as A2.
  pose proof (emits_adds plain _ _ _ _ (emits_must _ _) H3) as A3.
  assert (A4 : adds plain (trace s3) (trace s4)).
  { refine (emits_adds plain _ _ _ _ _ H4).
    apply emits_forRange. intros. by apply emits_loadManifestLayer. }
  assert (A6 : adds plain (trace s5) (trace s6)).
  { refine (emits_adds plain _ _ _ _ _ H6).
    apply emits_forM. intros. by apply emits_loadManifestTag. }
  destruct (adds_trans _ _ _ _ (adds_trans _ _ _ _ (adds_trans _ _ _ _ A1 A2) A3) A4)
    as (evsA & HA & HpA).
  destruct A6 as (evsB & HB & HpB).
  assert (T5 : trace s5 = trace s4 ++ [EvIsCreate config (Got imgid)]).
  { unfold isCreate, bind, perform, must, ret, fail in H5.
    destruct (is_Create E config (world s4)) as [[i|e] w]; [|done].
    by injection H5 as <- <-. }
  assert (T7 : trace s7 = trace s6 ++ [EvLogImageEvent imgid]).
  { unfold exec, perform in H7. by injection H7 as _ <-. }
  exists (evsA ++ [EvIsCreate config (Got imgid)] ++ evsB ++ [EvLogImageEvent imgid]),
         imgid.
  split; [|split; [|done]].
  - rewrite T7, HB, T5, HA, <- !app_assoc. done.
  - rewrite !created_app, (created_plain _ HpA), (created_plain _ HpB). done.
Qed.

Lemma loadManifestItems_created tmpDir po manifest acc acc' s s' :
  forM manifest (loadManifestItem E tmpDir po) acc s = (Ok acc', s') →
  ∃ evs, trace s' = trace s ++ evs ∧
         map id acc'.1.1 = map id acc.1.1 ++ created evs ∧
         length (created evs) = length manifest.
Proof.
  revert acc s. induction manifest as [|m manifest IH]; intros acc s; simpl.
  - intros [= <- <-]. exists []. by rewrite !app_nil_r.
  - intros H. apply bind_Ok_inv in H as ([[pl1 ids1] n1] & s1 & Hitem & H).
    destruct acc as [[pl ids] n].
    apply loadManifestItem_created in Hitem as (evs1 & imgid & Ht1 & Hc1 & ->).
    apply IH in H as (evs2 & Ht2 & Hc2 & Hl2). simpl in *.
    exists (evs1 ++ evs2). rewrite Ht2, Ht1, <- app_assoc. split; [done|].
    rewrite Hc2, created_app, Hc1, map_app, <- app_assoc. split; [done|].
    simpl. by rewrite Hl2.
Qed.

(** X15: the manifest loader sets a parent only between two different
    images that this same load has created: the [Parent] of a manifest
    entry never links an image to itself or to an image that was in the
    store before. *)
Theorem loadManifest_parents_from_batch (tmpDir : string) (po : bool)
    (manifest : list manifestItem) (s : state W) :
  ∃ evs, trace (loadManifest E tmpDir po manifest s).2 = trace s ++ evs ∧
    ∀ c p, EvIsSetParent c p ∈ evs →
      c ≠ p ∧ c ∈ created evs ∧ p ∈ created evs.
Proof.
  destruct (loadManifest E tmpDir po manifest s) as [x s'] eqn:H. simpl.
  unfold loadManifest in H.
  assert (Hquiet : ∀ s1 y,
    forM manifest (loadManifestItem E tmpDir po) ([], "", 0) s = (y, s1) →
    ∃ evs, trace s1 = trace s ++ evs ∧ Forall notSetParent evs).
  { intros s1 y Hrun. refine (emits_forM _ _ _ _ _ _ _ _ Hrun).
    intros. apply emits_loadManifestItem_notSetParent. }
  destruct (bind_inv _ _ _ _ _ H) as [(acc & s1 & H1 & H2)|[(e & H1 & ->)|[H1 ->]]].
  - destruct (Hquiet _ _ H1) as (evs1 & Ht1 & Hq1).
    apply loadManifestItems_created in H1 as (evs1' & Ht1' & Hids & _).
    rewrite Ht1 in Ht1'. apply app_inv_head in Ht1'. subst evs1'.
    destruct acc as [[pl ids] n]. simpl in Hids.
    set (Q := λ e : event, ∀ c q, e = EvIsSetParent c q →
           ∃ p, p ∈ validatedParentLinks pl ∧ parentID p ≠ "" ∧
                c = id p ∧ q = parentID p).
    assert (HQ : emits Q
      (forM (validatedParentLinks pl) (λ p (_ : unit),
         if negb (String.eqb (parentID p) "")
         then setParentID E (id p) (parentID p) else ret tt) tt ;;;
       (if n =? 0 then write ids else ret tt) ;;; ret tt)).
    { apply emits_bind.
      - apply emits_forM_in. intros p [] Hin.
        destruct (String.eqb_spec (parentID p) "") as [Heq|Hne]; cbn [negb];
          [apply emits_ret|].
        apply emits_setParentID; [by intros j c q|].
        intros c q [= <- <-]. by exists p.
      - intros _. apply emits_bind; [|intros _; apply emits_ret].
        destruct (n =? 0); [|apply emits_ret].
        unfold write, exec. apply emits_perform. intros _.
        repeat constructor. by intros c q. }
    destruct (HQ _ _ _ H2) as (evs2 & Ht2 & Hq2).
    exists (evs1 ++ evs2). rewrite Ht2, Ht1, <- app_assoc. split; [done|].
    intros c p Hin. apply elem_of_app in Hin as [Hin|Hin].
    { rewrite Forall_forall in Hq1. destruct (Hq1 _ Hin). }
    rewrite Forall_forall in Hq2.
    destruct (Hq2 _ Hin c p eq_refl) as (p0 & Hp0 & Hne & -> & ->).
    destruct (validated_parent_in_batch pl p0 Hp0 Hne) as (Hc & Hp & Hdiff).
    rewrite Hids in Hc, Hp. rewrite created_app.
    split; [congruence|]. split; apply elem_of_app; by left.
  - destruct (Hquiet _ _ H1) as (evs1 & Ht1 & Hq1).
    exists evs1. split; [done|]. intros c p Hin.
    rewrite Forall_forall in Hq1. destruct (Hq1 _ Hin).
  - destruct (Hquiet _ _ H1) as (evs1 & Ht1 & Hq1).
    exists evs1. split; [done|]. intros c p Hin.
    rewrite Forall_forall in Hq1. destruct (Hq1 _ Hin).
Qed.

(** X16: a manifest load that returns nil has created one image for every
    entry of the manifest, no more and no fewer. *)
Theorem loadManifest_one_image_per_entry (tmpDir : string) (po : bool)
    (manifest : list manifestItem) (s s' : state W) :
  loadManifest E tmpDir po manifest s = (Ok tt, s') →
  ∃ evs, trace s' = trace s ++ evs ∧ length (created evs) = length manifest.
Proof.
  unfold loadManifest. intros H.
  apply bind_Ok_inv in H as ([[pl ids] n] & s1 & H1 & H2).
  apply loadManifestItems_created in H1 as (evs1 & Ht1 & _ & Hlen).
  assert (He : emits notCreate
    (forM (validatedParentLinks pl) (λ p (_ : unit),
       if negb (String.eqb (parentID p) "")
       then setParentID E (id p) (parentID p) else ret tt) tt ;;;
     (if n =? 0 then write ids else ret tt) ;;; ret tt)).
  { apply emits_bind.
    - apply emits_forM. intros p []. destruct (negb _); [|apply emits_ret].
      by apply emits_setParentID.
    - intros _. emits_tac. }
  destruct (He _ _ _ H2) as (evs2 & Ht2 & Hn2).
  exists (evs1 ++ evs2). rewrite Ht2, Ht1, <- app_assoc. split; [done|].
  by rewrite created_app, (created_notCreate _ Hn2), app_nil_r.
Qed.

(** *** The legacy loader, when it returns nil *)

Lemma legacyStep_refl lm (s : state W) : legacyStep lm lm s s.
Proof.
  exists []. rewrite app_nil_r.
  split; [done|]. split; [done|]. split; [done|]. split; [done|]. split.
  - intros k i Hk. by left.
  - intros c p Hin. by apply elem_of_nil in Hin.
Qed.

Lemma legacyStep_trans lm1 lm2 lm3 (s1 s2 s3 : state W) :
  legacyStep lm1 lm2 s1 s2 → legacyStep lm2 lm3 s2 s3 → legacyStep lm1 lm3 s1 s3.
Proof.
  intros (e1 & Ht1 & Hd1 & Hs1 & Ha1 & Hv1 & Hp1)
         (e2 & Ht2 & Hd2 & Hs2 & Ha2 & Hv2 & Hp2).
  exists (e1 ++ e2). rewrite Ht2, Ht1, Hd2, Hd1, <- app_assoc.
  split; [done|]. split; [done|]. split; [by transitivity lm2|].
  rewrite acquired_app, released_app, created_app, Ha1, Ha2.
  split; [done|]. split.
  - intros k i Hk. destruct (Hv2 _ _ Hk) as [Hk2|Hc].
    + destruct (Hv1 _ _ Hk2) as [Hk1|Hc]; [by left|].
      right. apply elem_of_app. by left.
    + right. apply elem_of_app. by right.
  - intros c p Hin. apply elem_of_app in Hin as [Hin|Hin].
    + destruct (Hp1 _ _ Hin) as [Hc [Hp|Hp]].
      * split; [|left]; apply elem_of_app; by left.
      * split; [apply elem_of_app; by left|by right].
    + destruct (Hp2 _ _ Hin) as [Hc [Hp|[k Hk]]].
      * split; [|left]; apply elem_of_app; by right.
      * split; [apply elem_of_app; by right|].
        destruct (Hv1 _ _ Hk) as [Hk1|Hc1]; [right; by exists k|].
        left. apply elem_of_app. by left.
Qed.

Lemma still_all evs :
  Forall still evs →
  acquired evs = [] ∧ released evs = [] ∧ created evs = [] ∧
  Forall notSetParent evs.
Proof.
  intros H.
  assert (H1 : Forall holdsNothing evs).
  { eapply Forall_impl; [exact H|]. by intros e (He & _). }
  assert (H2 : Forall plain evs).
  { eapply Forall_impl; [exact H|]. by intros e (_ & He). }
  destruct (holdsNothing_all _ H1) as [Ha Hr].
  split; [done|]. split; [done|]. split; [by apply created_plain|].
  by apply plain_notSetParent.
Qed.

Lemma legacyStep_quiet {A} (m : M A) lm s x s' :
  keeps m → emits still m → m s = (x, s') → x ≠ OutOfFuel → legacyStep lm lm s s'.
Proof.
  intros Hk He H Hx. destruct (He _ _ _ H) as (evs & Ht & Hall).
  destruct (still_all _ Hall) as (Ha & Hr & Hc & Hn).
  exists evs. split; [done|]. split; [exact (Hk _ _ _ H Hx)|].
  split; [done|]. split; [by rewrite Ha, Hr|]. split.
  - intros k i Hki. by left.
  - intros c p Hin. rewrite Forall_forall in Hn. destruct (Hn _ Hin).
Qed.

Lemma must_Ok {A} (x : ext A) (s : state W) a s' :
  must x s = (Ok a, s') → x = Got a ∧ s' = s.
Proof. destruct x; [by intros [= <- <-]|done]. Qed.

Lemma loadLayer_Ok filename rootFS ident foreignSrc po s l s' :
  loadLayer E filename rootFS ident foreignSrc po s = (Ok l, s') →
  ∃ evs, trace s' = trace s ++ evs ∧ defers s' = defers s ∧
    released evs = [] ∧ acquired evs = [l] ∧ created evs = [] ∧
    Forall notSetParent evs.
Proof.
  intros H.
  destruct (loadLayer_acquires _ _ _ _ _ _ _ _ H) as (_ & Hd & evs & Ht & Hr & Ha).
  assert (He : emits plain (loadLayer E filename rootFS ident foreignSrc po))
    by by apply emits_loadLayer.
  destruct (He _ _ _ H) as (evs' & Ht' & Hall).
  rewrite Ht in Ht'. apply app_inv_head in Ht'. subst evs'.
  exists evs. split; [done|]. split; [done|]. split; [done|]. split; [done|].
  split; [by apply created_plain|by apply plain_notSetParent].
Qed.

(** The body of [legacyLoadImage] when it returns nil, given what the
    resolution of the parent leaves. *)
Lemma legacyLoadImage_body_step resolveParent oldID sourceDir lm po s lm' s' :
  (∀ p lm0 s0 pid lm1 s1,
     resolveParent p lm0 s0 = (Ok (pid, lm1), s1) →
     legacyStep lm0 lm1 s0 s1 ∧ lm1 !! p = Some pid) →
  legacyLoadImage_body E resolveParent oldID sourceDir lm po s = (Ok lm', s') →
  legacyStep lm lm' s s' ∧ is_Some (lm' !! oldID).
Proof.
  intros Hr H. unfold legacyLoadImage_body in H.
  destruct (lm !! oldID) as [i0|] eqn:Hl.
  { injection H as <- <-. split; [apply legacyStep_refl|by rewrite Hl]. }
  apply bind_Ok_inv in H as (configPath & s1 & H1 & H).
  apply bind_Ok_inv in H as (imageJSON & s2 & H2 & H).
  apply bind_Ok_inv in H as (imgParent & s3 & H3 & H).
  apply bind_Ok_inv in H as ([parent_id lm1] & s4 & H4 & H).
  apply bind_Ok_inv in H as ([rootFS history] & s5 & H5 & H).
  apply bind_Ok_inv in H as (layerPath & s6 & H6 & H).
  apply bind_Ok_inv in H as (newLayer & s7 & H7 & H).
  cbv zeta in H.
  apply bind_Ok_inv in H as (h & s8 & H8 & H).
  apply bind_Ok_inv in H as (config & s9 & H9 & H).
  apply bind_Ok_inv in H as (imgid & s10 & H10 & H).
  apply bind_Ok_inv in H as (x & s11 & H11 & H).
  apply bind_Ok_inv in H as (u & s12 & H12 & H).
  apply bind_Ok_inv in H as (u2 & s13 & H13 & H).
  injection H as <- <-.
  (* up to the layer *)
  assert (S1 : legacyStep lm lm s s1).
  { refine (legacyStep_quiet _ lm _ _ _ _ _ H1 _); [keeps_tac|emits_tac|done]. }
  assert (S2 : legacyStep lm lm s1 s2).
  { refine (legacyStep_quiet _ lm _ _ _ _ _ H2 _); [keeps_tac|emits_tac|done]. }
  apply must_Ok in H3 as [_ ->].
  assert (S4 : legacyStep lm lm1 s2 s4 ∧
               (parent_id ≠ "" → lm1 !! imgParent = Some parent_id)).
  { destruct (negb (String.eqb imgParent "")).
    - destruct (Hr _ _ _ _ _ _ H4) as [S Hp]. by split.
    - injection H4 as <- <- <-. split; [apply legacyStep_refl|done]. }
  destruct S4 as [S4 Hparent].
  assert (S5 : legacyStep lm1 lm1 s4 s5).
  { refine (legacyStep_quiet _ lm1 _ _ _ _ _ H5 _); [| |done].
    - destruct (negb _); keeps_tac.
    - destruct (negb _); emits_tac. }
  assert (S6 : legacyStep lm1 lm1 s5 s6).
  { refine (legacyStep_quiet _ lm1 _ _ _ _ _ H6 _); [keeps_tac|emits_tac|done]. }
  pose proof (legacyStep_trans _ _ _ _ _ _
                (legacyStep_trans _ _ _ _ _ _
                   (legacyStep_trans _ _ _ _ _ _
                      (legacyStep_trans _ _ _ _ _ _ S1 S2) S4) S5) S6) as SA.
  clear S1 S2 S4 S5 S6 H1 H2 H4 H5 H6.
  (* from the layer on *)
  apply loadLayer_Ok in H7 as (evs7 & T7 & D7 & R7 & A7 & C7 & N7).
  apply must_Ok in H8 as [_ ->]. apply must_Ok in H9 as [_ ->].
  assert (T10 : trace s10 = trace s7 ++ [EvIsCreate config (Got imgid)] ∧
                defers s10 = defers s7).
  { unfold isCreate, bind, perform, must, ret, fail in H10.
    destruct (is_Create E config (world s7)) as [[i|e] w]; [|done].
    by injection H10 as <- <-. }
  destruct T10 as [T10 D10].
  assert (T11 : trace s11 = trace s10 ++ [EvLsRelease newLayer] ∧
                defers s11 = defers s10).
  { unfold perform in H11. destruct (ls_Release E newLayer (world s10)) as [y w].
    by injection H11 as _ <-. }
  destruct T11 as [T11 D11].
  apply must_Ok in H12 as [_ ->].
  assert (T13 : ∃ sp, trace s13 = trace s11 ++ sp ∧ defers s13 = defers s11 ∧
                  (sp = [] ∨ (sp = [EvIsSetParent imgid parent_id] ∧ parent_id ≠ ""))).
  { destruct (String.eqb_spec parent_id "") as [Heq|Hne]; cbn [negb] in H13.
    - injection H13 as _ <-. exists []. rewrite app_nil_r. split; [done|].
      split; [done|by left].
    - unfold isSetParent, bind, perform, must, ret, fail in H13.
      destruct (is_SetParent E imgid parent_id (world s11)) as [[y|e] w]; [|done].
      injection H13 as _ <-. exists [EvIsSetParent imgid parent_id].
      split; [done|]. split; [done|by right]. }
  destruct T13 as (sp & T13 & D13 & Hsp).
  destruct SA as (evsA & TA & DA & SubA & AA & VA & PA).
  set (evsB := evs7 ++ [EvIsCreate config (Got imgid)] ++ [EvLsRelease newLayer] ++ sp).
  assert (TB : trace s13 = trace s6 ++ evsB).
  { unfold evsB. rewrite T13, T11, T10, T7, <- !app_assoc. done. }
  assert (HspN : acquired sp = [] ∧ released sp = [] ∧ created sp = []).
  { by destruct Hsp as [->|[-> _]]. }
  destruct HspN as (Asp & Rsp & Csp).
  assert (AB : acquired evsB = [newLayer]).
  { unfold evsB. rewrite !acquired_app, A7, Asp. done. }
  assert (RB : released evsB = [newLayer]).
  { unfold evsB. rewrite !released_app, R7, Rsp. done. }
  assert (CB : created evsB = [imgid]).
  { unfold evsB. rewrite !created_app, C7, Csp. done. }
  assert (PB : ∀ c p, EvIsSetParent c p ∈ evsB →
                 c = imgid ∧ p = parent_id ∧ parent_id ≠ "").
  { intros c p Hin. unfold evsB in Hin.
    apply elem_of_app in Hin as [Hin|Hin].
    { rewrite Forall_forall in N7. destruct (N7 _ Hin). }
    apply elem_of_cons in Hin as [Hin|Hin]; [done|].
    apply elem_of_cons in Hin as [Hin|Hin]; [done|].
    destruct Hsp as [->|[-> Hne]]; [by apply elem_of_nil in Hin|].
    apply list_elem_of_singleton in Hin. by injection Hin as -> ->. }
  split; [|by rewrite lookup_insert_eq].
  exists (evsA ++ evsB). rewrite TB, TA, <- app_assoc.
  split; [done|]. split; [by rewrite D13, D11, D10, D7|].
  split; [by apply insert_subseteq_r|].
  rewrite acquired_app, released_app, created_app, AA, AB, RB, CB.
  split; [done|]. split.
  - intros k i Hk. destruct (decide (k = oldID)) as [->|Hko].
    + rewrite lookup_insert_eq in Hk. injection Hk as <-.
      right. apply elem_of_app. right. by left.
    + rewrite lookup_insert_ne in Hk by done.
      destruct (VA _ _ Hk) as [Hk1|Hc]; [by left|].
      right. apply elem_of_app. by left.
  - intros c p Hin. apply elem_of_app in Hin as [Hin|Hin].
    + destruct (PA _ _ Hin) as [Hc [Hp|Hp]].
      * split; [|left]; apply elem_of_app; by left.
      * split; [apply elem_of_app; by left|by right].
    + destruct (PB _ _ Hin) as (-> & -> & Hne).
      split; [apply elem_of_app; right; by left|].
      destruct (VA _ _ (Hparent Hne)) as [Hk|Hc]; [right; by eexists|].
      left. apply elem_of_app. by left.
Qed.

Lemma legacyLoadImage_step fuel :
  (∀ oldID sourceDir lm po s lm' s',
     legacyLoadImage E fuel oldID sourceDir lm po s = (Ok lm', s') →
     legacyStep lm lm' s s' ∧ is_Some (lm' !! oldID)) ∧
  (∀ parent sourceDir lm po s pid lm' s',
     legacyLoadImage_parent E fuel parent sourceDir lm po s = (Ok (pid, lm'), s') →
     legacyStep lm lm' s s' ∧ lm' !! parent = Some pid).
Proof.
  induction fuel as [|fuel [IH1 IH2]]; (split; [intros oldID|intros parent]);
    intros sourceDir lm po s; [done|done|..].
  - intros lm' s' H.
    change (legacyLoadImage_body E
              (λ p lm0, legacyLoadImage_parent E fuel p sourceDir lm0 po)
              oldID sourceDir lm po s = (Ok lm', s')) in H.
    refine (legacyLoadImage_body_step _ _ _ _ _ _ _ _ _ H).
    intros p lm0 s0 pid lm1 s1. apply IH2.
  - intros pid lm' s' H.
    change ((match lm !! parent with
             | Some parent_id => ret (parent_id, lm)
             | None =>
                 bind (legacyLoadImage E fuel parent sourceDir lm po)
                   (λ lm1, legacyLoadImage_parent E fuel parent sourceDir lm1 po)
             end) s = (Ok (pid, lm'), s')) in H.
    destruct (lm !! parent) as [i|] eqn:Hl.
    + injection H as <- <- <-. split; [apply legacyStep_refl|done].
    + apply bind_Ok_inv in H as (lm1 & s1 & H1 & H2).
      destruct (IH1 _ _ _ _ _ _ _ H1) as [S1 _].
      destruct (IH2 _ _ _ _ _ _ _ _ H2) as [S2 Hp].
      split; [exact (legacyStep_trans _ _ _ _ _ _ S1 S2)|done].
Qed.

(** X17: the map of resolved legacy ids only grows: when [legacyLoadImage]
    returns nil, every id resolved before still has its image id, and the
    id it was called for is resolved. *)
Theorem legacyLoadImage_map_grows (fuel : nat) (oldID sourceDir : string)
    (lm : gmap string ImageID) (po : bool) (s : state W)
    (lm' : gmap string ImageID) (s' : state W) :
  legacyLoadImage E fuel oldID sourceDir lm po s = (Ok lm', s') →
  lm ⊆ lm' ∧ is_Some (lm' !! oldID).
Proof.
  intros H. destruct (proj1 (legacyLoadImage_step fuel) _ _ _ _ _ _ _ H)
    as [(evs & _ & _ & Hsub & _) Hsome].
  by split.
Qed.

(** X18: when [legacyLoadImage] returns nil it holds no layer: the layers
    it registered, for the image and for the parents it had to resolve,
    are the layers it released, in the same order, and nothing is left
    deferred. *)
Theorem legacyLoadImage_releases_on_success (fuel : nat) (oldID sourceDir : string)
    (lm : gmap string ImageID) (po : bool) (s : state W)
    (lm' : gmap string ImageID) (s' : state W) :
  legacyLoadImage E fuel oldID sourceDir lm po s = (Ok lm', s') →
  ∃ evs, trace s' = trace s ++ evs ∧ acquired evs = released evs ∧
         defers s' = defers s.
Proof.
  intros H. destruct (proj1 (legacyLoadImage_step fuel) _ _ _ _ _ _ _ H)
    as [(evs & Ht & Hd & _ & Ha & _) _].
  by exists evs.
Qed.

(** X19: when [legacyLoadImage] returns nil, every image id that the map
    has gained is one that this call created, and every parent was set
    for an image that this call created, to an image that this call
    created or that the map knew before. *)
Theorem legacyLoadImage_links_created (fuel : nat) (oldID sourceDir : string)
    (lm : gmap string ImageID) (po : bool) (s : state W)
    (lm' : gmap string ImageID) (s' : state W) :
  legacyLoadImage E fuel oldID sourceDir lm po s = (Ok lm', s') →
  ∃ evs, trace s' = trace s ++ evs ∧
    (∀ k i, lm' !! k = Some i → lm !! k = Some i ∨ i ∈ created evs) ∧
    (∀ c p, EvIsSetParent c p ∈ evs →
       c ∈ created evs ∧ (p ∈ created evs ∨ ∃ k, lm !! k = Some p)).
Proof.
  intros H. destruct (proj1 (legacyLoadImage_step fuel) _ _ _ _ _ _ _ H)
    as [(evs & Ht & _ & _ & _ & Hv & Hp) _].
  by exists evs.
Qed.

(** *** The tags of the legacy loader *)

Lemma legacyLoad_dirs_step fuel tmpDir po (dirs : list FileInfo) lm0 s lm s' :
  forM dirs (λ d loadedMap,
    if IsDir d
    then legacyLoadImage E fuel (fiName d) tmpDir loadedMap po
    else ret loadedMap) lm0 s = (Ok lm, s') →
  legacyStep lm0 lm s s' ∧
  ∀ d, d ∈ dirs → IsDir d = true → is_Some (lm !! fiName d).
Proof.
  revert lm0 s. induction dirs as [|d dirs IH]; intros lm0 s; simpl.
  - intros [= <- <-]. split; [apply legacyStep_refl|].
    intros d Hd. by apply elem_of_nil in Hd.
  - intros H. apply bind_Ok_inv in H as (lm1 & s1 & H1 & H).
    destruct (IH _ _ H) as [S2 Hdirs].
    assert (S1 : legacyStep lm0 lm1 s s1 ∧
                 (IsDir d = true → is_Some (lm1 !! fiName d))).
    { destruct (IsDir d).
      - destruct (proj1 (legacyLoadImage_step fuel) _ _ _ _ _ _ _ H1) as [S Hs].
        by split.
      - injection H1 as <- <-. split; [apply legacyStep_refl|done]. }
    destruct S1 as [S1 Hd].
    split; [exact (legacyStep_trans _ _ _ _ _ _ S1 S2)|].
    intros d' Hin Hdir. apply elem_of_cons in Hin as [->|Hin]; [|by apply Hdirs].
    destruct S2 as (evs & _ & _ & Hsub & _).
    destruct (Hd Hdir) as [i Hi]. exists i. exact (lookup_weaken _ _ _ _ Hi Hsub).
Qed.

(** X20: [legacyLoad] reports an invalid target id only for a tag of the
    repositories file that names an id without an image directory in the
    archive: every directory was resolved before the tags are read. *)
Theorem legacyLoad_invalid_target_has_no_dir (fuel : nat) (tmpDir : string)
    (po : bool) (s : state W) (oldID : string) (s' : state W)
    (dirs : list FileInfo) (w : W) :
  legacyLoad E fuel tmpDir po s = (Err (ErrInvalidTargetID oldID), s') →
  ReadDir E tmpDir (world s) = (Got dirs, w) →
  ∀ d, d ∈ dirs → IsDir d = true → fiName d ≠ oldID.
Proof.
  intros H Hdirs. unfold legacyLoad in H.
  apply scope_inv in H as (s1 & Hb & _); [|done].
  assert (H1 : call (ReadDir E tmpDir)
                 {| world := world s; trace := trace s; defers := [] |}
               = (Ok dirs, {| world := w; trace := trace s ++ []; defers := [] |})).
  { unfold call, bind, perform, must, ret. simpl. by rewrite Hdirs. }
  rewrite (bind_Ok _ _ _ _ _ H1) in Hb.
  destruct (bind_inv _ _ _ _ _ Hb) as [(lm & s2 & H2 & H3)|[(e & H2 & He)|[_ [=]]]].
  - destruct (legacyLoad_dirs_step _ _ _ _ _ _ _ _ H2) as [_ Hres].
    set (Q := λ e : error, ∀ k, e = ErrInvalidTargetID k → lm !! k = None).
    assert (HQ : raises Q
      (repositoriesPath <- safePath E tmpDir (legacyRepositoriesFileName E) ;;
       repositoriesFile <- call (osOpen E repositoriesPath) ;;
       defer (DClose repositoriesFile) ;;;
       repositories <- call (decodeRepositories E repositoriesFile) ;;
       forM repositories (λ entry (_ : unit),
         forM (snd entry) (λ tagged (_ : unit),
           match lm !! snd tagged with
           | None => fail (ErrInvalidTargetID (snd tagged))
           | Some imgid =>
               named <- must (ParseNormalizedNamed E (fst entry)) ;;
               ref <- must (WithTag E named (fst tagged)) ;;
               ignoreErr (setLoadedTag E ref imgid)
           end) tt) tt)).
    { assert (Hext : ∀ e, Q (ErrExt e)) by by intros e k.
      apply raises_bind; [by apply raises_call|]. intros repositoriesPath.
      apply raises_bind; [by apply raises_call|]. intros repositoriesFile.
      apply raises_bind; [apply raises_defer|]. intros _.
      apply raises_bind; [by apply raises_call|]. intros repositories.
      apply raises_forM. intros entry [].
      apply raises_forM. intros tagged [].
      destruct (lm !! snd tagged) as [imgid|] eqn:Hl.
      - apply raises_bind; [by apply raises_must|]. intros named.
        apply raises_bind; [by apply raises_must|]. intros ref.
        apply raises_ignoreErr.
      - apply raises_fail. by intros k [= <-]. }
    pose proof (HQ _ _ _ H3 oldID eq_refl) as Hnone.
    intros d Hin Hdir Heq. destruct (Hres d Hin Hdir) as [i Hi]. congruence.
  - injection He as <-.
    assert (HP : raises (λ e, ∀ k, e ≠ ErrInvalidTargetID k)
      (forM dirs (λ d loadedMap,
         if IsDir d
         then legacyLoadImage E fuel (fiName d) tmpDir loadedMap po
         else ret loadedMap) ∅)).
    { apply raises_forM. intros d lm. destruct (IsDir d); [|apply raises_ret].
      by apply raises_legacyLoadImage. }
    destruct (HP _ _ _ H2 oldID eq_refl).
Qed.

(** *** The single-blob loader, when it returns nil *)






(** *** Layers that the store already has *)

Lemma holding_quiet {A} (m : M A) :
  keeps m → emits holdsNothing m → holding (W:=W) m.
Proof.
  intros Hk He s x s' H Hx.
  destruct (He _ _ _ H) as (evs & Ht & Hall).
  destruct (holdsNothing_all _ Hall) as [Ha Hr].
  exists evs. by rewrite Ha, Hr, (Hk _ _ _ H Hx).
Qed.

Lemma holding_bind {A B} (m : M A) (k : A → M B) :
  holding m → (∀ a, holding (k a)) → holding (bind m k).
Proof.
  intros Hm Hk s x s' H Hx.
  destruct (bind_inv _ _ _ _ _ H) as [(a & s1 & H1 & H2)|[(e & H1 & ->)|[_ ->]]].
  - destruct (Hm _ _ _ H1) as (evs1 & Ht1 & Hr1 & Hd1); [done|].
    destruct (Hk _ _ _ _ H2 Hx) as (evs2 & Ht2 & Hr2 & Hd2).
    exists (evs1 ++ evs2).
    rewrite Ht2, Ht1, Hd2, Hd1, released_app, Hr1, Hr2, acquired_app,
      reverse_app, map_app, <- !app_assoc.
    done.
  - by apply (Hm _ _ _ H1).
  - done.
Qed.

Lemma holding_forM {X A} (xs : list X) (body : X → A → M A) (a : A) :
  (∀ x a, holding (body x a)) → holding (forM xs body a).
Proof.
  intros Hb. revert a. induction xs as [|x xs IH]; intros a; simpl.
  - apply holding_quiet; [apply keeps_ret|apply emits_ret].
  - apply holding_bind; [apply Hb|]. intros a'. apply IH.
Qed.

Lemma holding_forRange {X A} (i : nat) (xs : list X) (body : nat → X → A → M A)
    (a : A) :
  (∀ i x a, holding (body i x a)) → holding (forRange i xs body a).
Proof.
  intros Hb. revert i a. induction xs as [|x xs IH]; intros i a; simpl.
  - apply holding_quiet; [apply keeps_ret|apply emits_ret].
  - apply holding_bind; [apply Hb|]. intros a'. apply IH.
Qed.

Ltac hold_tac := apply holding_quiet; [keeps_tac|emits_tac].

Lemma holding_loadManifestLayer tmpDir m po i diffID rootFS :
  holding (loadManifestLayer E tmpDir m po i diffID rootFS).
Proof.
  intros s x s' H _. unfold loadManifestLayer in H.
  destruct (Layers m !! i) as [layerFile|].
  2: { injection H as <- <-. exists []. by rewrite app_nil_r. }
  assert (Hsafe : ∀ base path t x1 t1, safePath E base path t = (x1, t1) →
                    x1 ≠ OutOfFuel ∧ trace t1 = trace t ∧ defers t1 = defers t).
  { intros base path t x1 t1. unfold safePath, call, bind, perform, must, ret, fail.
    destruct (FollowSymlinkInScope E _ _ _) as [[a|e] w]; intros [= <- <-]; simpl;
      by rewrite app_nil_r. }
  destruct (bind_inv _ _ _ _ _ H) as [(layerPath & s1 & H1 & H2)|[(e & H1 & ->)|[H1 ->]]].
  2: { apply Hsafe in H1 as (_ & Ht & Hd). exists []. by rewrite app_nil_r. }
  2: { by apply Hsafe in H1 as (? & _). }
  apply Hsafe in H1 as (_ & Ht1 & Hd1).
  destruct (bind_inv _ _ _ _ _ H2) as [(newLayer & s2 & H3 & H4)|[(e & H3 & ->)|[H3 ->]]].
  2: { apply obtainLayer_acquires in H3 as (_ & Hd & evs & Ht & Hr & Ha).
       exists evs. by rewrite Ha, Ht, Hd, Ht1, Hd1. }
  2: { by apply obtainLayer_acquires in H3 as (? & _). }
  apply obtainLayer_acquires in H3 as (_ & Hd & evs & Ht & Hr & Ha).
  unfold bind, defer in H4. simpl in H4.
  destruct (negb (String.eqb diffID (layerDiffID newLayer)));
    injection H4 as <- <-; simpl;
    exists evs; by rewrite Ha, Ht, Hd, Ht1, Hd1.
Qed.

Lemma holding_loadManifestItem tmpDir po m acc :
  holding (loadManifestItem E tmpDir po m acc).
Proof.
  unfold loadManifestItem. destruct acc as [[parentLinks imageIDsStr] imageRefCount].
  apply holding_bind; [hold_tac|]. intros configPath.
  apply holding_bind; [hold_tac|]. intros config.
  apply holding_bind; [hold_tac|]. intros img.
  destruct (negb _); [hold_tac|].
  apply holding_bind.
  { apply holding_forRange. intros. apply holding_loadManifestLayer. }
  intros rootFS.
  apply holding_bind; [hold_tac|]. intros imgid.
  apply holding_bind.
  { apply holding_forM. intros repoTag n. apply holding_quiet.
    - apply keeps_loadManifestTag.
    - apply emits_loadManifestTag; by intros. }
  intros n. apply holding_bind; [hold_tac|]. intros _. hold_tac.
Qed.

Lemma holding_loadManifest tmpDir po manifest :
  holding (loadManifest E tmpDir po manifest).
Proof.
  unfold loadManifest.
  apply holding_bind.
  { apply holding_forM. intros. apply holding_loadManifestItem. }
  intros [[parentLinks imageIDsStr] imageRefCount].
  apply holding_bind.
  { apply holding_forM. intros p []. destruct (negb _); [|hold_tac].
    apply holding_quiet; [apply keeps_setParentID|].
    apply emits_setParentID; by intros. }
  intros _. apply holding_bind; [|intros _; hold_tac].
  destruct (imageRefCount =? 0); hold_tac.
Qed.

(** Running a stack of deferred releases: [Release] of the layer store is
    applied for each layer, from the top of the stack down. *)
Lemma runDefers_layers (ls : list Layer) (st : state W) :
  runDefers E (map DReleaseAndLog ls) st
  = {| world := foldl (λ w l, (ls_Release E l w).2) (world st) ls;
       trace := trace st ++ map EvLsRelease ls; defers := defers st |}.
Proof.
  revert st. induction ls as [|l ls IH]; intros st.
  - destruct st. simpl. by rewrite app_nil_r.
  - change (runDefers E (map DReleaseAndLog (l :: ls)) st)
      with (runDefers E (map DReleaseAndLog ls) (runDeferred E (DReleaseAndLog l) st)).
    rewrite IH. simpl. by rewrite <- app_assoc.
Qed.

Lemma scope_run {A} (body : M A) s x s1 :
  body {| world := world s; trace := trace s; defers := [] |} = (x, s1) →
  x ≠ OutOfFuel →
  scope E body s
  = (x, runDefers E (defers s1)
          {| world := world s1; trace := trace s1; defers := defers s |}).
Proof. unfold scope. intros -> Hx. by destruct x. Qed.

Lemma acquired_lsGet (evs : list event) (c : ChainID) (l : Layer) :
  EvLsGet c (Got l) ∈ evs → l ∈ acquired evs.
Proof.
  intros Hin. apply list_elem_of_omap. by exists (EvLsGet c (Got l)).
Qed.

(** C8: at a layer position whose chain id the layer store already has,
    nothing is registered: the only call to the store is the lookup, and
    the layer found is put on the deferred stack of [Load]; a registration
    in this step means that the lookup failed.  And [Load] holds what it
    took until it returns: on an archive with a manifest, no layer is
    given back while the images are built, and when the manifest loop
    returns, with nil or with an error, [Load] applies [Release] of the
    layer store to every layer that the loop took, a layer found by a
    lookup included, the last taken first, then closes the manifest file
    and removes the scratch directory. *)
Theorem loadManifestLayer_reuses_existing (tmpDir : string) (m : manifestItem)
    (po : bool) (i : nat) (diffID : DiffID) (rootFS : RootFS) (s : state W) :
  let c := ChainID_of E (RootFS_Append rootFS diffID) in
  (∀ layerFile layerPath w1 l w2,
     Layers m !! i = Some layerFile →
     FollowSymlinkInScope E (pathJoin E [tmpDir; layerFile]) tmpDir (world s)
       = (Got layerPath, w1) →
     ls_Get E c w1 = (Got l, w2) →
     loadManifestLayer E tmpDir m po i diffID rootFS s
     = (if String.eqb diffID (layerDiffID l)
        then Ok (RootFS_Append rootFS diffID)
        else Err (ErrInvalidDiffID (Some i) diffID (layerDiffID l)),
        {| world := w2; trace := trace s ++ [EvLsGet c (Got l)];
           defers := DReleaseAndLog l :: defers s |}) ∧
     ∀ ds st, DReleaseAndLog l ∈ ds → EvLsRelease l ∈ trace (runDefers E ds st)) ∧
  (∀ stream parent x,
     EvLsRegister stream parent x
       ∈ drop (length (trace s))
           (trace (loadManifestLayer E tmpDir m po i diffID rootFS s).2) →
     ∃ layerFile layerPath w1 e w2,
       Layers m !! i = Some layerFile ∧
       FollowSymlinkInScope E (pathJoin E [tmpDir; layerFile]) tmpDir (world s)
         = (Got layerPath, w1) ∧
       ls_Get E c w1 = (Failed e, w2)) ∧
  (∀ fuel inTar quiet (s0 : state W) w1 b reader w2 manifestPath w3 manifestFile w4
      manifest w5 x s',
     TempDir E "" "docker-import-" (world s0) = (Got tmpDir, w1) →
     bufferedReadCloser_Peek {| r := Bufio.NewReader inTar |} 4 = (b, None, reader) →
     bytes_eqb b squashfsMagic = false →
     let content := fst (readAll copyBufSize reader) in
     Untar E content tmpDir w1 = (Got tt, w2) →
     FollowSymlinkInScope E (pathJoin E [tmpDir; manifestFileName E]) tmpDir w2
       = (Got manifestPath, w3) →
     osOpen E manifestPath w3 = (Got manifestFile, w4) →
     decodeManifest E manifestFile w4 = (Got manifest, w5) →
     let sM := {| world := w5; trace := trace s0 ++ [EvUntar content tmpDir];
                  defers := [DClose manifestFile; DRemoveAll tmpDir] |} in
     loadManifest E tmpDir (negb quiet) manifest sM = (x, s') →
     ∃ evs,
       trace s' = trace sM ++ evs ∧ released evs = [] ∧
       (∀ c' l, EvLsGet c' (Got l) ∈ evs → l ∈ reverse (acquired evs)) ∧
       Load E fuel inTar quiet s0
       = (x, {| world :=
                  RemoveAll E tmpDir
                    (fileClose E manifestFile
                       (foldl (λ w l, (ls_Release E l w).2) (world s')
                          (reverse (acquired evs))));
                trace := trace s' ++ map EvLsRelease (reverse (acquired evs))
                         ++ [EvRemoveAll tmpDir];
                defers := defers s0 |})).
Proof.
  intros c. split; [|split].
  - intros layerFile layerPath w1 l w2 Hl Hp Hg. split.
    + unfold loadManifestLayer. rewrite Hl.
      unfold safePath, call, obtainLayer, lsGet, bind, perform, must, ret, defer.
      rewrite Hp. simpl. fold c. rewrite Hg. simpl. rewrite app_nil_r.
      by destruct (String.eqb diffID (layerDiffID l)).
    + intros ds st. apply runDefers_releases.
  - intros stream parent x Hin.
    unfold loadManifestLayer in Hin.
    destruct (Layers m !! i) as [layerFile|] eqn:Hl.
    2: { simpl in Hin. rewrite drop_all in Hin. by apply elem_of_nil in Hin. }
    unfold safePath, call, bind, perform, must, ret in Hin.
    destruct (FollowSymlinkInScope E _ _ _) as [[layerPath|e] w1] eqn:Hp.
    2: { simpl in Hin. rewrite app_nil_r, drop_all in Hin.
         by apply elem_of_nil in Hin. }
    simpl in Hin. unfold obtainLayer, lsGet, perform, bind, ret in Hin.
    simpl in Hin. fold c in Hin.
    destruct (ls_Get E c w1) as [[l|e] w2] eqn:Hg.
    2: { by exists layerFile, layerPath, w1, e, w2. }
    exfalso. simpl in Hin.
    assert (Hd : drop (length (trace s))
              ((trace s ++ []) ++ [EvLsGet c (Got l)]) = [EvLsGet c (Got l)]).
    { rewrite app_nil_r, drop_app_length. done. }
    destruct (negb (String.eqb diffID (layerDiffID l))); simpl in Hin;
      rewrite Hd in Hin; set_solver.
  - intros fuel inTar quiet s0 w1 b reader w2 manifestPath w3 manifestFile w4
      manifest w5 x s' HT HP Hb content HU HF HO HD sM HL.
    assert (Hx : x ≠ OutOfFuel).
    { pose proof (total_loadManifest tmpDir (negb quiet) manifest sM) as Ht.
      by rewrite HL in Ht. }
    destruct (holding_loadManifest _ _ _ _ _ _ HL Hx) as (evs & Ht & Hr & Hd).
    exists evs. split; [exact Ht|]. split; [exact Hr|]. split.
    { intros c' l Hin. apply elem_of_reverse. by apply (acquired_lsGet _ c'). }
    assert (Hbody :
      (let progressOutput := negb quiet in
       tmpDir0 <- call (TempDir E "" "docker-import-") ;;
       defer (DRemoveAll tmpDir0) ;;;
       let reader0 := {| r := Bufio.NewReader inTar |} in
       let '(b0, err, reader1) := bufferedReadCloser_Peek reader0 4 in
       match err with
       | Some e => fail (ErrPeek e)
       | None =>
           if bytes_eqb b0 squashfsMagic
           then loadSquashFS E reader1 tmpDir0 progressOutput
           else loadArchive E fuel reader1 tmpDir0 progressOutput
       end) {| world := world s0; trace := trace s0; defers := [] |} = (x, s')).
    { cbv zeta. unfold call, bind, perform, must, ret, defer.
      cbn [world trace defers]. rewrite HT. cbn [world trace defers].
      rewrite HP, Hb.
      unfold loadArchive, safePath, call, bind, perform, must, ret, defer.
      cbn [world trace defers]. fold content. rewrite HU.
      cbn [world trace defers]. rewrite HF. cbn [world trace defers].
      rewrite HO. cbn [world trace defers]. rewrite HD.
      cbn [world trace defers]. rewrite !app_nil_r. exact HL. }
    etransitivity; [exact (scope_run _ s0 x s' Hbody Hx)|].
    rewrite Hd. unfold sM. cbn [defers].
    rewrite runDefers_app, runDefers_layers.
    cbn [runDefers foldl runDeferred world trace defers].
    by rewrite <- !app_assoc.
Qed.

End LoaderMore.

(** ** [squashfsMount], further *)

Module AufsMore.
Import Aufs.

(** X22: the test on the listing is a substring test: when the diff path of
    the layer occurs anywhere in the output of [mount], also inside a
    longer path, [squashfsMount] runs no squashfs mount and returns nil. *)
Theorem squashfsMount_skips_on_substring {W : Type} (o : OS W) (a : Driver)
    (name : string) (st : run W) (u : unit) (w w' : W) (pre post : string) :
  let source := pathJoin o [rootPath a; "squashfs"; name] in
  let layer := pathJoin o [rootPath a; "diff"; name] in
  Stat o source (os_world st) = (Got u, w) →
  Output o ["mount"] w = (Got (pre +:+ layer +:+ post), w') →
  squashfsMount o a name st
  = (None, {| os_world := w'; commands := commands st ++ [["mount"]] |}).
Proof.
  intros source layer Hs Ho. unfold squashfsMount, command.
  fold source. fold layer. rewrite Hs. cbn [os_world commands]. rewrite Ho.
  assert (Contains (pre +:+ layer +:+ post) layer = true) as ->; [|done].
  apply AufsFacts.Contains_app_r, AufsFacts.Contains_prefix, AufsFacts.prefix_app.
Qed.

Lemma squashfsMount_skips_on_substring_witness :
  squashfsMount simOS Fixtures.aufsRoot "l1" Fixtures.mountedBeside
  = (None, {| os_world := os_world Fixtures.mountedBeside;
              commands := [["mount"]] |}).
Proof.
  exact (squashfsMount_skips_on_substring simOS Fixtures.aufsRoot "l1"
           Fixtures.mountedBeside tt (os_world Fixtures.mountedBeside)
           (os_world Fixtures.mountedBeside)
           "/var/squashfs/l10 on " ("0 type squashfs (ro)" +:+ nl)
           eq_refl eq_refl).
Defined.

(** X23: an error that [squashfsMount] returns is the error of the last
    command it ran, the listing or the squashfs mount of the layer; an
    error of [os.Stat] is never returned. *)
Theorem squashfsMount_error_is_last_command {W : Type} (o : OS W) (a : Driver)
    (name : string) (st : run W) (err : exterr) (st' : run W) :
  let source := pathJoin o [rootPath a; "squashfs"; name] in
  let layer := pathJoin o [rootPath a; "diff"; name] in
  squashfsMount o a name st = (Some err, st') →
  ∃ argv w cmds,
    commands st' = cmds ++ [argv] ∧
    (argv = ["mount"] ∨ argv = mountSquashfs source layer) ∧
    Output o argv w = (Failed err, os_world st').
Proof.
  intros source layer. unfold squashfsMount, command. fold source. fold layer.
  destruct (Stat o source (os_world st)) as [[u|e] w]; [|done].
  cbn [os_world commands].
  destruct (Output o ["mount"] w) as [[out|e] w'] eqn:Ho.
  - destruct (Contains out layer); cbn [negb]; [done|].
    cbn [os_world commands].
    destruct (Output o ["mount"; "-t"; "squashfs"; source; layer] w')
      as [[out2|e] w''] eqn:Hm; [done|].
    intros [= <- <-]. exists (mountSquashfs source layer), w', (commands st ++ [["mount"]]).
    split; [done|]. split; [by right|done].
  - intros [= <- <-]. exists ["mount"], w, (commands st).
    split; [done|]. split; [by left|done].
Qed.

Lemma squashfsMount_error_is_last_command_witness :
  ∃ argv w cmds,
    commands (squashfsMount Fixtures.failingOS Fixtures.aufsRoot "l1"
                {| os_world := tt; commands := [] |}).2 = cmds ++ [argv] ∧
    (argv = ["mount"] ∨
     argv = mountSquashfs (pathJoin Fixtures.failingOS ["var"; "squashfs"; "l1"])
              (pathJoin Fixtures.failingOS ["var"; "diff"; "l1"])) ∧
    Output Fixtures.failingOS argv w = (Failed (EOther "exit status 32"), tt).
Proof.
  exact (squashfsMount_error_is_last_command Fixtures.failingOS Fixtures.aufsRoot
           "l1" {| os_world := tt; commands := [] |} (EOther "exit status 32")
           {| os_world := tt; commands := [["mount"]] |} eq_refl).
Defined.

End AufsMore.

(** ** Further runs on the in-memory engine *)

Module FurtherRuns.
Import Sim Fixtures.

(** On an archive whose one layer the store already has: nothing is
    registered, and [Load] gives the reference back when it returns,
    after the image has been created. *)
Lemma Load_releases_reused_layer :
  let '(res, s) := Load (collab fxMismatch) 1 tarStream true hasGood in
  res = Ok tt ∧
  trace s =
    [ EvUntar (Bufio.remaining tarStream) dir;
      EvLsGet "sha256:good" (Got goodLayer);
      EvIsCreate "cfgA" (Got "img:cfgA");
      EvLogImageEvent "img:cfgA";
      EvWrite ("Loaded image ID: img:cfgA" +:+ nl);
      EvLsRelease goodLayer;
      EvRemoveAll dir ] ∧
  wHeld (world s) = [].
Proof. vm_compute. repeat split; reflexivity. Qed.

Lemma loadManifestLayer_reuses_existing_witness :
  let sM := {| world := world hasGood;
               trace := trace hasGood
                        ++ [EvUntar (fst (readAll copyBufSize
                              (bufferedReadCloser_Peek
                                 {| r := Bufio.NewReader tarStream |} 4).2)) dir];
               defers := [DClose "/docker-import-1/manifest.json";
                          DRemoveAll dir] |} in
  let s' := (loadManifest (collab fxMismatch) dir (negb true) [oneLayer] sM).2 in
  ∃ evs,
    trace s' = trace sM ++ evs ∧ released evs = [] ∧
    (∀ c' l, EvLsGet c' (Got l) ∈ evs → l ∈ reverse (acquired evs)) ∧
    Load (collab fxMismatch) 1 tarStream true hasGood
    = (Ok tt,
       {| world :=
            RemoveAll (collab fxMismatch) dir
              (fileClose (collab fxMismatch) "/docker-import-1/manifest.json"
                 (foldl (λ w l, (ls_Release (collab fxMismatch) l w).2) (world s')
                    (reverse (acquired evs))));
          trace := trace s' ++ map EvLsRelease (reverse (acquired evs))
                   ++ [EvRemoveAll dir];
          defers := defers hasGood |}).
Proof.
  intros sM s'.
  exact (proj2 (proj2 (loadManifestLayer_reuses_existing (collab fxMismatch) dir
                         oneLayer false 0 "sha256:good"
                         {| Type_ := "layers"; DiffIDs := [] |} hasGood))
           1 tarStream true hasGood (world hasGood)
           (bufferedReadCloser_Peek {| r := Bufio.NewReader tarStream |} 4).1.1
           (bufferedReadCloser_Peek {| r := Bufio.NewReader tarStream |} 4).2
           (world hasGood) "/docker-import-1/manifest.json" (world hasGood)
           "/docker-import-1/manifest.json" (world hasGood) [oneLayer]
           (world hasGood) (Ok tt) s'
           eq_refl ltac:(vm_compute; reflexivity) ltac:(vm_compute; reflexivity)
           eq_refl eq_refl eq_refl eq_refl ltac:(vm_compute; reflexivity)).
Defined.

Lemma loadManifestLayers_verified_witness :
  ∃ layers,
    defers (forRange 0 (DiffIDs (imgRootFS claimsGood))
              (loadManifestLayer (collab fxMatch) dir oneLayer false)
              {| Type_ := Type_ (imgRootFS claimsGood); DiffIDs := [] |} start).2
    = map DReleaseAndLog (reverse layers) ++ defers start ∧
    map layerDiffID layers = DiffIDs (imgRootFS claimsGood).
Proof.
  exact (proj2 (loadManifestLayers_verified (collab fxMatch) dir oneLayer false
                  claimsGood start (imgRootFS claimsGood)
                  (forRange 0 (DiffIDs (imgRootFS claimsGood))
                     (loadManifestLayer (collab fxMatch) dir oneLayer false)
                     {| Type_ := Type_ (imgRootFS claimsGood); DiffIDs := [] |}
                     start).2
                  ltac:(vm_compute; reflexivity))).
Defined.

Lemma Load_removes_scratch_dir_witness :
  last (trace (Load (collab fxTagged) 1 tarStream true start).2)
  = Some (EvRemoveAll dir) ∧
  defers (Load (collab fxTagged) 1 tarStream true start).2 = defers start.
Proof.
  exact (Load_removes_scratch_dir (collab fxTagged) 1 tarStream true start dir
           emptyWorld (Ok tt) (Load (collab fxTagged) 1 tarStream true start).2
           eq_refl ltac:(vm_compute; reflexivity) ltac:(discriminate)).
Defined.

Lemma loadManifestTag_drops_tag_error_witness :
  ∃ s' evs,
    loadManifestTag (collab fxTagged) "img:cfgA" "busybox:latest" 0 start
    = (Ok 1, s') ∧
    trace s' = trace start ++ evs
               ++ [EvRsAddTag {| Name := "busybox"; Tag := Some "latest" |} "img:cfgA";
                   EvWrite ("Loaded image: "
                            +:+ FamiliarString (collab fxTagged)
                                  {| Name := "busybox"; Tag := Some "latest" |}
                            +:+ nl)] ∧
    (evs = [] ∨ ∃ str, evs = [EvWrite str]) ∧
    defers s' = defers start.
Proof.
  exact (loadManifestTag_drops_tag_error (collab fxTagged) "img:cfgA"
           "busybox:latest" 0 {| Name := "busybox"; Tag := Some "latest" |}
           "latest" start eq_refl eq_refl).
Defined.

Lemma loadSquashFS_no_root_dir_witness :
  loadSquashFS (collab fxNone) {| r := Bufio.NewReader squashStream |} dir false start
  = (Err ErrNoRootDir,
     {| world := emptyWorld; trace := trace start; defers := defers start |}).
Proof.
  exact (loadSquashFS_no_root_dir (collab fxNone)
           {| r := Bufio.NewReader squashStream |} dir false start [] emptyWorld
           eq_refl
           (λ v Hv, False_ind _ (proj1 (elem_of_nil ("Root Dir", v)) Hv))).
Defined.

Lemma loadManifest_parents_from_batch_witness :
  ∃ evs, trace (loadManifest (collab fxWithParent) dir false withParent start).2
         = trace start ++ evs ∧
    EvIsSetParent "img:cfgChild" "img:cfgParent" ∈ evs ∧
    "img:cfgChild" ∈ created evs ∧ "img:cfgParent" ∈ created evs.
Proof.
  destruct (loadManifest_parents_from_batch (collab fxWithParent) dir false
              withParent start) as (evs & Ht & Hall).
  exists evs. split; [exact Ht|].
  assert (Hin : EvIsSetParent "img:cfgChild" "img:cfgParent" ∈ evs).
  { change (trace start ++ evs) with evs in Ht. rewrite <- Ht. vm_compute.
    repeat first [apply list_elem_of_here | apply list_elem_of_further]. }
  split; [exact Hin|]. exact (proj2 (Hall _ _ Hin)).
Defined.

Lemma legacyLoadImage_map_grows_witness :
  ∃ lm' s',
    legacyLoadImage (collab fxChain) 5 "a" dir ∅ false start = (Ok lm', s') ∧
    (∅ : gmap string ImageID) ⊆ lm' ∧ is_Some (lm' !! "a").
Proof.
  destruct (legacyLoadImage (collab fxChain) 5 "a" dir ∅ false start)
    as [[lm'|e|] s'] eqn:H.
  - exists lm', s'. split; [reflexivity|].
    exact (legacyLoadImage_map_grows _ _ _ _ _ _ _ _ _ H).
  - vm_compute in H. discriminate.
  - vm_compute in H. discriminate.
Defined.

Lemma legacyLoadImage_releases_on_success_witness :
  ∃ lm' s' evs,
    legacyLoadImage (collab fxChain) 5 "a" dir ∅ false start = (Ok lm', s') ∧
    trace s' = trace start ++ evs ∧ acquired evs = released evs ∧
    defers s' = defers start.
Proof.
  destruct (legacyLoadImage (collab fxChain) 5 "a" dir ∅ false start)
    as [[lm'|e|] s'] eqn:H.
  - destruct (legacyLoadImage_releases_on_success _ _ _ _ _ _ _ _ _ H)
      as (evs & Ht & Ha & Hd).
    exists lm', s', evs. exact (conj eq_refl (conj Ht (conj Ha Hd))).
  - vm_compute in H. discriminate.
  - vm_compute in H. discriminate.
Defined.

Lemma legacyLoadImage_links_created_witness :
  ∃ lm' s' evs,
    legacyLoadImage (collab fxChain) 5 "a" dir ∅ false start = (Ok lm', s') ∧
    trace s' = trace start ++ evs ∧
    (∀ k i, lm' !! k = Some i →
       (∅ : gmap string ImageID) !! k = Some i ∨ i ∈ created evs).
Proof.
  destruct (legacyLoadImage (collab fxChain) 5 "a" dir ∅ false start)
    as [[lm'|e|] s'] eqn:H.
  - destruct (legacyLoadImage_links_created _ _ _ _ _ _ _ _ _ H)
      as (evs & Ht & Hv & _).
    exists lm', s', evs. exact (conj eq_refl (conj Ht Hv)).
  - vm_compute in H. discriminate.
  - vm_compute in H. discriminate.
Defined.

Lemma legacyLoad_invalid_target_has_no_dir_witness :
  (legacyLoad (collab fxDangling) 2 dir false start).1
  = Err (ErrInvalidTargetID "zzz") ∧
  fiName {| fiName := "a"; IsDir := true |} ≠ "zzz".
Proof.
  split; [vm_compute; reflexivity|].
  exact (legacyLoad_invalid_target_has_no_dir (collab fxDangling) 2 dir false
           start "zzz" (legacyLoad (collab fxDangling) 2 dir false start).2
           (fxDirs fxDangling) emptyWorld
           ltac:(vm_compute; reflexivity) eq_refl
           {| fiName := "a"; IsDir := true |}
           (list_elem_of_here _ _) eq_refl).
Defined.

Lemma loadManifest_one_image_per_entry_witness :
  ∃ evs,
    trace (loadManifest (collab fxTagged) dir true taggedThenUntagged start).2
    = trace start ++ evs ∧
    length (created evs) = length taggedThenUntagged.
Proof.
  exact (loadManifest_one_image_per_entry (collab fxTagged) dir true
           taggedThenUntagged start
           (loadManifest (collab fxTagged) dir true taggedThenUntagged start).2
           ltac:(vm_compute; reflexivity)).
Defined.


End FurtherRuns.
